(** * Manifesto text pipeline: comparison, arbitration and cleaning

    A shallow embedding of the text-processing scripts of the repository
    ([text_comparison.py], [7_archive/c1_text_comparison.py],
    [7_archive/b_text_cleaning.py], [text_file_recommendation.py]) together
    with the properties stated about them.

    Python [str] values are lists of Unicode code points; the part of the
    Unicode character database that Python consults for code points above
    127 is an interface ([UnicodeData]); everything on ASCII is defined
    here.  A Python [float] is given by its value, a rational ([Q]); the
    metric functions return the exact quotient, and [PyNum.fl] rounds a
    rational to binary64 where the program computes with the float. *)

From Stdlib Require Import NArith QArith Qabs Lia SpecFloat.
From stdpp Require Import base option list strings gmap.

(** ** Python strings *)

Module Py.

Definition char := N.
Definition str := list N.

(** An ASCII literal as a Python string. *)
Definition py (s : string) : str :=
  (λ a, N.of_nat (Ascii.nat_of_ascii a)) <$> String.list_ascii_of_string s.

Definition chr (s : string) : char :=
  match py s with
  | c :: _ => c
  | [] => 0%N
  end.

Definition in_range (lo hi c : N) : bool := ((lo <=? c) && (c <=? hi))%N.

Definition is_ascii (c : char) : bool := (c <? 128)%N.
Definition ascii_upper (c : char) : bool := in_range 65 90 c.
Definition ascii_lower (c : char) : bool := in_range 97 122 c.
Definition ascii_letter (c : char) : bool := ascii_upper c || ascii_lower c.
Definition ascii_digit (c : char) : bool := in_range 48 57 c.
Definition to_lower1 (c : char) : char := if ascii_upper c then (c + 32)%N else c.
Definition to_upper1 (c : char) : char := if ascii_lower c then (c - 32)%N else c.

(** What Python asks the Unicode database about code points above 127.
    Each field is consulted only for such code points (or for strings that
    contain one). *)
Class UnicodeData := {
  ud_isalnum : char → bool;       (* [str.isalnum], used by [\w] and [\b] *)
  ud_isdecimal : char → bool;     (* category Nd, used by [\d] *)
  ud_isdigit : char → bool;       (* [str.isdigit] *)
  ud_islower : char → bool;       (* [str.islower] of a one-character string *)
  ud_lower : str → str;           (* [str.lower] *)
  ud_case_variants : char → list char;  (* the code points as which
                                     re.IGNORECASE tries a character *)
  ud_nfkc : str → str;            (* [unicodedata.normalize('NFKC', _)] *)
  ud_category_C : char → bool     (* [unicodedata.category(_).startswith('C')] *)
}.

(** [str.isspace] of one code point: the characters [str.split()],
    [str.strip()] and the regex class [\s] treat as whitespace. *)
Definition isspace (c : char) : bool :=
  in_range 9 13 c || in_range 28 32 c || (c =? 133)%N || (c =? 160)%N
  || (c =? 5760)%N || in_range 8192 8202 c || (c =? 8232)%N || (c =? 8233)%N
  || (c =? 8239)%N || (c =? 8287)%N || (c =? 12288)%N.

Section WithUnicode.
Context `{UD : UnicodeData}.

Definition isalnum (c : char) : bool :=
  if is_ascii c then ascii_letter c || ascii_digit c else ud_isalnum c.
Definition isdecimal (c : char) : bool :=
  if is_ascii c then ascii_digit c else ud_isdecimal c.
Definition isdigit1 (c : char) : bool :=
  if is_ascii c then ascii_digit c else ud_isdigit c.
Definition islower1 (c : char) : bool :=
  if is_ascii c then ascii_lower c else ud_islower c.
Definition category_C (c : char) : bool :=
  if is_ascii c then (c <? 32)%N || (c =? 127)%N else ud_category_C c.
Definition case_variants (c : char) : list char :=
  if is_ascii c then [to_lower1 c] else ud_case_variants c.

(** [s.lower()] *)
Definition lower (s : str) : str :=
  if forallb is_ascii s then to_lower1 <$> s else ud_lower s.

(** [unicodedata.normalize('NFKC', s)]: the identity on ASCII text. *)
Definition nfkc (s : str) : str :=
  if forallb is_ascii s then s else ud_nfkc s.

(** [s.isdigit()] *)
Definition isdigit (s : str) : bool :=
  match s with
  | [] => false
  | _ => forallb isdigit1 s
  end.

End WithUnicode.

(** [len(s)] is [length s]; [s1 + s2] is [s1 ++ s2]. *)

Fixpoint drop_while (p : char → bool) (s : str) : str :=
  match s with
  | [] => []
  | c :: s' => if p c then drop_while p s' else s
  end.

(** [s.strip()] *)
Definition strip (s : str) : str :=
  rev (drop_while isspace (rev (drop_while isspace s))).

(** [s.split()]: maximal runs of non-whitespace. [cur] is the current
    word, reversed. *)
Definition flush (cur : str) : list str :=
  match cur with
  | [] => []
  | _ => [rev cur]
  end.

Fixpoint split_go (s : str) (cur : str) : list str :=
  match s with
  | [] => flush cur
  | c :: s' =>
      if isspace c then flush cur ++ split_go s' [] else split_go s' (c :: cur)
  end.

Definition split (s : str) : list str := split_go s [].

Fixpoint prefix_b (p s : str) : bool :=
  match p, s with
  | [], _ => true
  | a :: p', b :: s' => (a =? b)%N && prefix_b p' s'
  | _ :: _, [] => false
  end.

(** [s.split(sep)] for a non-empty separator: [skip] counts the characters
    of a separator occurrence still to be passed over, [cur] is the current
    piece, reversed. *)
Fixpoint split_on_go (sep : str) (skip : nat) (s : str) (cur : str) : list str :=
  match s with
  | [] => [rev cur]
  | c :: s' =>
      match skip with
      | S k => split_on_go sep k s' cur
      | 0 =>
          if prefix_b sep s
          then rev cur :: split_on_go sep (length sep - 1) s' []
          else split_on_go sep 0 s' (c :: cur)
      end
  end.

Definition split_on (sep : str) (s : str) : list str := split_on_go sep 0 s [].

(** [sep.join(pieces)] *)
Fixpoint join (sep : str) (pieces : list str) : str :=
  match pieces with
  | [] => []
  | [p] => p
  | p :: rest => p ++ sep ++ join sep rest
  end.

(** [s.replace(old, new)] for a non-empty [old]. *)
Fixpoint replace_go (old new : str) (skip : nat) (s : str) : str :=
  match s with
  | [] => []
  | c :: s' =>
      match skip with
      | S k => replace_go old new k s'
      | 0 =>
          if prefix_b old s
          then new ++ replace_go old new (length old - 1) s'
          else c :: replace_go old new 0 s'
      end
  end.

Definition replace (old new : str) (s : str) : str := replace_go old new 0 s.

(** [sub in s] *)
Fixpoint contains (sub s : str) : bool :=
  prefix_b sub s ||
  match s with
  | [] => false
  | _ :: s' => contains sub s'
  end.

(** [c in s] for one character *)
Definition has_char (c : char) (s : str) : bool := existsb (N.eqb c) s.

Definition startswith (s p : str) : bool := prefix_b p s.

Definition str_eqb (a b : str) : bool := bool_decide (a = b).

(** [len(set(s))] for a sequence of characters or of strings *)
Definition distinct_count {A} `{EqDecision A} (l : list A) : nat :=
  length (remove_dups l).

End Py.

(** ** Regular expressions: the backtracking matcher of Python's [re]

    A pattern is written as a syntax tree; [rmatch] lists the ways a pattern
    can match at a position in the order in which the backtracking matcher
    tries them, so that the head of the list is the match Python reports. *)

Module Re.
Import Py.

Inductive citem :=
| ILit (c : char)
| IRange (lo hi : char)
| IDigit       (* \d *)
| IWord        (* \w *)
| ISpace       (* \s *)
| INotSpace.   (* \S *)

Inductive regex :=
| RAny                                    (* .  (no DOTALL) *)
| RSet (neg : bool) (items : list citem)  (* [...] and [^...]; one literal *)
| REmpty
| RSeq (r1 r2 : regex)
| RAlt (r1 r2 : regex)
| RRep (greedy : bool) (lo : nat) (hi : option nat) (r : regex)
| RGroup (i : nat) (r : regex)            (* the i-th capturing group *)
| RBol                                    (* ^  (no MULTILINE) *)
| REol                                    (* $  (no MULTILINE) *)
| RWordB                                  (* \b *)
| RLookahead (r : regex).                 (* (?=...) *)

(** A position in the subject: the text before it (reversed), the text
    after it, and the groups captured so far (latest first). *)
Record mstate := MState {
  m_pre : str;
  m_suf : str;
  m_groups : list (nat * str)
}.

Definition NL : char := 10%N.
Definition UNDERSCORE : char := 95%N.

Section WithUnicode.
Context `{UD : UnicodeData}.

Definition is_word (c : char) : bool := isalnum c || (c =? UNDERSCORE)%N.

Definition item_match (it : citem) (c : char) : bool :=
  match it with
  | ILit l => (c =? l)%N
  | IRange lo hi => in_range lo hi c
  | IDigit => isdecimal c
  | IWord => is_word c
  | ISpace => isspace c
  | INotSpace => negb (isspace c)
  end.

(** Under re.IGNORECASE the set is lower-cased when the pattern is compiled
    and the subject character is lower-cased before the test.  (The patterns
    of this repository have cased characters in ASCII only.) *)
Definition item_match_ci (it : citem) (c : char) : bool :=
  existsb (λ y,
    match it with
    | ILit l => (y =? to_lower1 l)%N
    | IRange lo hi => in_range lo hi y || in_range lo hi (to_upper1 y)
    | _ => item_match it y
    end) (case_variants c).

Definition set_match (ic neg : bool) (items : list citem) (c : char) : bool :=
  xorb neg (existsb (λ it, if ic then item_match_ci it c else item_match it c) items).

Definition step_char (p : char → bool) (st : mstate) : list mstate :=
  match m_suf st with
  | c :: rest => if p c then [MState (c :: m_pre st) rest (m_groups st)] else []
  | [] => []
  end.

Definition at_word_boundary (st : mstate) : bool :=
  xorb (match m_pre st with c :: _ => is_word c | [] => false end)
       (match m_suf st with c :: _ => is_word c | [] => false end).

Definition at_end (st : mstate) : bool :=
  match m_suf st with
  | [] => true
  | [c] => (c =? NL)%N
  | _ => false
  end.

Definition guard (b : bool) (st : mstate) : list mstate := if b then [st] else [].

(** The text consumed between two positions of one subject. *)
Definition consumed (st st' : mstate) : str :=
  take (length (m_suf st) - length (m_suf st')) (m_suf st).

Definition advanced (st st' : mstate) : bool :=
  length (m_suf st') <? length (m_suf st).

Definition set_group (i : nat) (st st' : mstate) : mstate :=
  MState (m_pre st') (m_suf st') ((i, consumed st st') :: m_groups st').

Definition pred_opt (hi : option nat) : option nat := Nat.pred <$> hi.

(** Repetition [r{lo,hi}] (greedy) or [r{lo,hi}?] (lazy).  An iteration has
    to consume a character, so the length of the rest bounds the loop. *)
Fixpoint rep_loop (body : mstate → list mstate) (greedy : bool)
    (lo : nat) (hi : option nat) (fuel : nat) (st : mstate) : list mstate :=
  match fuel with
  | 0 => []
  | S fuel' =>
      let again :=
        match hi with
        | Some 0 => []
        | _ =>
            body st ≫= λ st',
              if advanced st st'
              then rep_loop body greedy (Nat.pred lo) (pred_opt hi) fuel' st'
              else []
        end in
      match lo with
      | S _ => again
      | 0 => if greedy then again ++ [st] else st :: again
      end
  end.

Fixpoint rmatch (ic : bool) (r : regex) (st : mstate) : list mstate :=
  match r with
  | RAny => step_char (λ c, negb (c =? NL)%N) st
  | RSet neg items => step_char (set_match ic neg items) st
  | REmpty => [st]
  | RSeq r1 r2 => rmatch ic r1 st ≫= rmatch ic r2
  | RAlt r1 r2 => rmatch ic r1 st ++ rmatch ic r2 st
  | RRep greedy lo hi r' =>
      rep_loop (rmatch ic r') greedy lo hi (S (length (m_suf st))) st
  | RGroup i r' => set_group i st <$> rmatch ic r' st
  | RBol => guard (bool_decide (m_pre st = [])) st
  | REol => guard (at_end st) st
  | RWordB => guard (at_word_boundary st) st
  | RLookahead r' =>
      match rmatch ic r' st with
      | [] => []
      | _ :: _ => [st]
      end
  end.

(** A match object: where the match starts and where it ends. *)
Record match_obj := MatchObj { mo_start : mstate; mo_end : mstate }.

(** [m.group(i)]; a group that took no part in the match is empty in a
    replacement template. *)
Fixpoint lookup_group (i : nat) (gs : list (nat * str)) : str :=
  match gs with
  | [] => []
  | (j, s) :: gs' => if (i =? j)%nat then s else lookup_group i gs'
  end.

Definition group (m : match_obj) (i : nat) : str :=
  match i with
  | 0 => consumed (mo_start m) (mo_end m)
  | _ => lookup_group i (m_groups (mo_end m))
  end.

Definition is_empty_match (m : match_obj) : bool :=
  negb (advanced (mo_start m) (mo_end m)).

(** The match at one position; with [must_advance] an empty match does not
    count and the matcher backtracks to the next alternative. *)
Definition match_at (ic : bool) (r : regex) (must_advance : bool)
    (pre suf : str) : option match_obj :=
  let st := MState pre suf [] in
  MatchObj st <$>
    head (filter (λ st', must_advance = false ∨ advanced st st' = true) (rmatch ic r st)).

(** [re.match(r, s)] *)
Definition re_match (ic : bool) (r : regex) (s : str) : option match_obj :=
  match_at ic r false [] s.

(** [re.search(r, s)] *)
Fixpoint search_go (ic : bool) (r : regex) (pre suf : str) : option match_obj :=
  match match_at ic r false pre suf with
  | Some m => Some m
  | None =>
      match suf with
      | [] => None
      | c :: suf' => search_go ic r (c :: pre) suf'
      end
  end.

Definition re_search (ic : bool) (r : regex) (s : str) : option match_obj :=
  search_go ic r [] s.

(** The successive non-overlapping matches in a subject, each with the
    unmatched text in front of it, and the unmatched rest.  [gap] is the
    unmatched text since the last match, reversed. *)
Fixpoint scan_go (ic : bool) (r : regex) (fuel : nat) (must_advance : bool)
    (pre suf gap : str) : list (str * match_obj) * str :=
  match fuel with
  | 0 => ([], rev gap ++ suf)
  | S fuel' =>
      match match_at ic r must_advance pre suf with
      | Some m =>
          let '(ms, rest) :=
            scan_go ic r fuel' (is_empty_match m)
                    (m_pre (mo_end m)) (m_suf (mo_end m)) [] in
          ((rev gap, m) :: ms, rest)
      | None =>
          match suf with
          | [] => ([], rev gap)
          | c :: suf' => scan_go ic r fuel' false (c :: pre) suf' (c :: gap)
          end
      end
  end.

Definition scan (ic : bool) (r : regex) (s : str) : list (str * match_obj) * str :=
  scan_go ic r (2 * length s + 2) false [] s [].

(** [re.sub(r, repl, s)] with a replacement function. *)
Definition re_sub (ic : bool) (r : regex) (repl : match_obj → str) (s : str) : str :=
  let '(ms, rest) := scan ic r s in
  concat ((λ gm, fst gm ++ repl (snd gm)) <$> ms) ++ rest.

(** [re.findall(r, s)] for a pattern without groups. *)
Definition re_findall (ic : bool) (r : regex) (s : str) : list str :=
  (λ gm, group (snd gm) 0) <$> fst (scan ic r s).

(** [re.split(r, s)] for a pattern without groups. *)
Definition re_split (ic : bool) (r : regex) (s : str) : list str :=
  let '(ms, rest) := scan ic r s in
  (fst <$> ms) ++ [rest].

End WithUnicode.

(** Replacement templates such as [r'\1\2\3']. *)
Inductive tpiece := TLit (s : str) | TGroup (i : nat).

Definition expand (t : list tpiece) (m : match_obj) : str :=
  concat ((λ p, match p with TLit s => s | TGroup i => group m i end) <$> t).

(** Pattern syntax. *)
Definition lit1 (c : char) : regex := RSet false [ILit c].
Definition seqs (rs : list regex) : regex := foldr RSeq REmpty rs.
Definition lit (s : string) : regex := seqs (lit1 <$> py s).
Definition alts (r : regex) (rs : list regex) : regex := foldl RAlt r rs.
Definition star (r : regex) : regex := RRep true 0 None r.
Definition plus (r : regex) : regex := RRep true 1 None r.
Definition opt (r : regex) : regex := RRep true 0 (Some 1) r.
Definition lazy_plus (r : regex) : regex := RRep false 1 None r.
Definition at_least (n : nat) (r : regex) : regex := RRep true n None r.
Definition exactly (n : nat) (r : regex) : regex := RRep true n (Some n) r.
Definition between (lo hi : nat) (r : regex) : regex := RRep true lo (Some hi) r.
Definition cls (items : list citem) : regex := RSet false items.
Definition ncls (items : list citem) : regex := RSet true items.
Definition rng (lo hi : string) : citem := IRange (chr lo) (chr hi).
Definition ch (c : string) : citem := ILit (chr c).

End Re.

(** ** Python numbers, dictionaries and [max] *)

Module PyNum.

Definition Qnat (n : nat) : Q := inject_Z (Z.of_nat n).

(** [a / b] raises ZeroDivisionError ([None]) when [b] is zero.  The
    quotient is exact: the float that Python returns is [fl] of it. *)
Definition py_div (a b : Q) : option Q :=
  if Qeq_bool b 0 then None else Some (a / b)%Q.

Definition Qlt_bool (a b : Q) : bool := negb (Qle_bool b a).

(** *** binary64

    The value of a binary64 number.  An infinity stands for 2^1024; no
    length of a text comes near it. *)
Definition SF2Q (x : spec_float) : Q :=
  match x with
  | S754_finite s m e =>
      let v := match e with
               | Z0 => inject_Z (Zpos m)
               | Zpos p => inject_Z (Zpos m * 2 ^ Zpos p)
               | Zneg p => Zpos m # 2 ^ p
               end in
      if s then (- v)%Q else v
  | S754_infinity s => if s then (- inject_Z (2 ^ 1024))%Q else inject_Z (2 ^ 1024)
  | _ => 0%Q
  end.

(** The binary64 number nearest to [q], ties to even: the division of the
    Standard Library's specification of IEEE 754, applied to the numerator
    and the denominator.  It is what [a / b] returns for integers [a] and
    [b] with quotient [q], what [float(n)] returns for an integer [n], and
    how a float operation rounds its exact result. *)
Definition fl (q : Q) : Q :=
  match Qnum q with
  | Z0 => 0%Q
  | Zpos n => SF2Q (SFdiv 53 1024 (S754_finite false n 0) (S754_finite false (Qden q) 0))
  | Zneg n => SF2Q (SFdiv 53 1024 (S754_finite true n 0) (S754_finite false (Qden q) 0))
  end.

(** A Python number: an [int], or a [float] given by its value. *)
Inductive num := Int (z : Z) | Float (x : Q).

Definition value (a : num) : Q :=
  match a with Int z => inject_Z z | Float x => x end.

(** [float(a)], the conversion that mixed arithmetic applies to an int. *)
Definition to_float (a : num) : Q :=
  match a with Int z => fl (inject_Z z) | Float x => x end.

Definition num_add (a b : num) : num :=
  match a, b with
  | Int x, Int y => Int (x + y)
  | _, _ => Float (fl (to_float a + to_float b))
  end.

Definition num_sub (a b : num) : num :=
  match a, b with
  | Int x, Int y => Int (x - y)
  | _, _ => Float (fl (to_float a - to_float b))
  end.

Definition num_mul (a b : num) : num :=
  match a, b with
  | Int x, Int y => Int (x * y)
  | _, _ => Float (fl (to_float a * to_float b))
  end.

(** [a / d] for a positive int [d]: true division, a float also for two
    ints, of which it rounds the exact quotient. *)
Definition div_pos (a : num) (d : positive) : Q :=
  match a with
  | Int x => fl (x # d)
  | Float x => fl (x / fl (inject_Z (Zpos d)))
  end.

Definition num_abs (a : num) : num :=
  match a with Int z => Int (Z.abs z) | Float x => Float (Qabs x) end.

(** [a <= b]; Python compares an int and a float by their values. *)
Definition num_le (a b : num) : bool := Qle_bool (value a) (value b).

(** [max(xs, key=key)] for a sequence starting with [x]: the first of the
    elements with the largest key. *)
Fixpoint max_by {A} (key : A → Q) (best : A) (xs : list A) : A :=
  match xs with
  | [] => best
  | x :: xs' => max_by key (if Qlt_bool (key best) (key x) then x else best) xs'
  end.

Definition py_max_by {A} (key : A → Q) (xs : list A) : option A :=
  match xs with
  | [] => None        (* ValueError *)
  | x :: xs' => Some (max_by key x xs')
  end.

End PyNum.

(** A Python [dict]: keys in insertion order. *)
Module PyDict.
Section Dict.
Context {K V : Type} `{EqDecision K}.

Definition dict := list (K * V).

Fixpoint get (k : K) (d : dict) : option V :=
  match d with
  | [] => None
  | (k', v) :: d' => if decide (k = k') then Some v else get k d'
  end.

(** [d[k] = v]: a present key keeps its place. *)
Fixpoint set (k : K) (v : V) (d : dict) : dict :=
  match d with
  | [] => [(k, v)]
  | (k', v') :: d' => if decide (k = k') then (k', v) :: d' else (k', v') :: set k v d'
  end.

Definition keys (d : dict) : list K := fst <$> d.

End Dict.
Arguments dict : clear implicits.
End PyDict.

(** What the bytes of a file give when they are read as UTF-8: the text
    that they encode, or, when they are not valid UTF-8, the text that a
    reading with [errors="replace"] returns. *)
Inductive contents :=
| Text (text : Py.str)
| Malformed (replaced : Py.str).

(** A file of the scanned folder. *)
Record file := MkFile { f_name : Py.str; f_contents : contents }.

(** A file of valid UTF-8. *)
Definition File (name text : Py.str) : file := MkFile name (Text text).

(** [path.read_text(encoding="utf8", errors="replace")] *)
Definition f_text (f : file) : Py.str :=
  match f_contents f with Text text => text | Malformed replaced => replaced end.

(** [open(file, 'r', encoding='utf-8').read()]: [None] is the
    UnicodeDecodeError of the strict decoder. *)
Definition read_strict (f : file) : option Py.str :=
  match f_contents f with Text text => Some text | Malformed _ => None end.

(** ** text_comparison.py *)

Module TextComparison.
Import Py Re PyNum.

(** What can stop the loop over the groups: the decoder of a file that is
    not valid UTF-8, or another exception raised while computing. *)
Inductive error := UnicodeDecodeError | OtherError.

#[export] Instance error_ret : MRet (sum error) := λ A, inr.
#[export] Instance error_bind : MBind (sum error) :=
  λ A B f x, match x with inl e => inl e | inr a => f a end.

Section WithUnicode.
Context `{UD : UnicodeData}.

(** r"(.+?)_(tesseract_extraction|pymupdf_extraction|from_csv)(?:_cleaned)?\.txt" *)
Definition GROUP_KEY_RE : regex :=
  seqs [ RGroup 1 (lazy_plus RAny); lit "_";
         RGroup 2 (alts (lit "tesseract_extraction")
                        [lit "pymupdf_extraction"; lit "from_csv"]);
         opt (lit "_cleaned"); lit ".txt" ].

Definition extract_group_key (filename : str) : option str :=
  match re_match false GROUP_KEY_RE filename with
  | Some m => Some (group m 1)
  | None => None
  end.

Definition word_count (text : str) : nat := length (split text).

(** r'[.!?]' *)
Definition sentence_count (text : str) : nat :=
  length (re_findall false (cls [ch "."; ch "!"; ch "?"]) text).

Definition character_count (text : str) : nat := length text.

Definition count_if {A} (p : A → bool) (l : list A) : nat :=
  length (List.filter p l).

(** The pattern of the source is the class [[^-]]. *)
Definition ocr_error_rate (text : str) : option Q :=
  py_div (Qnat (count_if (λ word, bool_decide (is_Some (re_search false (ncls [ch "-"]) word)))
                         (split text)))
         (Qnat (Nat.max (length (split text)) 1)).

Definition sum_list (l : list nat) : nat := foldr Nat.add 0%nat l.

Definition average_word_length (text : str) : option Q :=
  let words := split text in
  py_div (Qnat (sum_list (length <$> words))) (Qnat (Nat.max (length words) 1)).

Definition punctuation_frequency (text : str) : option Q :=
  py_div (Qnat (count_if (λ c, has_char c (py ".,;:!?")) text))
         (Qnat (Nat.max (length text) 1)).

Definition FROM_CSV : str := py "from_csv".
Definition PYMUPDF_EXTRACTION : str := py "pymupdf_extraction".
Definition TESSERACT_EXTRACTION : str := py "tesseract_extraction".

Definition method_labels : PyDict.dict str str :=
  [ (FROM_CSV, py "from_csv");
    (PYMUPDF_EXTRACTION, py "PyMuPDF");
    (TESSERACT_EXTRACTION, py "Tesseract") ].

Definition label_of (method : str) : str :=
  default method (PyDict.get method method_labels).

(** The lists handed to [calculate_recommendation]; [None] is Python's
    [None], the entry of a method without a file. *)
Record metrics_dict := MetricsDict {
  word_counts : list (option num);
  char_counts : list (option num);
  ocr_error_rates : list (option num);
  avg_word_lengths : list (option num);
  punctuation_freqs : list (option num)
}.

(** One round of the loop of [calculate_recommendation]: [score] and
    [valid_metrics]. *)
Definition add_word (m : option num) (acc : num * nat) : num * nat :=
  match m with
  | Some word_score => (num_add (fst acc) word_score, S (snd acc))
  | None => acc
  end.

Definition add_char (m : option num) (acc : num * nat) : num * nat :=
  match m with
  | Some c => (num_add (fst acc) (Float (div_pos c 100)), S (snd acc))
  | None => acc
  end.

Definition add_ocr (m : option num) (acc : num * nat) : num * nat :=
  match m with
  | Some e => (num_sub (fst acc) (num_mul e (Int 1000)), S (snd acc))
  | None => acc
  end.

Definition add_avg_len (m : option num) (acc : num * nat) : num * nat :=
  match m with
  | Some avg_len =>
      (if num_le (Int 4) avg_len && num_le avg_len (Int 6)
       then num_add (fst acc) (Int 50)
       else num_sub (fst acc) (num_mul (num_abs (num_sub avg_len (Int 5))) (Int 10)),
       S (snd acc))
  | None => acc
  end.

(** The literals 0.05, 0.15 and 0.1 are the nearest binary64 numbers. *)
Definition add_punct (m : option num) (acc : num * nat) : num * nat :=
  match m with
  | Some punct_freq =>
      (if num_le (Float (fl (5 # 100))) punct_freq
          && num_le punct_freq (Float (fl (15 # 100)))
       then num_add (fst acc) (Int 30)
       else num_sub (fst acc)
              (num_mul (num_abs (num_sub punct_freq (Float (fl (1 # 10))))) (Int 100)),
       S (snd acc))
  | None => acc
  end.

(** The score of the [i]-th method, if it has one: the value of the float
    [score / valid_metrics].  The outer [None] is the IndexError of a list
    shorter than [method_order]. *)
Definition method_score (md : metrics_dict) (i : nat) : option (option Q) :=
  wc ← word_counts md !! i;
  cc ← char_counts md !! i;
  er ← ocr_error_rates md !! i;
  al ← avg_word_lengths md !! i;
  pf ← punctuation_freqs md !! i;
  let '(score, valid_metrics) :=
    add_punct pf (add_avg_len al (add_ocr er (add_char cc (add_word wc (Int 0, 0%nat))))) in
  Some (if (0 <? valid_metrics)%nat
        then Some (div_pos score (Pos.of_nat valid_metrics))
        else None).

(** The loop over [enumerate(method_order)] filling the dictionary [scores]. *)
Fixpoint fill_scores (md : metrics_dict) (i : nat) (methods : list str)
    (scores : PyDict.dict str Q) : option (PyDict.dict str Q) :=
  match methods with
  | [] => Some scores
  | method :: rest =>
      sc ← method_score md i;
      fill_scores md (S i) rest
        (match sc with
         | Some q => PyDict.set method q scores
         | None => scores
         end)
  end.

(** [max(scores, key=scores.get)] walks the keys in insertion order. *)
Definition best_of (scores : PyDict.dict str Q) : option str :=
  fst <$> py_max_by snd scores.

Definition calculate_recommendation (md : metrics_dict) (method_order : list str)
    : option str :=
  scores ← fill_scores md 0 method_order [];
  match best_of scores with
  | None => Some (py "No data available")
  | Some best_method => Some (label_of best_method)
  end.

Definition method_order : list str :=
  [FROM_CSV; PYMUPDF_EXTRACTION; TESSERACT_EXTRACTION].

(** The grouping loop of [compare_folder]: [grouped] maps a group key to
    the dictionary of its methods. *)
Definition grouped_dict := PyDict.dict str (PyDict.dict str file).

Definition method_of_name (name : str) : option str :=
  if contains (py "_tesseract_extraction") name then Some TESSERACT_EXTRACTION
  else if contains (py "_pymupdf_extraction") name then Some PYMUPDF_EXTRACTION
  else if contains (py "_from_csv") name then Some FROM_CSV
  else None.

Definition add_file (grouped : grouped_dict) (f : file) : grouped_dict :=
  match extract_group_key (f_name f) with
  | Some (c :: k) =>
      let group_key : str := c :: k in
      (* grouped.setdefault(group_key, {}) *)
      let methods := default [] (PyDict.get group_key grouped) in
      PyDict.set group_key
        (match method_of_name (f_name f) with
         | Some method => PyDict.set method f methods
         | None => methods
         end) grouped
  | _ => grouped
  end.

Definition group_files (files : list file) : grouped_dict :=
  foldl add_file [] files.

(** One row of comparison_summary.csv.  The metric columns hold the values
    handed to [format_metric_list], in [method_order]. *)
Record row := Row {
  r_group : str;
  r_word_counts : list (option num);
  r_sentence_counts : list (option num);
  r_char_counts : list (option num);
  r_ocr_error_rates : list (option num);
  r_avg_word_lengths : list (option num);
  r_punctuation_freqs : list (option num);
  r_recommendation : str
}.

Definition read (f : file) : error + str :=
  match read_strict f with Some text => inr text | None => inl UnicodeDecodeError end.

Definition try {A} (o : option A) : error + A :=
  match o with Some a => inr a | None => inl OtherError end.

(** The six values appended for a method with a file. *)
Record measures := Measures {
  m_word_count : num;
  m_sentence_count : num;
  m_char_count : num;
  m_ocr_error_rate : num;
  m_avg_word_length : num;
  m_punctuation_freq : num
}.

Definition Nnat (n : nat) : num := Int (Z.of_nat n).

(** The three ratios are floats: the quotients rounded. *)
Definition measure (text : str) : option measures :=
  er ← ocr_error_rate text;
  al ← average_word_length text;
  pf ← punctuation_frequency text;
  Some (Measures (Nnat (word_count text)) (Nnat (sentence_count text))
                 (Nnat (character_count text))
                 (Float (fl er)) (Float (fl al)) (Float (fl pf))).

(** One round of the loop over [method_order]: [None] for a method
    without a file. *)
Definition measure_method (methods : PyDict.dict str file) (method : str)
    : error + option measures :=
  match PyDict.get method methods with
  | Some f =>
      text ← read f;
      ms ← try (measure text);
      mret (Some ms)
  | None => mret None
  end.

Definition column (field : measures → num) (ms : list (option measures))
    : list (option num) :=
  (λ m : option measures, field <$> m) <$> ms.

Definition process_group (group : str) (methods : PyDict.dict str file) : error + row :=
  ms ← mapM (measure_method methods) method_order;
  let word_counts := column m_word_count ms in
  let sentence_counts := column m_sentence_count ms in
  let char_counts := column m_char_count ms in
  let ocr_error_rates := column m_ocr_error_rate ms in
  let avg_word_lengths := column m_avg_word_length ms in
  let punctuation_freqs := column m_punctuation_freq ms in
  recommendation ←
    try (calculate_recommendation
           (MetricsDict word_counts char_counts ocr_error_rates avg_word_lengths
                        punctuation_freqs) method_order);
  mret (Row group word_counts sentence_counts char_counts ocr_error_rates avg_word_lengths
            punctuation_freqs recommendation).

Inductive outcome :=
| FileNotFoundError
| Failed (e : error)
| Written (rows : list row).

(** [files] is what [folder.glob("*.txt")] yields. *)
Definition compare_folder (files : list file) : outcome :=
  match group_files files with
  | [] => FileNotFoundError
  | grouped =>
      match mapM (λ gm, process_group (fst gm) (snd gm)) grouped with
      | inr rows => Written rows
      | inl e => Failed e
      end
  end.

End WithUnicode.
End TextComparison.

(** ** 7_archive/c1_text_comparison.py *)

Module ArchiveComparison.
Import Py Re PyNum.

Definition FROM_CSV : str := py "from_csv".
Definition PYMUPDF : str := py "pymupdf".
Definition TESSERACT : str := py "tesseract".

Definition _METHOD_ORDER : list str := [FROM_CSV; PYMUPDF; TESSERACT].

Definition REPLACEMENT_CHARACTER : char := 65533%N.   (* U+FFFD *)
Definition ELLIPSIS : char := 8230%N.                 (* U+2026 *)

(** [string.punctuation] *)
Definition is_punctuation (c : char) : bool :=
  in_range 33 47 c || in_range 58 64 c || in_range 91 96 c || in_range 123 126 c.

(** [a < b] on strings: by code points, a proper prefix first. *)
Fixpoint str_ltb (a b : str) : bool :=
  match a, b with
  | _, [] => false
  | [], _ :: _ => true
  | x :: a', y :: b' => (x <? y)%N || ((x =? y)%N && str_ltb a' b')
  end.

(** [sorted(d.items())] for distinct keys: a stable insertion sort. *)
Fixpoint insert_item {V} (kv : str * V) (l : list (str * V)) : list (str * V) :=
  match l with
  | [] => [kv]
  | kv' :: l' => if str_ltb (fst kv) (fst kv') then kv :: l else kv' :: insert_item kv l'
  end.

Definition sorted_items {V} (d : list (str * V)) : list (str * V) :=
  foldr insert_item [] d.

(** The dictionary that [_compute_metrics] returns; a ratio is given by
    the exact quotient, of which the float is the rounding. *)
Record metrics := Metrics {
  word_count : nat;
  sentence_count : nat;
  char_count : nat;
  avg_word_length : Q;
  punctuation_frequency : Q;
  lexical_diversity : Q;
  ocr_error_rate : Q
}.

Section WithUnicode.
Context `{UD : UnicodeData}.

(** ^(?P<prefix>\d{4}-\d{2}-[a-z0-9_]+)_(?P<method>from_csv|pymupdf_extraction|tesseract_extraction)\.txt$
    compiled with re.IGNORECASE; group 1 is [prefix], group 2 is [method]. *)
Definition _PATTERN : regex :=
  seqs [ RBol;
         RGroup 1 (seqs [ exactly 4 (cls [IDigit]); lit "-"; exactly 2 (cls [IDigit]); lit "-";
                          plus (cls [rng "a" "z"; rng "0" "9"; ch "_"]) ]);
         lit "_";
         RGroup 2 (alts (lit "from_csv") [lit "pymupdf_extraction"; lit "tesseract_extraction"]);
         lit ".txt"; REol ].

(** r"[.!?…]+\s|\n+" *)
Definition _SENTENCE_BOUNDARY : regex :=
  RAlt (RSeq (plus (cls [ch "."; ch "!"; ch "?"; ILit ELLIPSIS])) (cls [ISpace]))
       (plus (lit1 NL)).

Definition _tokenise (text : str) : list str := split text.

(** r"[A-Za-z].*\d|\d.*[A-Za-z]" *)
Definition MIXED_RE : regex :=
  RAlt (seqs [cls [rng "A" "Z"; rng "a" "z"]; star RAny; cls [IDigit]])
       (seqs [cls [IDigit]; star RAny; cls [rng "A" "Z"; rng "a" "z"]]).

(** The test of one word in the loop of [_ocr_error_heuristic]. *)
Definition is_suspicious (w : str) : bool :=
  if has_char REPLACEMENT_CHARACTER w then true
  else if bool_decide (is_Some (re_search false MIXED_RE w)) then true
  else existsb (λ ch, (127 <? ch)%N) w.

Definition count_suspicious (words : list str) : nat :=
  foldl (λ suspicious w, if is_suspicious w then S suspicious else suspicious) 0%nat words.

Definition _ocr_error_heuristic (words : list str) : option Q :=
  py_div (Qnat (count_suspicious words)) (Qnat (Nat.max (length words) 1)).

Definition sum_list (l : list nat) : nat := foldr Nat.add 0%nat l.

Definition _compute_metrics (text : str) : option metrics :=
  let words := _tokenise text in
  let word_count := length words in
  let sentences := re_split false _SENTENCE_BOUNDARY text in
  let sentences := List.filter (λ s, bool_decide (strip s ≠ [])) sentences in
  let sentence_count := length sentences in
  let char_count := length text in
  avg_word_length ←
    (if (word_count =? 0)%nat then Some 0%Q
     else py_div (Qnat (sum_list (length <$> words))) (Qnat word_count));
  let punctuation_count := length (List.filter is_punctuation text) in
  punctuation_frequency ← py_div (Qnat punctuation_count) (Qnat (Nat.max char_count 1));
  lexical_diversity ← py_div (Qnat (distinct_count words)) (Qnat (Nat.max word_count 1));
  ocr_error_rate ← _ocr_error_heuristic words;
  Some (Metrics word_count sentence_count char_count avg_word_length
                punctuation_frequency lexical_diversity ocr_error_rate).

(** [metrics["word_count"] * (1 - metrics["ocr_error_rate"])]: the int 1
    and the word count are converted to floats, and the difference and the
    product are rounded. *)
Definition _quality_score (m : metrics) : Q :=
  fl (fl (Qnat (word_count m)) * fl (1 - fl (ocr_error_rate m))).

Definition normalise_method (raw_method : str) : str :=
  if startswith raw_method (py "pymupdf") then PYMUPDF
  else if startswith raw_method (py "tesseract") then TESSERACT
  else FROM_CSV.

(** The loop of [_gather_files]; [groups] is a [defaultdict(dict)]. *)
Definition gather_file (groups : PyDict.dict str (PyDict.dict str file)) (f : file)
    : PyDict.dict str (PyDict.dict str file) :=
  match re_match true _PATTERN (f_name f) with
  | None => groups
  | Some m =>
      let prefix := lower (group m 1) in
      let method := normalise_method (lower (group m 2)) in
      PyDict.set prefix (PyDict.set method f (default [] (PyDict.get prefix groups))) groups
  end.

Definition _gather_files (files : list file) : PyDict.dict str (PyDict.dict str file) :=
  foldl gather_file [] files.

(** One row of extraction_comparison_summary.csv; the metric columns hold
    the values of the methods present, in [_METHOD_ORDER], before they are
    rounded for printing. *)
Record row := Row {
  r_source_id : str;
  r_metrics : list metrics;
  r_recommended_file : str
}.

(** The election of [compare_folder]: [max] over the (method, score) pairs
    in the order of [metrics_by_method]. *)
Definition best_method (metrics_by_method : PyDict.dict str metrics) : option str :=
  fst <$> py_max_by snd ((λ mm, (fst mm, _quality_score (snd mm))) <$> metrics_by_method).

Definition process_group (source_id : str) (files_by_method : PyDict.dict str file)
    : option row :=
  metrics_by_method ←
    mapM (λ mf, (λ ms, (fst mf, ms)) <$> _compute_metrics (f_text (snd mf))) files_by_method;
  let cols := omap (λ m, PyDict.get m metrics_by_method) _METHOD_ORDER in
  best ← best_method metrics_by_method;
  f ← PyDict.get best files_by_method;
  Some (Row source_id cols (f_name f)).

Inductive outcome :=
| FileNotFoundError
| OtherError
| Written (rows : list row).

(** [files] is what [folder.glob("*.txt")] yields; reading uses
    [errors="replace"] and so returns a text for every file. *)
Definition compare_folder (files : list file) : outcome :=
  match _gather_files files with
  | [] => FileNotFoundError
  | groups =>
      match mapM (λ gm, process_group (fst gm) (snd gm)) (sorted_items groups) with
      | Some rows => Written rows
      | None => OtherError
      end
  end.

End WithUnicode.
End ArchiveComparison.

(** ** text_file_recommendation.py *)

Module Recommendation.
Import Py.

(** A row of the summary read back: the columns [group] and
    [recommendation]. *)
Record summary_row := SummaryRow { base_name : str; recommended_method : str }.

Section Selection.
(** The names of the files in [input_dir] ([Path.exists]). *)
Variable input_dir : gset str.

Definition exists_in_input (name : str) : bool := bool_decide (name ∈ input_dir).

(** The body of the loop: the file selected for copying, or [None] when the
    row is skipped. *)
Definition select_file (row : summary_row) : option str :=
  let csv_filename := base_name row ++ py "_from_csv.txt" in
  if exists_in_input csv_filename then Some csv_filename
  else
    let recommended_filename :=
      base_name row ++ py "_" ++ recommended_method row ++ py "_extraction.txt" in
    if exists_in_input recommended_filename then Some recommended_filename
    else None.

(** The names copied to the output directory, in order. *)
Definition copied (rows : list summary_row) : list str := omap select_file rows.

End Selection.
End Recommendation.

(** ** 7_archive/b_text_cleaning.py: class TextCleaner *)

Module TextCleaning.
Import Py Re PyNum.

Definition TAB : char := 9%N.
Definition SPACE : char := 32%N.
Definition DQUOTE : char := 34%N.
Definition SQUOTE : char := 39%N.
Definition BACKSLASH : char := 92%N.
Definition EN_DASH : char := 8211%N.   (* U+2013 *)
Definition EM_DASH : char := 8212%N.   (* U+2014 *)

(** [string.punctuation] *)
Definition is_punctuation (c : char) : bool :=
  in_range 33 47 c || in_range 58 64 c || in_range 91 96 c || in_range 123 126 c.

Definition letter : regex := cls [rng "a" "z"; rng "A" "Z"].
Definition host_char : regex := cls [rng "a" "z"; rng "A" "Z"; rng "0" "9"; ch "."; ch "-"].
Definition digit : regex := cls [IDigit].
Definition space : regex := cls [ISpace].
Definition word_char : regex := cls [IWord].

(** self.noise_patterns *)
Definition noise_patterns : list regex :=
  [ (* [•·∙◦▪▫■□▲▼►◄] *)
    cls (ILit <$> [8226; 183; 8729; 9702; 9642; 9643; 9632; 9633; 9650; 9660; 9658; 9668]%N);
    (* www\.[a-zA-Z0-9.-]+\.[a-zA-Z]{2,} *)
    seqs [lit "www."; plus host_char; lit "."; at_least 2 letter];
    (* https?://[a-zA-Z0-9.-]+\.[a-zA-Z]{2,}[/\w.-]* *)
    seqs [lit "http"; opt (lit "s"); lit "://"; plus host_char; lit "."; at_least 2 letter;
          star (cls [ch "/"; IWord; ch "."; ch "-"])];
    (* @\s*\\?[a-zA-Z]+\s*[Ll]eave *)
    seqs [lit "@"; star space; opt (lit1 BACKSLASH); plus letter; star space;
          cls [ch "L"; ch "l"]; lit "eave"];
    lit "HM Government";
    (* EUReferendum\.gov\.uk *)
    lit "EUReferendum.gov.uk";
    (* voteleavetakecontrol\.org *)
    lit "voteleavetakecontrol.org";
    (* \$+_+\$* *)
    seqs [plus (lit "$"); plus (lit "_"); star (lit "$")];
    (* —+ *)
    plus (lit1 EM_DASH);
    (* =+ *)
    plus (lit "=");
    (* [^\S\n]{5,} *)
    at_least 5 (ncls [INotSpace; ILit NL]);
    (* \.{4,} *)
    at_least 4 (lit ".");
    (* -{4,} *)
    at_least 4 (lit "-");
    (* _{4,} *)
    at_least 4 (lit "_") ].

(** self.term_fixes, in the order of the dictionary.  A key is used as a
    pattern: its space stands for one space character. *)
Definition term_fixes : list (string * string) :=
  [ ("E U", "EU"); ("U K", "UK"); ("N H S", "NHS"); ("G D P", "GDP"); ("V A T", "VAT");
    ("M P", "MP"); ("U N", "UN"); ("N A T O", "NATO"); ("E E A", "EEA"); ("U S", "US");
    ("ls", "is"); ("lf", "If"); ("ln", "In") ]%string.

(** The key that the two lines of the source written with three apostrophes
    denote: a triple-quoted string running from the first of these lines to
    the second. *)
Definition TRIPLE_QUOTED_KEY : str :=
  py ": " ++ [DQUOTE; SQUOTE; DQUOTE] ++ py ",  # Smart quotes" ++ [NL] ++ repeat SPACE 12.

(** self.ocr_char_replacements, in the order of the dictionary. *)
Definition ocr_char_replacements : list (str * str) :=
  [ (py "|", py "I");
    (py "0", py "O");
    (py "1", py "l");
    ([65281%N], py "!");     (* U+FF01 *)
    ([65311%N], py "?");     (* U+FF1F *)
    ([65292%N], py ",");     (* U+FF0C *)
    ([12290%N], py ".");     (* U+3002 *)
    (TRIPLE_QUOTED_KEY, [SQUOTE]);
    ([DQUOTE], [DQUOTE]);
    ([EN_DASH], py "-");
    ([EM_DASH], py "-") ].

Definition invisible_chars : list char := [8203; 8204; 8205; 65279; 8288]%N.

Section WithUnicode.
Context `{UD : UnicodeData}.

Definition sub_tpl (ic : bool) (r : regex) (tpl : list tpiece) (text : str) : str :=
  re_sub ic r (expand tpl) text.

Definition sub_str (ic : bool) (r : regex) (repl : string) (text : str) : str :=
  re_sub ic r (λ _, py repl) text.

Definition normalize_unicode (text : str) : str :=
  let text := nfkc text in
  let text := foldl (λ text char, replace [char] [] text) text invisible_chars in
  List.filter (λ char, has_char char [NL; TAB] || negb (category_C char)) text.

Definition word (w : string) : regex := seqs [RWordB; lit w; RWordB].

Definition fix_ocr_character_errors (text : str) : str :=
  let text := foldl (λ text wr, replace (fst wr) (snd wr) text) text ocr_char_replacements in
  let text := sub_str true (word "1ike") "like" text in
  let text := sub_str true (word "1ive") "live" text in
  let text := sub_str true (word "1ater") "later" text in
  let text := sub_str true (word "1ess") "less" text in
  (* (^|\. )l\b *)
  let text := sub_tpl false (seqs [RGroup 1 (RAlt RBol (lit ". ")); lit "l"; RWordB])
                      [TGroup 1; TLit (py "I")] text in
  let text := sub_str false (word "ls") "is" text in
  let text := sub_str false (word "lf") "If" text in
  let text := sub_str false (word "ln") "In" text in
  let text := sub_str false (word "lt") "It" text in
  let text := sub_str false (word "ls") "is" text in
  text.

Definition remove_noise_patterns (text : str) : str :=
  foldl (λ text pattern, re_sub true pattern (λ _, []) text) text noise_patterns.

Definition fix_fragmented_text (text : str) : str :=
  let text := foldl (λ text ff, sub_str true (word (fst ff)) (snd ff) text) text term_fixes in
  (* \b([a-zA-Z])\s+([a-zA-Z])\s+([a-zA-Z])\b *)
  let text := sub_tpl false
                (seqs [RWordB; RGroup 1 letter; plus space; RGroup 2 letter; plus space;
                       RGroup 3 letter; RWordB])
                [TGroup 1; TGroup 2; TGroup 3] text in
  (* \b(\d)\s+(\d)\s+(\d)\b *)
  let text := sub_tpl false
                (seqs [RWordB; RGroup 1 digit; plus space; RGroup 2 digit; plus space;
                       RGroup 3 digit; RWordB])
                [TGroup 1; TGroup 2; TGroup 3] text in
  (* \b(\d)\s+(\d)\b *)
  let text := sub_tpl false
                (seqs [RWordB; RGroup 1 digit; plus space; RGroup 2 digit; RWordB])
                [TGroup 1; TGroup 2] text in
  text.

Definition terminal : regex := cls [ch "."; ch ","; ch ";"; ch ":"; ch "!"; ch "?"].

Definition fix_punctuation_spacing (text : str) : str :=
  (* \s+([.,;:!?]) *)
  let text := sub_tpl false (seqs [plus space; RGroup 1 terminal]) [TGroup 1] text in
  (* ([.,;:!?])(?=[A-Za-z]) *)
  let text := sub_tpl false (seqs [RGroup 1 terminal; RLookahead (cls [rng "A" "Z"; rng "a" "z"])])
                      [TGroup 1; TLit (py " ")] text in
  (* (\d)\s+\.\s+(\d) *)
  let text := sub_tpl false
                (seqs [RGroup 1 digit; plus space; lit "."; plus space; RGroup 2 digit])
                [TGroup 1; TLit (py "."); TGroup 2] text in
  let text := re_sub false (seqs [plus space; lit1 DQUOTE]) (λ _, [SPACE; DQUOTE]) text in
  let text := re_sub false (seqs [lit1 DQUOTE; plus space]) (λ _, [DQUOTE; SPACE]) text in
  let text := re_sub false (seqs [plus space; lit1 SQUOTE]) (λ _, [SPACE; SQUOTE]) text in
  let text := re_sub false (seqs [lit1 SQUOTE; plus space]) (λ _, [SQUOTE; SPACE]) text in
  text.

(** r'\n\s*\n\s*\n+' *)
Definition PARAGRAPH_BREAKS : regex :=
  seqs [lit1 NL; star space; lit1 NL; star space; plus (lit1 NL)].

(** [s[-1]] of a non-empty string *)
Definition last_char (s : str) : option char := last s.

(** The loop of [normalize_spacing] over [enumerate(lines)]; [rest] holds
    [lines[i+1:]]. *)
Fixpoint join_marks (lines : list str) : list str :=
  match lines with
  | [] => []
  | raw :: rest =>
      let line := strip raw in
      (match line with
       | [] => []
       | _ =>
           match rest, last_char line with
           | next :: _, Some e =>
               if negb (has_char e (py ".!?:;" ++ [DQUOTE; SQUOTE]))
                  && match strip next with
                     | c :: _ => islower1 c
                     | [] => false
                     end
               then line ++ [SPACE]
               else line
           | _, _ => line
           end
       end) :: join_marks rest
  end.

Definition normalize_spacing (text : str) : str :=
  let text := sub_str false (plus (lit " ")) " " text in
  let text := replace [TAB] [SPACE] text in
  let text := re_sub false PARAGRAPH_BREAKS (λ _, [NL; NL]) text in
  join [NL] (join_marks (split_on [NL] text)).

(** The first loop of [remove_header_footer_repetition]. *)
Definition count_line (line_counts : gmap str nat) (line : str) : gmap str nat :=
  let clean_line := lower (strip line) in
  if (10 <? length clean_line)%nat
  then <[clean_line := (default 0 (line_counts !! clean_line) + 1)%nat]> line_counts
  else line_counts.

(** Its second loop: the lines kept so far and [seen_repetitive]. *)
Definition filter_line (line_counts : gmap str nat) (acc : list str * gset str)
    (line : str) : list str * gset str :=
  let '(filtered_lines, seen_repetitive) := acc in
  let clean_line := lower (strip line) in
  if (2 <? default 0 (line_counts !! clean_line))%nat
     && negb (bool_decide (clean_line ∈ seen_repetitive))
     && (10 <? length clean_line)%nat
  then (filtered_lines, {[clean_line]} ∪ seen_repetitive)
  else if bool_decide (clean_line ∈ seen_repetitive)
  then (filtered_lines, seen_repetitive)
  else (filtered_lines ++ [line], seen_repetitive).

Definition remove_header_footer_repetition (text : str) : str :=
  let lines := split_on [NL] text in
  let line_counts := foldl count_line ∅ lines in
  let '(filtered_lines, _) := foldl (filter_line line_counts) ([], ∅) lines in
  join [NL] filtered_lines.

(** The loop over the lines of one paragraph in [fix_broken_sentences]:
    the sentences finished so far and [current_sentence]. *)
Definition add_line (acc : list str * str) (raw : str) : list str * str :=
  let '(fixed_lines, current_sentence) := acc in
  let line := strip raw in
  match line with
  | [] => acc
  | c :: _ =>
      match last_char current_sentence with
      | Some e =>
          if negb (has_char e (py ".!?:")) && islower1 c
          then (fixed_lines, current_sentence ++ [SPACE] ++ line)
          else (fixed_lines ++ [current_sentence], line)
      | None => (fixed_lines, line)
      end
  end.

Definition fix_paragraph (paragraph : str) : list str :=
  match strip paragraph with
  | [] => []
  | _ =>
      let '(fixed_lines, current_sentence) :=
        foldl add_line ([], []) (split_on [NL] paragraph) in
      let fixed_lines :=
        match current_sentence with
        | [] => fixed_lines
        | _ => fixed_lines ++ [current_sentence]
        end in
      match fixed_lines with
      | [] => []
      | _ => [join [NL] fixed_lines]
      end
  end.

Definition fix_broken_sentences (text : str) : str :=
  join [NL; NL] (split_on [NL; NL] text ≫= fix_paragraph).

Definition short_keep : list str :=
  [py "UK"; py "EU"; py "US"; py "UN"; py "MP"; py "PM"].

(** r'^-?\s*\d{1,3}\s*-?$' *)
Definition PAGE_NUMBER : regex :=
  seqs [RBol; opt (lit "-"); star space; between 1 3 digit; star space; opt (lit "-"); REol].

(** Whether [remove_isolated_characters] keeps the (stripped) line. *)
Definition keep_isolated (line : str) : bool :=
  if (length line <=? 2)%nat && negb (isdigit line) && negb (bool_decide (line ∈ short_keep))
  then false
  else if (0 <? length line)%nat
          && Qlt_bool (7 # 10)
               (Qnat (length (List.filter is_punctuation line)) / Qnat (length line))
  then false
  else if bool_decide (is_Some (re_match false PAGE_NUMBER line))
  then false
  else true.

Definition remove_isolated_characters (text : str) : str :=
  join [NL] (List.filter keep_isolated (strip <$> split_on [NL] text)).

Definition fix_word_breaks (text : str) : str :=
  (* (\w+)-\s*\n\s*(\w+) *)
  let text := sub_tpl false
                (seqs [RGroup 1 (plus word_char); lit "-"; star space; lit1 NL; star space;
                       RGroup 2 (plus word_char)])
                [TGroup 1; TGroup 2] text in
  (* (\w+)-(\w+) *)
  let text := re_sub false
                (seqs [RGroup 1 (plus word_char); lit "-"; RGroup 2 (plus word_char)])
                (λ m, if (2 <? length (group m 1))%nat && (2 <? length (group m 2))%nat
                      then group m 0
                      else group m 1 ++ group m 2) text in
  text.

(** r'^[\s._-]*$' *)
Definition BLANK_LINE : regex :=
  seqs [RBol; star (cls [ISpace; ch "."; ch "_"; ch "-"]); REol].

Definition keep_nonblank (line : str) : bool :=
  if bool_decide (is_Some (re_match false BLANK_LINE line)) then false
  else if (5 <? length line)%nat && (distinct_count (strip line) <=? 2)%nat then false
  else true.

Definition remove_excessive_whitespace_lines (text : str) : str :=
  join [NL] (List.filter keep_nonblank (split_on [NL] text)).

Definition clean_text (text : str) : str :=
  let text := normalize_unicode text in
  let text := fix_ocr_character_errors text in
  let text := remove_noise_patterns text in
  let text := fix_fragmented_text text in
  let text := fix_punctuation_spacing text in
  let text := remove_isolated_characters text in
  let text := fix_word_breaks text in
  let text := remove_excessive_whitespace_lines text in
  let text := remove_header_footer_repetition text in
  let text := fix_broken_sentences text in
  let text := normalize_spacing text in
  let text := re_sub false PARAGRAPH_BREAKS (λ _, [NL; NL]) text in
  strip text.

End WithUnicode.
End TextCleaning.

(** ** 7_archive/c_text_cleaning_comparison.py *)

Module CleaningComparison.
Import Py Re.

(** What [compare_extraction_methods] prints as its recommendation. *)
Inductive recommendation :=
| PyMuPDF_cleaner      (* "PyMuPDF extraction appears cleaner" *)
| Tesseract_cleaner    (* "Tesseract extraction appears cleaner" *)
| Manual_review.       (* "Manual review needed - results are mixed" *)




Section WithUnicode.
Context `{UD : UnicodeData}.




End WithUnicode.
End CleaningComparison.

(** An instance of the interface that knows no letters, digits or control
    characters above code point 127 and leaves such text unchanged.  On
    ASCII text every instance computes the same. *)
Definition ascii_only : Py.UnicodeData := {|
  Py.ud_isalnum _ := false;
  Py.ud_isdecimal _ := false;
  Py.ud_isdigit _ := false;
  Py.ud_islower _ := false;
  Py.ud_lower s := s;
  Py.ud_case_variants c := [c];
  Py.ud_nfkc s := s;
  Py.ud_category_C _ := false
|}.

(** * Properties *)

(** ** Notions used in the statements *)

Import Py Re PyNum.

(** [st'] lies further right in the subject of [st]. *)
Definition extends (st st' : mstate) : Prop :=
  ∃ w, m_suf st = w ++ m_suf st' ∧ m_pre st' = rev w ++ m_pre st.

(** A ratio in the closed interval from 0 to 1. *)
Definition in_unit (q : Q) : Prop := (0 <= q)%Q ∧ (q <= 1)%Q.

(** The suspicious-word test in the words of the specification: the word
    contains the replacement character, or both a letter and a digit, or a
    character outside ASCII.  [letter] and [digit] say which characters
    count as letters and digits. *)
Definition spec_suspicious (letter digit : char → bool) (w : str) : bool :=
  has_char ArchiveComparison.REPLACEMENT_CHARACTER w
  || (existsb letter w && existsb digit w)
  || existsb (λ c, negb (is_ascii c)) w.

(** The fraction of the whitespace-separated words that are suspicious,
    over a denominator floored at 1. *)
Definition spec_ocr_error_rate (letter digit : char → bool) (text : str) : Q :=
  (Qnat (length (List.filter (spec_suspicious letter digit) (split text)))
   / Qnat (Nat.max (length (split text)) 1))%Q.

(** The metrics of a candidate of which only the word count and the
    ocr_error_rate are given. *)
Definition candidate_metrics (words : nat) (error_rate : Q) : ArchiveComparison.metrics :=
  ArchiveComparison.Metrics words 0 0 0 0 0 error_rate.

(** The three candidates of the end-to-end scenario of the specification. *)
Definition scenario_candidates : PyDict.dict str ArchiveComparison.metrics :=
  [ (ArchiveComparison.FROM_CSV, candidate_metrics 500 0);
    (ArchiveComparison.PYMUPDF, candidate_metrics 480 (2 # 100));
    (ArchiveComparison.TESSERACT, candidate_metrics 300 (25 # 100)) ].

(** word_count × (1 − ocr_error_rate) with the measures of
    text_comparison.py. *)
Definition live_quality `{UD : UnicodeData} (text : str) : option Q :=
  rate ← TextComparison.ocr_error_rate text;
  Some (Qnat (TextComparison.word_count text) * (1 - rate))%Q.

(** A native rendering of one word, and an optical one of a hyphen and a
    word of 120 letters. *)
Definition native_hello : file :=
  File (py "2020-01-partyx_pymupdf_extraction.txt") (py "hello").

Definition optical_long_word : file :=
  File (py "2020-01-partyx_tesseract_extraction.txt") (py "- " ++ repeat (chr "x") 120).

(** The bytes of the file are valid UTF-8. *)
Definition utf8 (f : file) : bool :=
  match f_contents f with Text _ => true | Malformed _ => false end.


(** A file with the four bytes 63 61 66 E9, the word café in Latin-1: the
    last byte is not valid UTF-8 and is read as U+FFFD with
    [errors="replace"]. *)
Definition latin1_file : file :=
  MkFile (py "2019-12-labour_from_csv.txt")
         (Malformed (py "caf" ++ [ArchiveComparison.REPLACEMENT_CHARACTER])).

(** The five metric lists have an entry for each of [n] methods. *)
Definition complete_for (n : nat) (md : TextComparison.metrics_dict) : Prop :=
  length (TextComparison.word_counts md) = n
  ∧ length (TextComparison.char_counts md) = n
  ∧ length (TextComparison.ocr_error_rates md) = n
  ∧ length (TextComparison.avg_word_lengths md) = n
  ∧ length (TextComparison.punctuation_freqs md) = n.

(** The scores of the methods that have one, in the order of the methods,
    starting with the method of index [i]. *)
Fixpoint available_scores (md : TextComparison.metrics_dict) (i : nat)
    (methods : list str) : PyDict.dict str Q :=
  match methods with
  | [] => []
  | method :: rest =>
      match TextComparison.method_score md i with
      | Some (Some q) => [(method, q)]
      | _ => []
      end ++ available_scores md (S i) rest
  end.


(** The group key and the method for which a file is filed by the grouping
    loop of text_comparison.py. *)
Definition slot_of `{UD : UnicodeData} (f : file) : option (str * str) :=
  match TextComparison.extract_group_key (f_name f) with
  | Some (c :: k) =>
      match TextComparison.method_of_name (f_name f) with
      | Some method => Some (c :: k, method)
      | None => None
      end
  | _ => None
  end.


(** The file found under a key and a method after grouping. *)
Definition lookup2 (grouped : TextComparison.grouped_dict) (key method : str) : option file :=
  PyDict.get key grouped ≫= PyDict.get method.


(** Metric lists in which the structured and the native rendering tie and
    the optical one scores less: only the word counts are present. *)
Definition tie_metrics : TextComparison.metrics_dict :=
  TextComparison.MetricsDict [Some (Int 100); Some (Int 100); Some (Int 90)]
    [None; None; None] [None; None; None] [None; None; None] [None; None; None].

(** The lists of a row, as they were handed to
    [calculate_recommendation]. *)
Definition metrics_of (row : TextComparison.row) : TextComparison.metrics_dict :=
  TextComparison.MetricsDict (TextComparison.r_word_counts row)
    (TextComparison.r_char_counts row) (TextComparison.r_ocr_error_rates row)
    (TextComparison.r_avg_word_lengths row) (TextComparison.r_punctuation_freqs row).



(** A structured rendering, a second file that the grouping loop of
    text_comparison.py files under the same key and method, and a native
    rendering. *)
Definition structured : file := File (py "2019-12-labour_from_csv.txt") (py "hello world").


Definition native : file := File (py "2019-12-labour_pymupdf_extraction.txt") (py "hello").

(** Two renderings of twelve characters whose scores are equal as
    rationals, −78266/375, and differ once every operation is rounded. *)
Definition near_tie_structured : file :=
  File (py "2019-12-labour_from_csv.txt") (py "a . !       ").

Definition near_tie_optical : file :=
  File (py "2019-12-labour_tesseract_extraction.txt") (py "a a aa      ").

(** A pattern without capturing groups. *)
Fixpoint no_groups (r : regex) : bool :=
  match r with
  | RSeq r1 r2 | RAlt r1 r2 => no_groups r1 && no_groups r2
  | RRep _ _ _ r' | RLookahead r' => no_groups r'
  | RGroup _ _ => false
  | _ => true
  end.

(** The method suffixes that the filename patterns recognize. *)
Definition recognized_suffixes : list str :=
  [py "_tesseract_extraction"; py "_pymupdf_extraction"; py "_from_csv"].

Definition has_recognized_suffix (name : str) : bool :=
  existsb (λ suffix, contains suffix name) recognized_suffixes.

(** The same up to the case of the letters, as re.IGNORECASE compares
    characters. *)
Fixpoint prefix_by (R : char → char → bool) (p s : str) : bool :=
  match p, s with
  | [], _ => true
  | a :: p', b :: s' => R a b && prefix_by R p' s'
  | _ :: _, [] => false
  end.

Fixpoint contains_by (R : char → char → bool) (sub s : str) : bool :=
  prefix_by R sub s ||
  match s with
  | [] => false
  | _ :: s' => contains_by R sub s'
  end.

Definition same_ignoring_case `{UD : UnicodeData} (p x : char) : bool :=
  item_match_ci (ILit p) x.

Definition has_recognized_suffix_ci `{UD : UnicodeData} (name : str) : bool :=
  existsb (λ suffix, contains_by same_ignoring_case suffix name) recognized_suffixes.

(** The two filenames of the grouping scenario of the specification. *)
Definition tesseract_file (text : str) : file :=
  File (py "2019-12-liberal_democrats_tesseract_extraction.txt") text.
Definition from_csv_file (text : str) : file :=
  File (py "2019-12-liberal_democrats_from_csv.txt") text.

(** The document key under which the archived script files a file. *)
Definition archive_key `{UD : UnicodeData} (f : file) : option str :=
  (λ m, lower (group m 1)) <$> re_match true ArchiveComparison._PATTERN (f_name f).

(** A group holds at least one method and each method once. *)
Definition proper_group (methods : PyDict.dict str file) : Prop :=
  methods ≠ [] ∧ NoDup (PyDict.keys methods).

(** The normalized form of a line: trimmed and lower-cased. *)
Definition normal_line `{UD : UnicodeData} (line : str) : str := lower (strip line).

(** How many of the lines have the normalized form [n]. *)
Definition occurrences `{UD : UnicodeData} (n : str) (lines : list str) : nat :=
  length (List.filter (λ line, bool_decide (normal_line line = n)) lines).

(** Boilerplate in the words of the specification: the normalized form of
    the line is longer than 10 characters and occurs more than twice in the
    document. *)
Definition is_boilerplate `{UD : UnicodeData} (lines : list str) (line : str) : bool :=
  (10 <? length (normal_line line))%nat && (2 <? occurrences (normal_line line) lines)%nat.

(** A document in which the line HM Government appears four times. *)
Definition government_document : str :=
  join [NL]
    [ py "HM Government"; py "We will cut tax."; py "HM Government";
      py "We will build homes."; py "  hm government "; py "Thank you."; py "HM Government" ].

(** Every character of the subject after a position and of the groups
    captured so far has the property [P]. *)
Definition state_all (P : char → Prop) (st : mstate) : Prop :=
  Forall P (m_suf st) ∧ Forall (λ g, Forall P (snd g)) (m_groups st).

Definition match_all (P : char → Prop) (m : match_obj) : Prop :=
  state_all P (mo_start m) ∧ state_all P (mo_end m).

(** Neither the digit 0 nor the digit 1. *)
Definition not_0_or_1 (c : char) : Prop := c ≠ chr "0" ∧ c ≠ chr "1".





(** Keys in strictly ascending order. *)
Fixpoint ascending (keys : list str) : Prop :=
  match keys with
  | [] => True
  | k :: rest => Forall (λ k', ArchiveComparison.str_ltb k k' = true) rest ∧ ascending rest
  end.

(** What [_gather_files] keeps of a folder: under a source id, files of
    the folder whose names give that id, each under one of the three
    methods. *)
Definition gathered_from `{UD : UnicodeData} (files : list file)
    (gm : str * PyDict.dict str file) : Prop :=
  Forall (λ mf, fst mf ∈ ArchiveComparison._METHOD_ORDER
                ∧ snd mf ∈ files ∧ archive_key (snd mf) = Some (fst gm)) (snd gm).

(** The characters that the stages after the character substitution put
    into a text: letters, the space, the line feed, the two quotes and the
    full stop. *)
Definition later_literal (c : char) : bool :=
  ascii_letter c
  || has_char c [TextCleaning.SPACE; NL; TextCleaning.DQUOTE; TextCleaning.SQUOTE; chr "."].

(** The characters that the character substitution puts into a text. *)
Definition substitution_literal (c : char) : bool :=
  ascii_letter c || has_char c (py "!?,.-" ++ [TextCleaning.SQUOTE; TextCleaning.DQUOTE]).

(** The one-character keys of the replacement table whose value is another
    character. *)
Definition replaced_characters : list char :=
  [chr "|"; chr "0"; chr "1"; 65281; 65311; 65292; 12290;
   TextCleaning.EN_DASH; TextCleaning.EM_DASH]%N.

(** What follows the key in a name that text_comparison.py groups. *)
Definition GROUP_KEY_TAIL : regex :=
  seqs [ lit "_";
         RGroup 2 (alts (lit "tesseract_extraction")
                        [lit "pymupdf_extraction"; lit "from_csv"]);
         opt (lit "_cleaned"); lit ".txt" ].

(** The text whose lines [normalize_spacing] goes through: runs of spaces
    collapsed, tabs replaced and blank lines reduced. *)
Definition spaced `{UD : UnicodeData} (text : str) : str :=
  re_sub false TextCleaning.PARAGRAPH_BREAKS (λ _, [NL; NL])
    (replace [TextCleaning.TAB] [TextCleaning.SPACE]
       (TextCleaning.sub_str false (plus (lit " ")) " " text)).

(** A line as [fix_broken_sentences] leaves it: not empty, trimmed and
    without a line feed. *)
Definition sentence_line (l : str) : Prop := l ≠ [] ∧ strip l = l ∧ NL ∉ l.

Definition starts_lower `{UD : UnicodeData} (l : str) : Prop :=
  ∃ c, head l = Some c ∧ islower1 c = true.

(** The line ends in one of [.!?:]. *)
Definition ends_sentence (l : str) : Prop :=
  ∃ e, last l = Some e ∧ has_char e (py ".!?:") = true.

(** A line that starts in lower case follows a line that ends a sentence. *)
Fixpoint well_broken `{UD : UnicodeData} (lines : list str) : Prop :=
  match lines with
  | x :: rest =>
      match rest with
      | y :: _ => (starts_lower y → ends_sentence x) ∧ well_broken rest
      | [] => True
      end
  | [] => True
  end.

(** What the loop over the lines of a paragraph keeps: the finished
    sentences and the current one are sentence lines in which a lower-case
    start follows an end of sentence. *)
Definition sentences_so_far `{UD : UnicodeData} (acc : list str * str) : Prop :=
  match snd acc with
  | [] => fst acc = []
  | _ => Forall sentence_line (fst acc ++ [snd acc]) ∧ well_broken (fst acc ++ [snd acc])
  end.

(** ** Facts about the matcher *)

Section EngineFacts.
Context `{UD : UnicodeData}.

Lemma elem_of_step_char p st st' :
  st' ∈ step_char p st ↔
  ∃ c rest, m_suf st = c :: rest ∧ p c = true ∧ st' = MState (c :: m_pre st) rest (m_groups st).
Proof.
  unfold step_char. destruct (m_suf st) as [|c rest].
  - split; [by intros ?%elem_of_nil | by intros (c & rest & ? & _)].
  - destruct (p c) eqn:Hp.
    + rewrite list_elem_of_singleton. split.
      * intros ->. eauto.
      * intros (c' & rest' & [= <- <-] & _ & ->). done.
    + split; [by intros ?%elem_of_nil|].
      intros (c' & rest' & [= <- <-] & Hp' & _). congruence.
Qed.

Lemma elem_of_guard b st st' : st' ∈ guard b st ↔ b = true ∧ st' = st.
Proof.
  unfold guard. destruct b.
  - rewrite list_elem_of_singleton. naive_solver.
  - split; [by intros ?%elem_of_nil | naive_solver].
Qed.

(** A property of the positions reached by matching that holds for one
    character step and for recording a group, and is closed under
    composition, holds for every match of every pattern. *)
Section Reach.
Variable R : mstate → mstate → Prop.
Hypothesis R_refl : ∀ st, R st st.
Hypothesis R_trans : ∀ a b c, R a b → R b c → R a c.
Hypothesis R_step : ∀ st c rest,
  m_suf st = c :: rest → R st (MState (c :: m_pre st) rest (m_groups st)).
Hypothesis R_group : ∀ i st st', R st st' → R st (set_group i st st').

Lemma rep_loop_reach body :
  (∀ st st', st' ∈ body st → R st st') →
  ∀ fuel greedy lo hi st st', st' ∈ rep_loop body greedy lo hi fuel st → R st st'.
Proof.
  intros Hbody. induction fuel as [|fuel IH]; intros greedy lo hi st st' Hin; simpl in Hin.
  - inversion Hin.
  - assert (Hagain : ∀ l, l = (body st ≫= λ st1,
               if advanced st st1
               then rep_loop body greedy (Nat.pred lo) (pred_opt hi) fuel st1 else []) →
             st' ∈ l → R st st').
    { intros l -> (st1 & Hin1 & Hst1)%list_elem_of_bind.
      destruct (advanced st st1); [|inversion Hin1].
      eapply R_trans; [by apply Hbody | by eapply IH]. }
    assert (Hag : st' ∈ match hi with
             | Some 0 => []
             | _ => body st ≫= λ st1,
               if advanced st st1
               then rep_loop body greedy (Nat.pred lo) (pred_opt hi) fuel st1 else []
             end → R st st').
    { destruct hi as [[|n]|]; [intros H; inversion H | |]; by apply Hagain. }
    destruct lo as [|lo]; [|by apply Hag].
    destruct greedy.
    + apply elem_of_app in Hin as [Hin|Hin]; [by apply Hag|].
      apply list_elem_of_singleton in Hin as ->. apply R_refl.
    + apply elem_of_cons in Hin as [->|Hin]; [apply R_refl | by apply Hag].
Qed.

Lemma rmatch_reach ic r : ∀ st st', st' ∈ rmatch ic r st → R st st'.
Proof.
  induction r as [| neg items | | r1 IH1 r2 IH2 | r1 IH1 r2 IH2 | g lo hi r IH | i r IH
                 | | | | r IH]; intros st st' Hin; cbn [rmatch] in Hin.
  - apply elem_of_step_char in Hin as (c & rest & Hs & _ & ->). by apply R_step.
  - apply elem_of_step_char in Hin as (c & rest & Hs & _ & ->). by apply R_step.
  - apply list_elem_of_singleton in Hin as ->. apply R_refl.
  - apply list_elem_of_bind in Hin as (st1 & Hin2 & Hin1).
    eapply R_trans; [by apply IH1 | by apply IH2].
  - apply elem_of_app in Hin as [Hin|Hin]; eauto.
  - eapply rep_loop_reach; [apply IH | apply Hin].
  - apply list_elem_of_fmap in Hin as (st1 & -> & Hin). apply R_group. eauto.
  - apply elem_of_guard in Hin as [_ ->]. apply R_refl.
  - apply elem_of_guard in Hin as [_ ->]. apply R_refl.
  - apply elem_of_guard in Hin as [_ ->]. apply R_refl.
  - destruct (rmatch ic r st); [inversion Hin|].
    apply list_elem_of_singleton in Hin as ->. apply R_refl.
Qed.
End Reach.

Lemma extends_refl st : extends st st.
Proof. by exists []. Qed.

Lemma extends_trans a b c : extends a b → extends b c → extends a c.
Proof.
  intros (w1 & H1 & H1') (w2 & H2 & H2'). exists (w1 ++ w2).
  rewrite H1, H2, H2', H1', rev_app_distr, <- !app_assoc. done.
Qed.

Lemma rmatch_extends ic r st st' : st' ∈ rmatch ic r st → extends st st'.
Proof.
  apply rmatch_reach.
  - apply extends_refl.
  - apply extends_trans.
  - intros s c rest Hs. exists [c]. simpl. by rewrite Hs.
  - intros i s s' (w & H1 & H2). by exists w.
Qed.

Lemma extends_length st st' : extends st st' → length (m_suf st') ≤ length (m_suf st).
Proof. intros (w & -> & _). rewrite length_app. lia. Qed.

Lemma extends_consumed st st' w :
  m_suf st = w ++ m_suf st' → consumed st st' = w.
Proof.
  intros H. unfold consumed. rewrite H, length_app.
  replace (length w + length (m_suf st') - length (m_suf st')) with (length w) by lia.
  by rewrite take_app_length.
Qed.

End EngineFacts.

Section MatchFacts.
Context `{UD : UnicodeData}.

Lemma elem_of_rmatch_seq ic r1 r2 st st' :
  st' ∈ rmatch ic (RSeq r1 r2) st ↔ ∃ st1, st1 ∈ rmatch ic r1 st ∧ st' ∈ rmatch ic r2 st1.
Proof. cbn [rmatch]. rewrite list_elem_of_bind. naive_solver. Qed.

Lemma elem_of_rmatch_lit1 c st st' :
  st' ∈ rmatch false (lit1 c) st ↔
  m_suf st = c :: m_suf st' ∧ m_pre st' = c :: m_pre st ∧ m_groups st' = m_groups st.
Proof.
  unfold lit1. cbn [rmatch]. rewrite elem_of_step_char. split.
  - intros (x & rest & Hs & Hm & ->). simpl in *.
    unfold set_match in Hm. simpl in Hm. rewrite orb_false_r in Hm.
    apply N.eqb_eq in Hm as ->. done.
  - intros (Hs & Hp & Hg). exists c, (m_suf st'). split; [done|]. split.
    + unfold set_match. simpl. by rewrite N.eqb_refl.
    + destruct st' as [p' s' g']; simpl in *. by rewrite Hp, Hg.
Qed.

Lemma elem_of_rmatch_chars s st st' :
  st' ∈ rmatch false (seqs (lit1 <$> s)) st ↔
  m_suf st = s ++ m_suf st' ∧ m_pre st' = rev s ++ m_pre st ∧ m_groups st' = m_groups st.
Proof.
  revert st. induction s as [|c s IH]; intros st.
  - simpl. rewrite list_elem_of_singleton. split.
    + by intros ->.
    + intros (? & ? & ?). destruct st, st'; simpl in *; congruence.
  - change (seqs (lit1 <$> c :: s)) with (RSeq (lit1 c) (seqs (lit1 <$> s))).
    rewrite elem_of_rmatch_seq. split.
    + intros (st1 & (H1 & H2 & H3)%elem_of_rmatch_lit1 & (H4 & H5 & H6)%IH).
      simpl. rewrite H1, H4, H5, H2, H6, H3, <- app_assoc. done.
    + intros (H1 & H2 & H3).
      exists (MState (c :: m_pre st) (s ++ m_suf st') (m_groups st)). split.
      * apply elem_of_rmatch_lit1. done.
      * apply IH. simpl. rewrite H2. simpl. rewrite <- app_assoc. done.
Qed.

Lemma elem_of_rmatch_lit w st st' :
  st' ∈ rmatch false (lit w) st ↔
  m_suf st = py w ++ m_suf st' ∧ m_pre st' = rev (py w) ++ m_pre st
  ∧ m_groups st' = m_groups st.
Proof. apply elem_of_rmatch_chars. Qed.

(** [.*] can stop after any run of characters without a newline. *)
Lemma rep_loop_any_reaches ic m : ∀ fuel pre rest g,
  NL ∉ m → length m < fuel →
  MState (rev m ++ pre) rest g ∈
    rep_loop (rmatch ic RAny) true 0 None fuel (MState pre (m ++ rest) g).
Proof.
  induction m as [|c m IH]; intros fuel pre rest g Hnl Hfuel.
  - destruct fuel; [simpl in Hfuel; lia|]. simpl. apply elem_of_app. right.
    by apply list_elem_of_singleton.
  - destruct fuel as [|fuel]; [simpl in Hfuel; lia|].
    cbn [rep_loop]. apply elem_of_app. left.
    apply list_elem_of_bind. exists (MState (c :: pre) (m ++ rest) g). split.
    + assert (advanced (MState pre ((c :: m) ++ rest) g) (MState (c :: pre) (m ++ rest) g) = true)
        as ->.
      { unfold advanced. simpl. apply Nat.ltb_lt. lia. }
      simpl. replace (rev m ++ [c]) with (rev (c :: m)) by done.
      simpl. rewrite <- app_assoc. apply IH.
      * intros ?. apply Hnl. by right.
      * simpl in Hfuel. lia.
    + cbn [rmatch]. apply elem_of_step_char. exists c, (m ++ rest). split; [done|].
      split; [|done]. apply negb_true_iff, N.eqb_neq. intros ->. apply Hnl. by left.
Qed.

Lemma star_any_reaches ic m pre rest g :
  NL ∉ m →
  MState (rev m ++ pre) rest g ∈ rmatch ic (star RAny) (MState pre (m ++ rest) g).
Proof.
  intros Hnl.
  apply (rep_loop_any_reaches ic m (S (length (m ++ rest))) pre rest g Hnl).
  rewrite length_app. lia.
Qed.

(** [re.search] finds a match exactly when the pattern matches at some
    position. *)
Lemma match_at_is_Some ic r pre suf :
  is_Some (match_at ic r false pre suf) ↔ rmatch ic r (MState pre suf []) ≠ [].
Proof.
  unfold match_at.
  assert (Hf : ∀ st (l : list mstate), filter (λ st', false = false ∨ advanced st st' = true) l = l).
  { intros st l. induction l as [|x l IHl]; [done|].
    rewrite filter_cons_True by (by left). by rewrite IHl. }
  rewrite Hf. destruct (rmatch ic r _); simpl.
  - split; [by intros [? ?] | done].
  - split; [done | eauto].
Qed.

Lemma search_go_is_Some ic r suf : ∀ pre,
  is_Some (search_go ic r pre suf) ↔
  ∃ a b, suf = a ++ b ∧ rmatch ic r (MState (rev a ++ pre) b []) ≠ [].
Proof.
  induction suf as [|c suf IH]; intros pre; cbn [search_go].
  - destruct (match_at ic r false pre []) eqn:Hm.
    + split; [|eauto]. intros _. exists [], []. split; [done|].
      apply (match_at_is_Some ic r pre []). rewrite Hm. eauto.
    + split; [by intros [? ?]|].
      intros (a & b & Hab & Hne). symmetry in Hab. apply app_eq_nil in Hab as [-> ->].
      apply (match_at_is_Some ic r pre []) in Hne. rewrite Hm in Hne. by destruct Hne.
  - destruct (match_at ic r false pre (c :: suf)) eqn:Hm.
    + split; [|eauto]. intros _. exists [], (c :: suf). split; [done|].
      apply (match_at_is_Some ic r pre (c :: suf)). rewrite Hm. eauto.
    + rewrite IH. split.
      * intros (a & b & -> & Hne). exists (c :: a), b. split; [done|].
        simpl. by rewrite <- app_assoc.
      * intros (a & b & Hab & Hne). destruct a as [|x a].
        -- simpl in Hab. subst b. apply (match_at_is_Some ic r pre (c :: suf)) in Hne.
           rewrite Hm in Hne.
           by destruct Hne.
        -- injection Hab as <- ->. exists a, b. split; [done|].
           simpl in Hne. by rewrite <- app_assoc in Hne.
Qed.

Lemma re_search_is_Some ic r s :
  is_Some (re_search ic r s) ↔
  ∃ a b, s = a ++ b ∧ rmatch ic r (MState (rev a) b []) ≠ [].
Proof.
  unfold re_search. rewrite search_go_is_Some.
  by setoid_rewrite app_nil_r.
Qed.

End MatchFacts.

(** ** Facts about numbers and strings *)

Lemma Qnat_nonneg n : (0 <= Qnat n)%Q.
Proof. unfold Qnat. replace 0%Q with (inject_Z 0) by done. rewrite <- Zle_Qle. lia. Qed.

Lemma Qnat_pos n : (0 < n)%nat → (0 < Qnat n)%Q.
Proof.
  intros H. unfold Qnat. replace 0%Q with (inject_Z 0) by done. rewrite <- Zlt_Qlt. lia.
Qed.

Lemma Qnat_le n d : (n ≤ d)%nat → (Qnat n <= Qnat d)%Q.
Proof. intros H. unfold Qnat. rewrite <- Zle_Qle. lia. Qed.

Lemma py_div_Qnat a d : (0 < d)%nat → py_div a (Qnat d) = Some (a / Qnat d)%Q.
Proof.
  intros H. unfold py_div.
  destruct (Qeq_bool (Qnat d) 0) eqn:E; [|done].
  apply Qeq_bool_iff in E. pose proof (Qnat_pos d H) as Hp.
  rewrite E in Hp. by apply Qlt_irrefl in Hp.
Qed.

Lemma py_div_floored a n :
  py_div a (Qnat (Nat.max n 1)) = Some (a / Qnat (Nat.max n 1))%Q.
Proof. apply py_div_Qnat. lia. Qed.

Lemma ratio_in_unit n d : (n ≤ d)%nat → (0 < d)%nat → in_unit (Qnat n / Qnat d).
Proof.
  intros Hle Hd. pose proof (Qnat_pos d Hd) as Hp. split.
  - apply Qle_shift_div_l; [done|]. rewrite Qmult_0_l. apply Qnat_nonneg.
  - apply Qle_shift_div_r; [done|]. rewrite Qmult_1_l. by apply Qnat_le.
Qed.

Lemma ratio_floored_in_unit n d : (n ≤ d)%nat → in_unit (Qnat n / Qnat (Nat.max d 1)).
Proof. intros H. apply ratio_in_unit; lia. Qed.

Lemma length_List_filter {A} (p : A → bool) (l : list A) :
  (length (List.filter p l) ≤ length l)%nat.
Proof. induction l as [|x l IH]; simpl; [done|]. destruct (p x); simpl; lia. Qed.

Lemma List_filter_ext_in {A} (p q : A → bool) (l : list A) :
  (∀ x, x ∈ l → p x = q x) → List.filter p l = List.filter q l.
Proof.
  induction l as [|x l IH]; intros H; simpl; [done|].
  rewrite (H x) by by left. rewrite IH; [done|]. intros y Hy. apply H. by right.
Qed.

Lemma foldl_count {A} (p : A → bool) (l : list A) : ∀ k,
  foldl (λ n w, if p w then S n else n) k l = (k + length (List.filter p l))%nat.
Proof.
  induction l as [|x l IH]; intros k; simpl; [lia|].
  rewrite IH. destruct (p x); simpl; lia.
Qed.

Lemma existsb_elem {A} (p : A → bool) (l : list A) :
  existsb p l = true ↔ ∃ x, x ∈ l ∧ p x = true.
Proof.
  rewrite existsb_exists. split; intros (x & H1 & H2); exists x; split; try done;
    by apply list_elem_of_In.
Qed.

Lemma existsb_false {A} (p : A → bool) (l : list A) :
  existsb p l = false ↔ ∀ x, x ∈ l → p x = false.
Proof.
  split.
  - intros H x Hx. destruct (p x) eqn:E; [|done].
    assert (existsb p l = true) by (apply existsb_elem; eauto). congruence.
  - intros H. destruct (existsb p l) eqn:E; [|done].
    apply existsb_elem in E as (x & Hx & Hp). rewrite H in Hp; done.
Qed.

(** The words of [split] are non-empty and free of whitespace. *)
Lemma split_go_words s : ∀ cur w,
  Forall (λ c, isspace c = false) cur →
  w ∈ split_go s cur → w ≠ [] ∧ Forall (λ c, isspace c = false) w.
Proof.
  assert (Hflush : ∀ cur w, Forall (λ c, isspace c = false) cur →
            w ∈ flush cur → w ≠ [] ∧ Forall (λ c, isspace c = false) w).
  { intros [|c cur] w Hcur Hw; [by apply elem_of_nil in Hw|].
    unfold flush in Hw. apply list_elem_of_singleton in Hw as ->. split.
    - intros H. apply (f_equal length) in H. rewrite length_rev in H. done.
    - by apply Forall_rev. }
  induction s as [|c s IH]; intros cur w Hcur Hw; simpl in Hw.
  - by apply Hflush in Hw.
  - destruct (isspace c) eqn:Hc.
    + apply elem_of_app in Hw as [Hw|Hw]; [by apply Hflush in Hw|].
      by apply IH in Hw.
    + apply IH in Hw; [done|]. by constructor.
Qed.

Lemma split_words s w :
  w ∈ split s → w ≠ [] ∧ Forall (λ c, isspace c = false) w.
Proof. apply split_go_words. constructor. Qed.

Lemma split_word_no_newline s w : w ∈ split s → NL ∉ w.
Proof.
  intros [_ H]%split_words Hin. rewrite Forall_forall in H.
  specialize (H _ Hin). done.
Qed.

(** ** The suspicious-word heuristic *)

Section Suspicious.
Context `{UD : UnicodeData}.
Import ArchiveComparison.

Lemma ascii_letter_class c :
  set_match false false [rng "A" "Z"; rng "a" "z"] c = ascii_letter c.
Proof.
  unfold set_match, ascii_letter, ascii_upper, ascii_lower. simpl.
  by rewrite orb_false_r.
Qed.

Lemma digit_class c : set_match false false [IDigit] c = isdecimal c.
Proof. unfold set_match. simpl. by rewrite orb_false_r. Qed.

Lemma ascii_letter_is_ascii c : ascii_letter c = true → is_ascii c = true.
Proof.
  unfold ascii_letter, ascii_upper, ascii_lower, in_range, is_ascii.
  intros H. apply N.ltb_lt.
  repeat (apply orb_true_iff in H as [H|H] || apply andb_true_iff in H as [? ?]);
    rewrite ?N.leb_le in *; lia.
Qed.

(** Where [MIXED_RE] matches, a letter and a digit follow. *)
Lemma mixed_match_sound st st' :
  st' ∈ rmatch false MIXED_RE st →
  (∃ c, c ∈ m_suf st ∧ ascii_letter c = true) ∧ (∃ d, d ∈ m_suf st ∧ isdecimal d = true).
Proof.
  unfold MIXED_RE. cbn [rmatch seqs foldr]. intros [H|H]%elem_of_app.
  - apply list_elem_of_bind in H as (st1 & H & H1).
    apply elem_of_step_char in H1 as (c & rest & Hs & Hc & ->).
    apply list_elem_of_bind in H as (st2 & H & H2).
    apply (rmatch_extends false (star RAny)) in H2 as (w & Hw & _). simpl in Hw.
    apply list_elem_of_bind in H as (st3 & _ & H3).
    apply elem_of_step_char in H3 as (d & rest' & Hs' & Hd & ->).
    rewrite ascii_letter_class in Hc. rewrite digit_class in Hd.
    rewrite Hs, Hw, Hs'. split.
    + exists c. split; [by left | done].
    + exists d. split; [|done]. right. apply elem_of_app. right. by left.
  - apply list_elem_of_bind in H as (st1 & H & H1).
    apply elem_of_step_char in H1 as (d & rest & Hs & Hd & ->).
    apply list_elem_of_bind in H as (st2 & H & H2).
    apply (rmatch_extends false (star RAny)) in H2 as (w & Hw & _). simpl in Hw.
    apply list_elem_of_bind in H as (st3 & _ & H3).
    apply elem_of_step_char in H3 as (c & rest' & Hs' & Hc & ->).
    rewrite ascii_letter_class in Hc. rewrite digit_class in Hd.
    rewrite Hs, Hw, Hs'. split.
    + exists c. split; [|done]. right. apply elem_of_app. right. by left.
    + exists d. split; [by left | done].
Qed.

(** A first-class character, a run without newline and a second-class
    character: [x.*y] matches. *)
Lemma class_any_class_matches (X Y : list citem) pre x m y rest :
  set_match false false X x = true → set_match false false Y y = true → NL ∉ m →
  rmatch false (seqs [cls X; star RAny; cls Y]) (MState pre (x :: m ++ y :: rest) []) ≠ [].
Proof.
  intros Hx Hy Hnl.
  assert (MState (y :: rev m ++ x :: pre) rest []
          ∈ rmatch false (seqs [cls X; star RAny; cls Y]) (MState pre (x :: m ++ y :: rest) []))
    as Hin; [|by intros E; rewrite E in Hin; apply elem_of_nil in Hin].
  cbn [seqs foldr]. apply elem_of_rmatch_seq.
  exists (MState (x :: pre) (m ++ y :: rest) []). split.
  { apply elem_of_step_char. exists x, (m ++ y :: rest). done. }
  apply elem_of_rmatch_seq. exists (MState (rev m ++ x :: pre) (y :: rest) []). split.
  { by apply star_any_reaches. }
  apply elem_of_rmatch_seq. exists (MState (y :: rev m ++ x :: pre) rest []). split.
  { apply elem_of_step_char. exists y, rest. done. }
  by apply list_elem_of_singleton.
Qed.

(** Two different positions of a list, in their order. *)
Lemma two_elements {A} (P Q : A → Prop) (l : list A) :
  (∃ x, x ∈ l ∧ P x) → (∃ y, y ∈ l ∧ Q y) → (∀ z, P z → Q z → False) →
  (∃ a x m y b, l = a ++ x :: m ++ y :: b ∧ P x ∧ Q y)
  ∨ (∃ a y m x b, l = a ++ y :: m ++ x :: b ∧ P x ∧ Q y).
Proof.
  intros (x & Hx & HP) (y & Hy & HQ) Hdisj.
  apply list_elem_of_split in Hx as (a & b & ->).
  apply elem_of_app in Hy as [Hy|Hy].
  - right. apply list_elem_of_split in Hy as (a1 & a2 & ->).
    exists a1, y, a2, x, b. by rewrite <- app_assoc.
  - apply elem_of_cons in Hy as [->|Hy]; [by destruct (Hdisj x)|].
    left. apply list_elem_of_split in Hy as (b1 & b2 & ->).
    exists a, x, b1, y, b2. done.
Qed.

Lemma mixed_search w :
  NL ∉ w →
  is_Some (re_search false MIXED_RE w) ↔
  (∃ c, c ∈ w ∧ ascii_letter c = true) ∧ (∃ d, d ∈ w ∧ isdecimal d = true).
Proof.
  intros Hnl. rewrite re_search_is_Some. split.
  - intros (a & b & -> & Hne).
    destruct (rmatch false MIXED_RE (MState (rev a) b [])) as [|st' l] eqn:E; [done|].
    assert (st' ∈ rmatch false MIXED_RE (MState (rev a) b [])) as Hin by (rewrite E; by left).
    apply mixed_match_sound in Hin as [(c & Hc & ?) (d & Hd & ?)]. simpl in *.
    split; [exists c | exists d]; (split; [apply elem_of_app; by right | done]).
  - intros [Hc Hd].
    assert (Hdisj : ∀ z, ascii_letter z = true → isdecimal z = true → False).
    { intros z Hz Hz'. unfold isdecimal in Hz'. rewrite (ascii_letter_is_ascii z Hz) in Hz'.
      unfold ascii_letter, ascii_upper, ascii_lower, ascii_digit, in_range in *.
      repeat (apply orb_true_iff in Hz as [Hz|Hz] || apply andb_true_iff in Hz as [? ?]
              || apply andb_true_iff in Hz' as [? ?]); rewrite ?N.leb_le in *; lia. }
    destruct (two_elements _ _ w Hc Hd Hdisj)
      as [(a & x & m & y & b & -> & Hx & Hy)|(a & y & m & x & b & -> & Hx & Hy)].
    + exists a, (x :: m ++ y :: b). split; [done|].
      unfold MIXED_RE. cbn [rmatch]. intros [E _]%app_eq_nil. revert E.
      apply class_any_class_matches; [by rewrite ascii_letter_class | by rewrite digit_class|].
      intros ?. apply Hnl. apply elem_of_app. right. right. apply elem_of_app. by left.
    + exists a, (y :: m ++ x :: b). split; [done|].
      unfold MIXED_RE. cbn [rmatch]. intros [_ E]%app_eq_nil. revert E.
      apply class_any_class_matches; [by rewrite digit_class | by rewrite ascii_letter_class|].
      intros ?. apply Hnl. apply elem_of_app. right. right. apply elem_of_app. by left.
Qed.

(** On a word without a newline the test of the code is the test of the
    specification, whatever counts as a letter or a digit outside ASCII. *)
Lemma is_suspicious_spec (letter digit : char → bool) w :
  (∀ c, is_ascii c = true → letter c = ascii_letter c) →
  (∀ c, is_ascii c = true → digit c = ascii_digit c) →
  NL ∉ w →
  is_suspicious w = spec_suspicious letter digit w.
Proof.
  intros Hl Hd Hnl. unfold is_suspicious, spec_suspicious.
  destruct (has_char REPLACEMENT_CHARACTER w); [done|]. simpl.
  assert (Hna : existsb (λ ch, (127 <? ch)%N) w = existsb (λ c, negb (is_ascii c)) w).
  { clear. induction w as [|c w IH]; simpl; [done|]. rewrite IH. f_equal.
    unfold is_ascii. destruct (N.ltb_spec 127 c), (N.ltb_spec c 128); simpl; try done; lia. }
  destruct (existsb (λ c, negb (is_ascii c)) w) eqn:Hnon.
  - rewrite orb_true_r. rewrite Hna. by destruct (bool_decide _).
  - rewrite orb_false_r, Hna.
    assert (Hascii : ∀ c, c ∈ w → is_ascii c = true).
    { intros c Hc. rewrite existsb_false in Hnon. apply Hnon in Hc.
      by apply negb_false_iff in Hc. }
    destruct (bool_decide (is_Some (re_search false MIXED_RE w))) eqn:Hs.
    + apply bool_decide_eq_true in Hs. apply mixed_search in Hs as [(c & Hc & Hc') (d & Hd' & Hd'')];
        [|done].
      symmetry. apply andb_true_iff. split; apply existsb_elem.
      * exists c. split; [done|]. rewrite Hl; [done | by apply Hascii].
      * exists d. split; [done|]. rewrite Hd by by apply Hascii.
        unfold isdecimal in Hd''. by rewrite Hascii in Hd''.
    + apply bool_decide_eq_false in Hs. symmetry. apply not_true_is_false. intros H.
      apply Hs. apply mixed_search; [done|].
      apply andb_true_iff in H as [(c & Hc & Hc')%existsb_elem (d & Hd' & Hd'')%existsb_elem].
      split; [exists c | exists d]; (split; [done|]).
      * rewrite <- Hl; [done | by apply Hascii].
      * unfold isdecimal. rewrite Hascii by done. rewrite <- Hd; [done | by apply Hascii].
Qed.

End Suspicious.

(** ** The metrics *)

Section Metrics.
Context `{UD : UnicodeData}.

Lemma distinct_count_le {A} `{EqDecision A} (l : list A) :
  (distinct_count l ≤ length l)%nat.
Proof.
  unfold distinct_count. induction l as [|x l IH]; simpl; [done|].
  destruct (decide_rel elem_of x l); simpl; lia.
Qed.

Lemma count_suspicious_filter words :
  ArchiveComparison.count_suspicious words
  = length (List.filter ArchiveComparison.is_suspicious words).
Proof. unfold ArchiveComparison.count_suspicious. by rewrite foldl_count. Qed.

(** [_compute_metrics] returns for every text, and each ratio is its
    numerator over a denominator floored at 1. *)
Lemma compute_metrics_total text :
  let words := split text in
  ∃ m, ArchiveComparison._compute_metrics text = Some m
    ∧ ArchiveComparison.word_count m = length words
    ∧ ArchiveComparison.char_count m = length text
    ∧ (ArchiveComparison.avg_word_length m
       == Qnat (ArchiveComparison.sum_list (length <$> words)) / Qnat (Nat.max (length words) 1))%Q
    ∧ ArchiveComparison.punctuation_frequency m
      = (Qnat (length (List.filter ArchiveComparison.is_punctuation text))
         / Qnat (Nat.max (length text) 1))%Q
    ∧ ArchiveComparison.lexical_diversity m
      = (Qnat (distinct_count words) / Qnat (Nat.max (length words) 1))%Q
    ∧ ArchiveComparison.ocr_error_rate m
      = (Qnat (length (List.filter ArchiveComparison.is_suspicious words))
         / Qnat (Nat.max (length words) 1))%Q.
Proof.
  intros words. unfold ArchiveComparison._compute_metrics, ArchiveComparison._ocr_error_heuristic,
    ArchiveComparison._tokenise. fold words.
  rewrite !py_div_floored. rewrite count_suspicious_filter.
  destruct (length words) as [|n] eqn:Hn; cbn [Nat.eqb].
  - simpl. eexists. split; [done|]. simpl. repeat split; try done.
    destruct words; [|done]. simpl. done.
  - rewrite py_div_Qnat by lia. simpl. eexists. split; [done|]. simpl.
    repeat split; try done. by rewrite Nat.max_0_r.
Qed.


(** The first-listed script: each ratio returns and lies between 0 and 1. *)
Lemma text_comparison_ratios text :
  ∃ e p a,
    TextComparison.ocr_error_rate text = Some e
    ∧ TextComparison.punctuation_frequency text = Some p
    ∧ TextComparison.average_word_length text = Some a
    ∧ in_unit e ∧ in_unit p ∧ (0 <= a)%Q.
Proof.
  unfold TextComparison.ocr_error_rate, TextComparison.punctuation_frequency,
    TextComparison.average_word_length.
  rewrite !py_div_floored. do 3 eexists. repeat split; try done.
  - apply ratio_floored_in_unit, length_List_filter.
  - apply ratio_floored_in_unit, length_List_filter.
  - apply ratio_floored_in_unit, length_List_filter.
  - apply ratio_floored_in_unit, length_List_filter.
  - apply Qle_shift_div_l; [apply Qnat_pos; lia|]. rewrite Qmult_0_l. apply Qnat_nonneg.
Qed.

End Metrics.

(** C4: for every text, the empty one included, the ratio fields of the
    metrics (punctuation_frequency, lexical_diversity, ocr_error_rate) lie
    between 0 and 1, and no metric divides by zero: each, avg_word_length
    included, is a quotient over a denominator floored at 1, so that the
    metrics are returned for every text.  This holds of the metrics of both
    comparison scripts. *)
Theorem metrics_total_and_bounded `{UD : UnicodeData} (text : str) :
  (∃ m, ArchiveComparison._compute_metrics text = Some m
     ∧ in_unit (ArchiveComparison.punctuation_frequency m)
     ∧ in_unit (ArchiveComparison.lexical_diversity m)
     ∧ in_unit (ArchiveComparison.ocr_error_rate m)
     ∧ (ArchiveComparison.avg_word_length m
        == Qnat (ArchiveComparison.sum_list (length <$> split text))
           / Qnat (Nat.max (length (split text)) 1))%Q
     ∧ ArchiveComparison.punctuation_frequency m
       = (Qnat (length (List.filter ArchiveComparison.is_punctuation text))
          / Qnat (Nat.max (length text) 1))%Q
     ∧ ArchiveComparison.lexical_diversity m
       = (Qnat (distinct_count (split text)) / Qnat (Nat.max (length (split text)) 1))%Q
     ∧ ArchiveComparison.ocr_error_rate m
       = (Qnat (length (List.filter ArchiveComparison.is_suspicious (split text)))
          / Qnat (Nat.max (length (split text)) 1))%Q)
  ∧ (∃ e p a,
       TextComparison.ocr_error_rate text = Some e
       ∧ TextComparison.punctuation_frequency text = Some p
       ∧ TextComparison.average_word_length text = Some a
       ∧ in_unit e ∧ in_unit p ∧ (0 <= a)%Q).
Proof.
  split; [|apply text_comparison_ratios].
  destruct (compute_metrics_total text) as (m & Hm & _ & _ & Havg & Hp & Hl & Ho).
  exists m. split; [done|]. rewrite Hp, Hl, Ho. repeat split; try done.
  - apply ratio_floored_in_unit, length_List_filter.
  - apply ratio_floored_in_unit, length_List_filter.
  - apply ratio_floored_in_unit, distinct_count_le.
  - apply ratio_floored_in_unit, distinct_count_le.
  - apply ratio_floored_in_unit, length_List_filter.
  - apply ratio_floored_in_unit, length_List_filter.
Qed.

(** C2 fails for text_comparison.py: its ocr_error_rate tests each word
    with the pattern [[^-]], which finds a character in every word that is
    not made of hyphens alone, so that on "hello world" the rate is 1, where
    no word is suspicious and the claim gives 0; the heuristic of the
    archived script gives 0. *)
Theorem plain_words_counted_as_errors :
  ∃ live archived,
    TextComparison.ocr_error_rate (UD := ascii_only) (py "hello world") = Some live
    ∧ (live == 1)%Q
    ∧ ArchiveComparison.ocr_error_rate
        <$> ArchiveComparison._compute_metrics (UD := ascii_only) (py "hello world")
      = Some archived
    ∧ (archived == 0)%Q
    ∧ (spec_ocr_error_rate ascii_letter ascii_digit (py "hello world") == 0)%Q.
Proof.
  eexists _, _. split; [vm_compute; reflexivity|]. split; [reflexivity|].
  split; [vm_compute; reflexivity|]. split; reflexivity.
Qed.

(** ** Selection of the file to copy *)

(** C9: in the selection-and-copy stage, for every row of the summary,
    whenever <document_key>_from_csv.txt exists in the input directory it is
    the file selected for copying, whatever the recommendation column holds;
    the recommended method only matters when there is no such file. *)
Theorem from_csv_selected_whatever_recommended (input_dir : gset str) (key : str) :
  key ++ py "_from_csv.txt" ∈ input_dir →
  ∀ recommended,
    Recommendation.select_file input_dir (Recommendation.SummaryRow key recommended)
    = Some (key ++ py "_from_csv.txt").
Proof.
  intros Hin recommended. unfold Recommendation.select_file, Recommendation.exists_in_input.
  simpl. by rewrite bool_decide_eq_true_2.
Qed.

(** A directory with both renderings of one document and a row that
    recommends the optical one. *)
Lemma from_csv_selected_whatever_recommended_witness :
  Recommendation.select_file
    {[ py "2019-12-labour_from_csv.txt"; py "2019-12-labour_tesseract_extraction.txt" ]}
    (Recommendation.SummaryRow (py "2019-12-labour") (py "tesseract"))
  = Some (py "2019-12-labour_from_csv.txt").
Proof.
  apply (from_csv_selected_whatever_recommended
           {[ py "2019-12-labour_from_csv.txt"; py "2019-12-labour_tesseract_extraction.txt" ]}
           (py "2019-12-labour")).
  apply elem_of_union_l, elem_of_singleton. reflexivity.
Defined.

(** Without the from_csv file the same row selects the recommended file. *)
Example recommended_selected_without_from_csv :
  Recommendation.select_file
    {[ py "2019-12-labour_tesseract_extraction.txt" ]}
    (Recommendation.SummaryRow (py "2019-12-labour") (py "tesseract"))
  = Some (py "2019-12-labour_tesseract_extraction.txt").
Proof. vm_compute. reflexivity. Qed.

(** ** [max] and dictionaries *)

Lemma Qlt_bool_true a b : Qlt_bool a b = true ↔ (a < b)%Q.
Proof.
  unfold Qlt_bool. rewrite negb_true_iff. split.
  - intros H. apply Qnot_le_lt. intros Hle. apply Qle_bool_iff in Hle. congruence.
  - intros H. apply not_true_is_false. intros Hle%Qle_bool_iff.
    by apply Qlt_not_le in H.
Qed.

Lemma Qlt_bool_false a b : Qlt_bool a b = false ↔ (b <= a)%Q.
Proof.
  unfold Qlt_bool. rewrite negb_false_iff. apply Qle_bool_iff.
Qed.

(** [max_by] returns the first of the largest: what comes before it is
    strictly smaller, what comes after it is not larger. *)
Lemma max_by_first_aux {A} (key : A → Q) (xs : list A) : ∀ l1 l2 best,
  (∀ x, x ∈ l1 → (key x < key best)%Q) →
  (∀ x, x ∈ l2 → (key x <= key best)%Q) →
  ∃ l1' l2',
    l1 ++ best :: l2 ++ xs = l1' ++ max_by key best xs :: l2'
    ∧ (∀ x, x ∈ l1' → (key x < key (max_by key best xs))%Q)
    ∧ (∀ x, x ∈ l2' → (key x <= key (max_by key best xs))%Q).
Proof.
  induction xs as [|x xs IH]; intros l1 l2 best H1 H2; simpl.
  - exists l1, l2. by rewrite app_nil_r.
  - destruct (Qlt_bool (key best) (key x)) eqn:E.
    + apply Qlt_bool_true in E.
      destruct (IH (l1 ++ best :: l2) [] x) as (l1' & l2' & Heq & Hlt & Hle).
      * intros y [Hy|Hy]%elem_of_app.
        -- eapply Qlt_trans; [by apply H1 | done].
        -- apply elem_of_cons in Hy as [->|Hy]; [done|].
           eapply Qle_lt_trans; [by apply H2 | done].
      * by intros y ?%elem_of_nil.
      * exists l1', l2'. split; [|done]. rewrite <- Heq. by rewrite <- app_assoc.
    + apply Qlt_bool_false in E.
      destruct (IH l1 (l2 ++ [x]) best) as (l1' & l2' & Heq & Hlt & Hle).
      * done.
      * intros y [Hy|Hy]%elem_of_app; [by apply H2|].
        by apply list_elem_of_singleton in Hy as ->.
      * exists l1', l2'. split; [|done]. rewrite <- Heq. by rewrite <- app_assoc.
Qed.

Lemma py_max_by_first {A} (key : A → Q) (xs : list A) :
  xs ≠ [] →
  ∃ r l1 l2,
    py_max_by key xs = Some r ∧ xs = l1 ++ r :: l2
    ∧ (∀ x, x ∈ l1 → (key x < key r)%Q)
    ∧ (∀ x, x ∈ l2 → (key x <= key r)%Q).
Proof.
  destruct xs as [|best xs]; [done|]. intros _. simpl.
  destruct (max_by_first_aux key xs [] [] best) as (l1 & l2 & Heq & Hlt & Hle);
    [by intros y ?%elem_of_nil | by intros y ?%elem_of_nil |].
  exists (max_by key best xs), l1, l2. done.
Qed.

Lemma py_max_by_is_max {A} (key : A → Q) (xs : list A) r :
  py_max_by key xs = Some r →
  r ∈ xs ∧ ∀ x, x ∈ xs → (key x <= key r)%Q.
Proof.
  intros Hr. destruct (py_max_by_first key xs) as (r' & l1 & l2 & Hr' & -> & Hlt & Hle).
  { by destruct xs. }
  rewrite Hr in Hr'. injection Hr' as <-. split.
  - apply elem_of_app. right. by left.
  - intros x [Hx|Hx]%elem_of_app.
    + by apply Qlt_le_weak, Hlt.
    + apply elem_of_cons in Hx as [->|Hx]; [apply Qle_refl | by apply Hle].
Qed.

Lemma dict_get_Some_elem {K V} `{EqDecision K} (d : PyDict.dict K V) k v :
  PyDict.get k d = Some v → (k, v) ∈ d.
Proof.
  induction d as [|[k' v'] d IH]; simpl; [done|].
  destruct (decide (k = k')) as [->|]; [intros [= ->]; by left|].
  intros H. right. by apply IH.
Qed.

Lemma dict_get_NoDup {K V} `{EqDecision K} (d : PyDict.dict K V) k v :
  NoDup (PyDict.keys d) → (k, v) ∈ d → PyDict.get k d = Some v.
Proof.
  induction d as [|[k' v'] d IH]; simpl; intros Hnd Hin; [by apply elem_of_nil in Hin|].
  apply NoDup_cons in Hnd as [Hk Hnd].
  apply elem_of_cons in Hin as [[= -> ->]|Hin].
  - by rewrite decide_True.
  - destruct (decide (k = k')) as [->|]; [|by apply IH].
    exfalso. apply Hk. apply list_elem_of_fmap. by exists (k', v).
Qed.

Lemma dict_get_None {K V} `{EqDecision K} (d : PyDict.dict K V) k :
  PyDict.get k d = None ↔ k ∉ PyDict.keys d.
Proof.
  induction d as [|[k' v'] d IH]; simpl.
  - split; [intros _ ?%elem_of_nil; done | done].
  - destruct (decide (k = k')) as [->|Hne].
    + split; [done|]. intros H. exfalso. apply H. by left.
    + rewrite IH. split.
      * intros H [?|?]%elem_of_cons; done.
      * intros H ?. apply H. by right.
Qed.

(** ** The election by quality score *)

Section Election.
Context `{UD : UnicodeData}.
Import ArchiveComparison.

Lemma best_method_is_max (mbm : PyDict.dict str metrics) best :
  best_method mbm = Some best →
  ∃ ms, (best, ms) ∈ mbm
    ∧ ∀ m' ms', (m', ms') ∈ mbm → (_quality_score ms' <= _quality_score ms)%Q.
Proof.
  unfold best_method. intros H. apply fmap_Some in H as ([b q] & Hmax & ->).
  apply py_max_by_is_max in Hmax as [Hin Hle].
  apply list_elem_of_fmap in Hin as ([b' ms] & [= -> ->] & Hin). exists ms. split; [done|].
  intros m' ms' Hin'.
  apply (Hle (m', _quality_score ms')). apply list_elem_of_fmap. by exists (m', ms').
Qed.


Lemma best_method_is_Some (mbm : PyDict.dict str metrics) :
  mbm ≠ [] → is_Some (best_method mbm).
Proof. unfold best_method. destruct mbm; [done|]. intros _. simpl. eauto. Qed.

(** The metrics computed for the files of a group, method by method. *)
Lemma group_metrics_total (files_by_method : PyDict.dict str file) :
  ∃ mbm,
    mapM (λ mf, (λ ms, (fst mf, ms)) <$> _compute_metrics (f_text (snd mf))) files_by_method
    = Some mbm
    ∧ Forall2 (λ mf mm, fst mm = fst mf ∧ _compute_metrics (f_text (snd mf)) = Some (snd mm))
              files_by_method mbm.
Proof.
  induction files_by_method as [|[m f] l (mbm & Hm & HF)].
  - exists []. split; [done | constructor].
  - destruct (compute_metrics_total (f_text f)) as (ms & Hms & _).
    exists ((m, ms) :: mbm). split.
    + cbn. cbn in Hm. rewrite Hms. simpl. rewrite Hm. done.
    + constructor; [done|done].
Qed.

Lemma process_group_elects source_id (files_by_method : PyDict.dict str file) :
  files_by_method ≠ [] → NoDup (PyDict.keys files_by_method) →
  ∃ row best f ms,
    process_group source_id files_by_method = Some row
    ∧ r_source_id row = source_id
    ∧ (best, f) ∈ files_by_method
    ∧ _compute_metrics (f_text f) = Some ms
    ∧ r_recommended_file row = f_name f
    ∧ ∀ m' f' ms', (m', f') ∈ files_by_method → _compute_metrics (f_text f') = Some ms' →
        (_quality_score ms' <= _quality_score ms)%Q.
Proof.
  intros Hne Hnd. destruct (group_metrics_total files_by_method) as (mbm & Hm & HF).
  assert (mbm ≠ []) as Hne'.
  { intros ->. apply Forall2_nil_inv_r in HF. done. }
  destruct (best_method_is_Some mbm Hne') as [best Hbest].
  destruct (best_method_is_max mbm best Hbest) as (ms & Hin & Hmax).
  apply list_elem_of_lookup in Hin as [i Hi].
  destruct (Forall2_lookup_r _ _ _ _ _ HF Hi) as ([b f] & Hif & Hb & Hf). simpl in *. subst b.
  assert ((best, f) ∈ files_by_method) as Hinf by (eapply list_elem_of_lookup_2; eauto).
  unfold process_group. rewrite Hm. simpl. rewrite Hbest. simpl.
  rewrite (dict_get_NoDup _ _ _ Hnd Hinf). simpl.
  eexists _, best, f, ms. repeat split; try done.
  intros m' f' ms' Hin' Hms'.
  apply list_elem_of_lookup in Hin' as [j Hj].
  destruct (Forall2_lookup_l _ _ _ _ _ HF Hj) as ([b' ms''] & Hjm & Hb' & Hf'). simpl in *.
  rewrite Hms' in Hf'. injection Hf' as <-.
  apply (Hmax b'). eapply list_elem_of_lookup_2; eauto.
Qed.


End Election.

(** C1, as amended: in the archived script, for every document group, the
    quality score of a candidate is word_count × (1 − ocr_error_rate),
    computed in binary64, and the elected winner is a method of the group
    with the largest score; for word counts 500, 480, 300 and error rates 0,
    0.02, 0.25 the scores are the floats 500, 470.4 and 225 and the from_csv
    candidate wins, in whatever order the candidates come. *)
Theorem quality_score_elects_winner `{UD : UnicodeData} :
  (∀ ms, ArchiveComparison._quality_score ms
         = fl (fl (Qnat (ArchiveComparison.word_count ms))
               * fl (1 - fl (ArchiveComparison.ocr_error_rate ms))))
  ∧ (∀ source_id (files_by_method : PyDict.dict str file),
       files_by_method ≠ [] → NoDup (PyDict.keys files_by_method) →
       ∃ row best f ms,
         ArchiveComparison.process_group source_id files_by_method = Some row
         ∧ (best, f) ∈ files_by_method
         ∧ ArchiveComparison._compute_metrics (f_text f) = Some ms
         ∧ ArchiveComparison.r_recommended_file row = f_name f
         ∧ ∀ m' f' ms', (m', f') ∈ files_by_method →
             ArchiveComparison._compute_metrics (f_text f') = Some ms' →
             (ArchiveComparison._quality_score ms' <= ArchiveComparison._quality_score ms)%Q)
  ∧ (ArchiveComparison._quality_score (candidate_metrics 500 0) == 500)%Q
  ∧ (ArchiveComparison._quality_score (candidate_metrics 480 (2 # 100)) == fl (4704 # 10))%Q
  ∧ (ArchiveComparison._quality_score (candidate_metrics 300 (25 # 100)) == 225)%Q
  ∧ (∀ candidates, candidates ≡ₚ scenario_candidates →
       ArchiveComparison.best_method candidates = Some ArchiveComparison.FROM_CSV).
Proof.
  split; [done|]. split.
  { intros source_id files Hne Hnd.
    destruct (process_group_elects source_id files Hne Hnd)
      as (row & best & f & ms & H1 & _ & H2 & H3 & H4 & H5).
    by exists row, best, f, ms. }
  split; [vm_compute; reflexivity|]. split; [vm_compute; reflexivity|].
  split; [vm_compute; reflexivity|].
  intros candidates Hperm.
  assert (candidates ≠ []) as Hne.
  { intros ->. by apply Permutation_nil_l in Hperm. }
  destruct (best_method_is_Some candidates Hne) as [best Hbest]. rewrite Hbest. f_equal.
  destruct (best_method_is_max candidates best Hbest) as (ms & Hin & Hmax).
  assert ((ArchiveComparison.FROM_CSV, candidate_metrics 500 0) ∈ candidates) as Hcsv.
  { rewrite Hperm. by left. }
  apply Hmax in Hcsv. rewrite Hperm in Hin. unfold scenario_candidates in Hin.
  repeat (apply elem_of_cons in Hin as [[= -> ->]|Hin]); [done| | |by apply elem_of_nil in Hin];
    exfalso; revert Hcsv; unfold Qle; vm_compute; intros H; by apply H.
Qed.

(** A group with a clean structured rendering and a noisy optical one. *)
Lemma quality_score_elects_winner_witness :
  ∃ row best f ms,
    ArchiveComparison.process_group (UD := ascii_only) (py "2020-01-partyx")
      [ (ArchiveComparison.TESSERACT,
          File (py "2020-01-partyx_tesseract_extraction.txt") (py "we w1ll bu1ld"));
        (ArchiveComparison.FROM_CSV,
          File (py "2020-01-partyx_from_csv.txt") (py "we will build homes")) ] = Some row
    ∧ ArchiveComparison.r_recommended_file row = py "2020-01-partyx_from_csv.txt"
    ∧ (best, f) ∈ [ (ArchiveComparison.TESSERACT,
          File (py "2020-01-partyx_tesseract_extraction.txt") (py "we w1ll bu1ld"));
        (ArchiveComparison.FROM_CSV,
          File (py "2020-01-partyx_from_csv.txt") (py "we will build homes")) ]
    ∧ ArchiveComparison._compute_metrics (UD := ascii_only) (f_text f) = Some ms.
Proof.
  destruct (proj1 (proj2 (quality_score_elects_winner (UD := ascii_only))) (py "2020-01-partyx")
     [ (ArchiveComparison.TESSERACT,
          File (py "2020-01-partyx_tesseract_extraction.txt") (py "we w1ll bu1ld"));
        (ArchiveComparison.FROM_CSV,
          File (py "2020-01-partyx_from_csv.txt") (py "we will build homes")) ])
    as (row & best & f & ms & H1 & H2 & H3 & H4 & H5).
  - discriminate.
  - repeat constructor; set_solver.
  - exists row, best, f, ms. split; [exact H1|]. split; [|exact (conj H2 H3)].
    vm_compute in H1. injection H1 as <-. reflexivity.
Defined.

(** C1 as stated fails for text_comparison.py, which does not elect by
    word_count × (1 − ocr_error_rate): of a native rendering "hello" and an
    optical rendering made of a hyphen and a word of 120 letters it
    recommends PyMuPDF, although the product is larger for the optical
    rendering, with the ocr_error_rate of the archived script (1 against 2)
    and with its own (0 against 1); the archived script recommends the
    optical rendering. *)
Lemma recommendation_not_by_quality_score :
  (∃ row,
     TextComparison.compare_folder (UD := ascii_only) [native_hello; optical_long_word]
     = TextComparison.Written [row]
     ∧ TextComparison.r_recommendation row = py "PyMuPDF")
  ∧ (∃ native optical,
       ArchiveComparison._quality_score
         <$> ArchiveComparison._compute_metrics (UD := ascii_only) (f_text native_hello)
       = Some native
       ∧ ArchiveComparison._quality_score
           <$> ArchiveComparison._compute_metrics (UD := ascii_only) (f_text optical_long_word)
         = Some optical
       ∧ (native == 1)%Q ∧ (optical == 2)%Q)
  ∧ (∃ native optical,
       live_quality (UD := ascii_only) (f_text native_hello) = Some native
       ∧ live_quality (UD := ascii_only) (f_text optical_long_word) = Some optical
       ∧ (native == 0)%Q ∧ (optical == 1)%Q)
  ∧ (∃ row,
       ArchiveComparison.compare_folder (UD := ascii_only) [native_hello; optical_long_word]
       = ArchiveComparison.Written [row]
       ∧ ArchiveComparison.r_recommended_file row = f_name optical_long_word).
Proof.
  split; [|split; [|split]].
  - eexists. split; [vm_compute; reflexivity | reflexivity].
  - eexists _, _. split; [vm_compute; reflexivity|]. split; [vm_compute; reflexivity|].
    split; vm_compute; reflexivity.
  - eexists _, _. split; [vm_compute; reflexivity|]. split; [vm_compute; reflexivity|].
    split; vm_compute; reflexivity.
  - eexists. split; [vm_compute; reflexivity | reflexivity].
Qed.

(** calculate_recommendation of text_comparison.py scores by the mean of the
    contributions of the metrics present.  A candidate of which the 500
    words and the ocr_error_rate of 0 alone are known scores 250. *)
Example text_comparison_scores_by_mean :
  ∃ q, TextComparison.method_score
         (TextComparison.MetricsDict [Some (Int 500)] [None] [Some (Float 0)] [None] [None]) 0
       = Some (Some q)
     ∧ (q == 250)%Q.
Proof. eexists. split; [vm_compute; reflexivity | reflexivity]. Qed.

(** ** The recommendation of text_comparison.py *)

Section Recommendation.
Import TextComparison.

Lemma dict_set_fresh {K V} `{EqDecision K} (d : PyDict.dict K V) k v :
  k ∉ PyDict.keys d → PyDict.set k v d = d ++ [(k, v)].
Proof.
  induction d as [|[k' v'] d IH]; simpl; [done|]. intros Hk.
  destruct (decide (k = k')) as [->|Hne].
  - exfalso. apply Hk. by left.
  - rewrite IH; [done|]. intros ?. apply Hk. by right.
Qed.

Lemma available_scores_keys md methods : ∀ i m,
  m ∈ PyDict.keys (available_scores md i methods) → m ∈ methods.
Proof.
  induction methods as [|x methods IH]; intros i m; simpl; [done|].
  unfold PyDict.keys. rewrite fmap_app, elem_of_app. intros [H|H].
  - destruct (method_score md i) as [[q|]|]; simpl in H; try by apply elem_of_nil in H.
    apply list_elem_of_singleton in H as ->. by left.
  - right. by eapply IH.
Qed.

(** The loop of [calculate_recommendation] appends the available scores in
    the order of the methods. *)
Lemma fill_scores_available md methods : ∀ i scores,
  NoDup methods →
  (∀ m, m ∈ methods → m ∉ PyDict.keys scores) →
  (∀ k, k < length methods → is_Some (method_score md (i + k))) →
  fill_scores md i methods scores = Some (scores ++ available_scores md i methods).
Proof.
  induction methods as [|x methods IH]; intros i scores Hnd Hfresh Hsome; simpl.
  - by rewrite app_nil_r.
  - apply NoDup_cons in Hnd as [Hx Hnd].
    destruct (Hsome 0) as [sc Hsc]; [simpl; lia|]. rewrite Nat.add_0_r in Hsc.
    rewrite Hsc. simpl.
    assert (Hrest : ∀ k, k < length methods → is_Some (method_score md (S i + k))).
    { intros k Hk. replace (S i + k) with (i + S k) by lia. apply Hsome. simpl. lia. }
    destruct sc as [q|].
    + rewrite dict_set_fresh by (apply Hfresh; by left).
      rewrite IH; [by rewrite <- app_assoc | done | | done].
      intros m Hm. unfold PyDict.keys. rewrite fmap_app, elem_of_app. intros [H|H].
      * revert H. apply Hfresh. by right.
      * apply list_elem_of_singleton in H. simpl in H. by subst.
    + rewrite IH; [done | done | | done].
      intros m Hm. apply Hfresh. by right.
Qed.

Lemma fill_scores_out_of_range md methods : ∀ i scores k,
  k < length methods → method_score md (i + k) = None →
  fill_scores md i methods scores = None.
Proof.
  induction methods as [|x methods IH]; intros i scores k Hk Hnone; simpl in *; [lia|].
  destruct k as [|k].
  - rewrite Nat.add_0_r in Hnone. by rewrite Hnone.
  - destruct (method_score md i) as [sc|]; [|done]. simpl.
    apply (IH _ _ k); [lia|]. by replace (S i + k) with (i + S k) by lia.
Qed.

Lemma available_scores_has md methods : ∀ n j q',
  j < length methods → method_score md (n + j) = Some (Some q') →
  ∃ m', (m', q') ∈ available_scores md n methods.
Proof.
  induction methods as [|y methods IH]; intros n j q' Hj Hq'; simpl in *; [lia|].
  destruct j as [|j].
  - rewrite Nat.add_0_r in Hq'. rewrite Hq'. exists y. by left.
  - destruct (IH (S n) j q') as [m' Hm']; [lia | by replace (S n + j) with (n + S j) by lia|].
    exists m'. apply elem_of_app. by right.
Qed.

(** Where an entry of the available scores sits in the order of the
    methods. *)
Lemma available_scores_split md methods : ∀ i l1 m q l2,
  available_scores md i methods = l1 ++ (m, q) :: l2 →
  ∃ k, methods !! k = Some m ∧ method_score md (i + k) = Some (Some q)
    ∧ (∀ j q', j < k → method_score md (i + j) = Some (Some q') → ∃ m', (m', q') ∈ l1)
    ∧ (∀ j q', k < j → j < length methods → method_score md (i + j) = Some (Some q') →
         ∃ m', (m', q') ∈ l2).
Proof.
  induction methods as [|x methods IH]; intros i l1 m q l2 Heq; simpl in Heq.
  { by destruct l1. }
  assert (Hshift : ∀ j, S i + j = i + S j) by (intros; lia).
  destruct (method_score md i) as [[q0|]|] eqn:Hsc; simpl in Heq.
  - destruct l1 as [|[m1 q1] l1]; simpl in Heq.
    + injection Heq as <- <- Heq. exists 0. rewrite Nat.add_0_r. repeat split; try done.
      * intros j q' Hj. lia.
      * intros j q' Hj Hlen Hq'. destruct j as [|j]; [lia|].
        destruct (available_scores_has md methods (S i) j q') as [m' Hm'];
          [simpl in Hlen; lia | by rewrite Hshift|].
        exists m'. by rewrite Heq in Hm'.
    + injection Heq as <- <- Heq. destruct (IH _ _ _ _ _ Heq) as (k & Hk & Hs & Hbefore & Hafter).
      exists (S k). rewrite <- Hshift. repeat split; try done.
      * intros j q' Hj Hq'. destruct j as [|j].
        -- rewrite Nat.add_0_r, Hsc in Hq'. injection Hq' as <-. exists x. by left.
        -- rewrite <- Hshift in Hq'. destruct (Hbefore j q') as [m' Hm']; [lia | done|].
           exists m'. by right.
      * intros j q' Hj Hlen Hq'. destruct j as [|j]; [lia|]. rewrite <- Hshift in Hq'.
        apply (Hafter j q'); [lia | simpl in Hlen; lia | done].
  - destruct (IH _ _ _ _ _ Heq) as (k & Hk & Hs & Hbefore & Hafter).
    exists (S k). rewrite <- Hshift. repeat split; try done.
    + intros j q' Hj Hq'. destruct j as [|j].
      * rewrite Nat.add_0_r, Hsc in Hq'. done.
      * rewrite <- Hshift in Hq'. apply (Hbefore j q'); [lia | done].
    + intros j q' Hj Hlen Hq'. destruct j as [|j]; [lia|]. rewrite <- Hshift in Hq'.
      apply (Hafter j q'); [lia | simpl in Hlen; lia | done].
  - destruct (IH _ _ _ _ _ Heq) as (k & Hk & Hs & Hbefore & Hafter).
    exists (S k). rewrite <- Hshift. repeat split; try done.
    + intros j q' Hj Hq'. destruct j as [|j].
      * rewrite Nat.add_0_r, Hsc in Hq'. done.
      * rewrite <- Hshift in Hq'. apply (Hbefore j q'); [lia | done].
    + intros j q' Hj Hlen Hq'. destruct j as [|j]; [lia|]. rewrite <- Hshift in Hq'.
      apply (Hafter j q'); [lia | simpl in Hlen; lia | done].
Qed.

Lemma method_score_in_range md n i :
  complete_for n md → i < n → is_Some (method_score md i).
Proof.
  intros (H1 & H2 & H3 & H4 & H5) Hi. unfold method_score.
  destruct (lookup_lt_is_Some_2 (word_counts md) i) as [a ->]; [lia|].
  destruct (lookup_lt_is_Some_2 (char_counts md) i) as [b ->]; [lia|].
  destruct (lookup_lt_is_Some_2 (ocr_error_rates md) i) as [c ->]; [lia|].
  destruct (lookup_lt_is_Some_2 (avg_word_lengths md) i) as [d ->]; [lia|].
  destruct (lookup_lt_is_Some_2 (punctuation_freqs md) i) as [e ->]; [lia|].
  simpl. destruct (add_punct _ _). eauto.
Qed.

Lemma method_score_out_of_range md n i :
  complete_for n md → n ≤ i → method_score md i = None.
Proof.
  intros (H1 & _) Hi. unfold method_score.
  rewrite (lookup_ge_None_2 (word_counts md) i) by lia. done.
Qed.

End Recommendation.

Section Arbitration.
Import TextComparison.

Lemma method_order_NoDup : NoDup method_order.
Proof. apply (bool_decide_unpack _). vm_compute. done. Qed.

Lemma calculate_recommendation_available md :
  complete_for 3 md →
  calculate_recommendation md method_order
  = Some (match best_of (available_scores md 0 method_order) with
          | None => py "No data available"
          | Some best_method => label_of best_method
          end).
Proof.
  intros Hc. unfold calculate_recommendation.
  rewrite (fill_scores_available md method_order 0 []);
    [|apply method_order_NoDup | by intros ? _ ?%elem_of_nil
     | intros k Hk; by apply (method_score_in_range md 3)].
  rewrite app_nil_l. simpl. by destruct (best_of _).
Qed.

(** The recommended method is the first, in the priority order, of the
    methods with the largest score. *)
Lemma recommendation_first_maximum md :
  complete_for 3 md →
  (∃ i q, method_score md i = Some (Some q)) →
  ∃ w m qw,
    method_order !! w = Some m
    ∧ method_score md w = Some (Some qw)
    ∧ calculate_recommendation md method_order = Some (label_of m)
    ∧ ∀ j qj, method_score md j = Some (Some qj) →
        (qj <= qw)%Q ∧ (j < w → (qj < qw)%Q).
Proof.
  intros Hc (i & q & Hi).
  assert (i < 3) as Hi3.
  { destruct (decide (i < 3)); [done|].
    rewrite (method_score_out_of_range md 3 i) in Hi by (done || lia). done. }
  rewrite calculate_recommendation_available by done.
  destruct (available_scores_has md method_order 0 i q Hi3 Hi) as [m0 Hm0].
  destruct (py_max_by_first snd (available_scores md 0 method_order))
    as ([m qw] & l1 & l2 & Hmax & Hsplit & Hlt & Hle).
  { intros E. rewrite E in Hm0. by apply elem_of_nil in Hm0. }
  destruct (available_scores_split md method_order 0 l1 m qw l2 Hsplit)
    as (w & Hw & Hsw & Hbefore & Hafter). simpl in Hsw.
  exists w, m, qw. split; [done|]. split; [done|]. split.
  { unfold best_of. by rewrite Hmax. }
  intros j qj Hj.
  assert (j < 3) as Hj3.
  { destruct (decide (j < 3)); [done|].
    rewrite (method_score_out_of_range md 3 j) in Hj by (done || lia). done. }
  destruct (Nat.lt_trichotomy j w) as [Hjw|[->|Hjw]].
  - destruct (Hbefore j qj Hjw Hj) as [m' Hm']. apply Hlt in Hm'. simpl in Hm'.
    split; [by apply Qlt_le_weak | done].
  - rewrite Hsw in Hj. injection Hj as <-. split; [apply Qle_refl | lia].
  - destruct (Hafter j qj Hjw Hj3 Hj) as [m' Hm']. apply Hle in Hm'. simpl in Hm'.
    split; [done | lia].
Qed.

Lemma recommendation_no_data md :
  complete_for 3 md →
  (∀ i q, method_score md i ≠ Some (Some q)) →
  calculate_recommendation md method_order = Some (py "No data available").
Proof.
  intros Hc Hnone. rewrite calculate_recommendation_available by done.
  assert (available_scores md 0 method_order = []) as ->; [|done].
  unfold method_order. simpl.
  destruct (method_score md 0) as [[q|]|] eqn:E0; [by apply Hnone in E0| |];
  destruct (method_score md 1) as [[q|]|] eqn:E1; try (by apply Hnone in E1);
  destruct (method_score md 2) as [[q|]|] eqn:E2; try (by apply Hnone in E2); done.
Qed.

(** *** The recommendation is a function of the scores *)







End Arbitration.

(** ** The grouping loop of text_comparison.py *)

Section Grouping.
Context `{UD : UnicodeData}.
Import TextComparison.

Lemma dict_get_set {K V} `{EqDecision K} (d : PyDict.dict K V) k k' v :
  PyDict.get k' (PyDict.set k v d) = if decide (k' = k) then Some v else PyDict.get k' d.
Proof.
  induction d as [|[a b] d IH]; simpl.
  - done.
  - destruct (decide (k = a)) as [->|Hne]; simpl.
    + by destruct (decide (k' = a)).
    + rewrite IH. destruct (decide (k' = a)) as [->|]; [|done].
      by rewrite decide_False.
Qed.

Lemma dict_set_keys {K V} `{EqDecision K} (d : PyDict.dict K V) k v x :
  x ∈ PyDict.keys (PyDict.set k v d) ↔ x = k ∨ x ∈ PyDict.keys d.
Proof.
  induction d as [|[a b] d IH]; simpl.
  - unfold PyDict.keys. simpl. rewrite list_elem_of_singleton.
    split; [by left | by intros [?|?%elem_of_nil]].
  - destruct (decide (k = a)) as [->|Hne]; unfold PyDict.keys in *; simpl.
    + rewrite !elem_of_cons. naive_solver.
    + rewrite !elem_of_cons, IH. naive_solver.
Qed.

Lemma dict_set_NoDup {K V} `{EqDecision K} (d : PyDict.dict K V) k v :
  NoDup (PyDict.keys d) → NoDup (PyDict.keys (PyDict.set k v d)).
Proof.
  induction d as [|[a b] d IH]; simpl; intros Hnd.
  - unfold PyDict.keys. simpl. apply NoDup_singleton.
  - apply NoDup_cons in Hnd as [Ha Hnd].
    destruct (decide (k = a)) as [->|Hne].
    + unfold PyDict.keys in *. simpl. by apply NoDup_cons.
    + change (NoDup (a :: PyDict.keys (PyDict.set k v d))). apply NoDup_cons. split; [|by apply IH].
      rewrite dict_set_keys. intros [?|?]; done.
Qed.

Lemma dict_set_nonempty {K V} `{EqDecision K} (d : PyDict.dict K V) k v :
  PyDict.set k v d ≠ [].
Proof. destruct d as [|[a b] d]; simpl; [done|]. by destruct (decide (k = a)). Qed.

(** What one round of the grouping loop does to a slot. *)
Lemma lookup2_add_file grouped f key m :
  lookup2 (add_file grouped f) key m
  = if decide (slot_of f = Some (key, m)) then Some f else lookup2 grouped key m.
Proof.
  unfold lookup2, add_file, slot_of.
  destruct (extract_group_key (f_name f)) as [[|c k]|]; try (by rewrite decide_False).
  rewrite dict_get_set.
  destruct (decide (key = c :: k)) as [->|Hne].
  - simpl. destruct (method_of_name (f_name f)) as [method|].
    + rewrite dict_get_set. destruct (decide (m = method)) as [->|Hm].
      * by rewrite decide_True.
      * rewrite decide_False by congruence. destruct (PyDict.get (K:=str) (c :: k) grouped); simpl; done.
    + rewrite decide_False by done. destruct (PyDict.get (K:=str) (c :: k) grouped); simpl; done.
  - destruct (method_of_name (f_name f)); rewrite decide_False by congruence; done.
Qed.

Lemma lookup2_foldl_elem files : ∀ grouped key m f,
  lookup2 (foldl add_file grouped files) key m = Some f →
  (f ∈ files ∧ slot_of f = Some (key, m)) ∨ lookup2 grouped key m = Some f.
Proof.
  induction files as [|x files IH]; intros grouped key m f H; simpl in H; [by right|].
  apply IH in H as [[H1 H2]|H].
  - left. split; [by right | done].
  - rewrite lookup2_add_file in H. destruct (decide (slot_of x = Some (key, m))).
    + injection H as <-. left. split; [by left | done].
    + by right.
Qed.

Lemma lookup2_foldl_present files : ∀ grouped key m,
  (∃ f, f ∈ files ∧ slot_of f = Some (key, m)) →
  ∃ f', lookup2 (foldl add_file grouped files) key m = Some f'
        ∧ f' ∈ files ∧ slot_of f' = Some (key, m).
Proof.
  induction files as [|x files IH]; intros grouped key m (f & Hf & Hs).
  { by apply elem_of_nil in Hf. }
  simpl. destruct (decide (Exists (λ g, slot_of g = Some (key, m)) files)) as [Hex|Hno];
    rewrite Exists_exists in *.
  - destruct (IH (add_file grouped x) key m Hex) as (f' & H1 & H2 & H3).
    exists f'. split; [done|]. split; [by right | done].
  - assert (slot_of x = Some (key, m)) as Hx.
    { apply elem_of_cons in Hf as [->|Hf]; [done|]. exfalso. apply Hno. eauto. }
    destruct (lookup2 (foldl add_file (add_file grouped x) files) key m) as [f'|] eqn:E.
    + apply lookup2_foldl_elem in E as [[H1 H2]|E].
      * exfalso. apply Hno. eauto.
      * rewrite lookup2_add_file, decide_True in E by done. injection E as <-.
        exists x. split; [done|]. split; [by left | done].
    + exfalso. revert E. clear -Hx. revert grouped.
      assert (∀ g, is_Some (lookup2 g key m) → is_Some (lookup2 (foldl add_file g files) key m)) as H.
      { induction files as [|y files IH]; intros g Hg; simpl; [done|].
        apply IH. rewrite lookup2_add_file. destruct (decide _); [eauto | done]. }
      intros grouped E. destruct (H (add_file grouped x)) as [? ?]; [|congruence].
      rewrite lookup2_add_file, decide_True by done. eauto.
Qed.




End Grouping.




(** In the tie the structured rendering is recommended. *)
Example tie_goes_to_from_csv :
  TextComparison.calculate_recommendation tie_metrics TextComparison.method_order
  = Some (py "from_csv").
Proof. vm_compute. reflexivity. Qed.

(** The scores follow binary64: the structured and the optical rendering
    of the near tie score −208.70933333333338 and −208.70933333333332, and
    the optical one is recommended, where exact quotients would tie and the
    priority list would decide for from_csv. *)
Example rounding_decides_a_near_tie :
  ∃ row structured optical,
    TextComparison.compare_folder (UD := ascii_only) [near_tie_structured; near_tie_optical]
    = TextComparison.Written [row]
    ∧ TextComparison.r_recommendation row = py "Tesseract"
    ∧ TextComparison.method_score (metrics_of row) 0 = Some (Some structured)
    ∧ TextComparison.method_score (metrics_of row) 2 = Some (Some optical)
    ∧ (structured < optical)%Q
    ∧ (optical - structured < 1 # 10 ^ 13)%Q.
Proof.
  eexists _, _, _. split; [vm_compute; reflexivity|]. split; [reflexivity|].
  split; [vm_compute; reflexivity|]. split; [vm_compute; reflexivity|].
  split; vm_compute; reflexivity.
Qed.

(** The election of the archived script has no priority list: of two
    candidates with equal scores the one encountered first wins. *)
Example archive_tie_goes_to_first_encountered :
  ArchiveComparison.best_method
    [ (ArchiveComparison.TESSERACT, candidate_metrics 100 0);
      (ArchiveComparison.FROM_CSV, candidate_metrics 100 0) ]
  = Some ArchiveComparison.TESSERACT
  ∧ ArchiveComparison.best_method
      [ (ArchiveComparison.FROM_CSV, candidate_metrics 100 0);
        (ArchiveComparison.TESSERACT, candidate_metrics 100 0) ]
    = Some ArchiveComparison.FROM_CSV.
Proof. split; vm_compute; reflexivity. Qed.

(** ** Groups and the filename pattern *)

Section Filenames.
Context `{UD : UnicodeData}.

Lemma rmatch_no_groups ic r : ∀ st st',
  no_groups r = true → st' ∈ rmatch ic r st → m_groups st' = m_groups st.
Proof.
  induction r as [| neg items | | r1 IH1 r2 IH2 | r1 IH1 r2 IH2 | g lo hi r IH | i r IH
                 | | | | r IH]; intros st st' Hng Hin; cbn [rmatch] in Hin; simpl in Hng.
  - by apply elem_of_step_char in Hin as (c & rest & Hs & _ & ->).
  - by apply elem_of_step_char in Hin as (c & rest & Hs & _ & ->).
  - by apply list_elem_of_singleton in Hin as ->.
  - apply andb_true_iff in Hng as [H1 H2].
    apply list_elem_of_bind in Hin as (st1 & Hin2 & Hin1).
    rewrite (IH2 _ _ H2 Hin2). by apply IH1.
  - apply andb_true_iff in Hng as [H1 H2].
    apply elem_of_app in Hin as [Hin|Hin]; eauto.
  - apply (rep_loop_reach (λ a b, m_groups b = m_groups a)) in Hin;
      [done | done | congruence|].
    intros a b Hab. by apply IH.
  - done.
  - by apply elem_of_guard in Hin as [_ ->].
  - by apply elem_of_guard in Hin as [_ ->].
  - by apply elem_of_guard in Hin as [_ ->].
  - destruct (rmatch ic r st); [by apply elem_of_nil in Hin|].
    by apply list_elem_of_singleton in Hin as ->.
Qed.

Lemma no_groups_chars s : no_groups (seqs (lit1 <$> s)) = true.
Proof. induction s as [|c s IH]; simpl; [done|]. apply IH. Qed.

(** A repetition with a positive lower bound consumes something. *)
Lemma rep_loop_advances body greedy lo hi fuel st st' :
  (∀ a b, b ∈ body a → extends a b) →
  0 < lo →
  st' ∈ rep_loop body greedy lo hi fuel st →
  length (m_suf st') < length (m_suf st).
Proof.
  intros Hbody Hlo Hin. destruct fuel as [|fuel]; simpl in Hin; [by apply elem_of_nil in Hin|].
  destruct lo as [|lo]; [lia|].
  assert (st' ∈ body st ≫= (λ st1, if advanced st st1
            then rep_loop body greedy (Nat.pred (S lo)) (pred_opt hi) fuel st1 else [])) as H.
  { destruct hi as [[|n]|]; [by apply elem_of_nil in Hin | done | done]. }
  apply list_elem_of_bind in H as (st1 & H & Hst1).
  destruct (advanced st st1) eqn:Hadv; [|by apply elem_of_nil in H].
  apply Nat.ltb_lt in Hadv.
  apply (rep_loop_reach extends) in H; [|apply extends_refl | apply extends_trans | done].
  apply extends_length in H. lia.
Qed.

Lemma lazy_plus_advances ic r st st' :
  st' ∈ rmatch ic (lazy_plus r) st →
  extends st st' ∧ length (m_suf st') < length (m_suf st).
Proof.
  intros H. split; [by eapply rmatch_extends|].
  unfold lazy_plus in H. cbn [rmatch] in H.
  apply (rep_loop_advances (rmatch ic r)) in H; [done | apply rmatch_extends | lia].
Qed.

Lemma prefix_b_app sub b : prefix_b sub (sub ++ b) = true.
Proof. induction sub as [|c sub IH]; simpl; [done|]. by rewrite N.eqb_refl. Qed.

Lemma contains_app a sub b : contains sub (a ++ sub ++ b) = true.
Proof.
  induction a as [|c a IH].
  - simpl. destruct (sub ++ b) eqn:E.
    + destruct sub; [done | discriminate].
    + simpl. rewrite <- E, prefix_b_app. done.
  - simpl. rewrite IH. apply orb_true_r.
Qed.

(** What a match of the filename pattern of text_comparison.py tells about
    the name: a non-empty key, an underscore and one of the three suffixes. *)
Lemma group_key_match st' name :
  st' ∈ rmatch false TextComparison.GROUP_KEY_RE (MState [] name []) →
  ∃ key suffix rest,
    name = key ++ py "_" ++ suffix ++ rest
    ∧ key ≠ []
    ∧ suffix ∈ [py "tesseract_extraction"; py "pymupdf_extraction"; py "from_csv"]
    ∧ lookup_group 1 (m_groups st') = key.
Proof.
  unfold TextComparison.GROUP_KEY_RE. cbn [seqs foldr].
  intros (st1 & H1 & H)%elem_of_rmatch_seq.
  apply elem_of_rmatch_seq in H as (st2 & H2 & H).
  apply elem_of_rmatch_seq in H as (st3 & H3 & H).
  apply elem_of_rmatch_seq in H as (st4 & H4 & H).
  apply elem_of_rmatch_seq in H as (st5 & H5 & H).
  cbn [rmatch] in H. apply list_elem_of_singleton in H as ->.
  (* the key *)
  cbn [rmatch] in H1. apply list_elem_of_fmap in H1 as (st1' & -> & H1).
  pose proof (rmatch_no_groups false (lazy_plus RAny) _ _ eq_refl H1) as Hg1.
  apply lazy_plus_advances in H1 as [(key & Hkey & _) Hadv].
  cbn [m_suf m_groups] in Hkey, Hadv, Hg1.
  (* the underscore *)
  apply elem_of_rmatch_lit in H2 as (Hs2 & _ & Hg2). cbn [m_suf m_groups set_group] in Hs2, Hg2.
  (* the suffix *)
  cbn [rmatch] in H3. apply list_elem_of_fmap in H3 as (st3' & -> & H3).
  assert (∃ suffix, suffix ∈ [py "tesseract_extraction"; py "pymupdf_extraction"; py "from_csv"]
            ∧ m_suf st2 = suffix ++ m_suf st3' ∧ m_groups st3' = m_groups st2)
    as (suffix & Hsuffix & Hs3 & Hg3).
  { unfold alts in H3. cbn [foldl rmatch] in H3.
    apply elem_of_app in H3 as [H3|H3]; [apply elem_of_app in H3 as [H3|H3]|];
      apply elem_of_rmatch_lit in H3 as (Hs & _ & Hg); eexists; (split; [|split; [exact Hs|exact Hg]]).
    - by left.
    - right. by left.
    - right. right. by left. }
  (* the rest leaves the groups alone *)
  apply rmatch_no_groups in H4; [|done]. apply rmatch_no_groups in H5; [|done].
  exists key, suffix, (m_suf st3'). split; [|split; [|split]].
  - rewrite Hkey, Hs2, Hs3. done.
  - intros ->. simpl in Hkey. rewrite Hkey in Hadv. lia.
  - done.
  - rewrite H5, H4. cbn [m_groups set_group lookup_group Nat.eqb].
    rewrite Hg3, Hg2. cbn [lookup_group Nat.eqb].
    by apply extends_consumed.
Qed.

Lemma extract_group_key_Some name key :
  TextComparison.extract_group_key name = Some key →
  key ≠ [] ∧ has_recognized_suffix name = true
  ∧ is_Some (TextComparison.method_of_name name).
Proof.
  unfold TextComparison.extract_group_key, re_match.
  destruct (match_at false TextComparison.GROUP_KEY_RE false [] name) as [m|] eqn:E; [|done].
  intros [= <-]. unfold match_at in E.
  apply fmap_Some in E as (st' & Hhead & ->).
  apply head_Some_elem_of, list_elem_of_filter in Hhead as [_ Hin].
  apply group_key_match in Hin as (key & suffix & rest & Hname & Hne & Hsuffix & Hg).
  unfold group. simpl. rewrite Hg. split; [done|].
  assert (contains (py "_" ++ suffix) name = true) as Hc.
  { rewrite Hname, (app_assoc (py "_")). apply contains_app. }
  clear Hname.
  unfold has_recognized_suffix, recognized_suffixes, TextComparison.method_of_name.
  cbn [existsb].
  repeat (apply elem_of_cons in Hsuffix as [->|Hsuffix]);
    [| | |by apply elem_of_nil in Hsuffix].
  - change (py "_" ++ py "tesseract_extraction") with (py "_tesseract_extraction") in Hc.
    rewrite Hc. eauto.
  - change (py "_" ++ py "pymupdf_extraction") with (py "_pymupdf_extraction") in Hc.
    rewrite Hc. rewrite orb_true_r. split; [done|].
    destruct (contains (py "_tesseract_extraction") _); eauto.
  - change (py "_" ++ py "from_csv") with (py "_from_csv") in Hc.
    rewrite Hc. rewrite !orb_true_r. split; [done|].
    destruct (contains (py "_tesseract_extraction") _); [eauto|].
    destruct (contains (py "_pymupdf_extraction") _); eauto.
Qed.

Lemma no_suffix_no_key name :
  has_recognized_suffix name = false → TextComparison.extract_group_key name = None.
Proof.
  intros H. destruct (TextComparison.extract_group_key name) as [key|] eqn:E; [|done].
  apply extract_group_key_Some in E as (_ & E & _). congruence.
Qed.

End Filenames.

Section ArchiveFilenames.
Context `{UD : UnicodeData}.

Lemma elem_of_rmatch_chars_ci s : ∀ st st',
  st' ∈ rmatch true (seqs (lit1 <$> s)) st →
  ∃ w, m_suf st = w ++ m_suf st' ∧ length w = length s
       ∧ prefix_by same_ignoring_case s w = true.
Proof.
  induction s as [|c s IH]; intros st st' H.
  - simpl in H. apply list_elem_of_singleton in H as ->. by exists [].
  - change (seqs (lit1 <$> c :: s)) with (RSeq (lit1 c) (seqs (lit1 <$> s))) in H.
    apply elem_of_rmatch_seq in H as (st1 & H1 & H).
    apply IH in H as (w & Hw & Hlen & Hp).
    unfold lit1 in H1. cbn [rmatch] in H1.
    apply elem_of_step_char in H1 as (x & rest & Hs & Hx & ->). simpl in Hw.
    exists (x :: w). rewrite Hs, Hw. simpl. rewrite Hlen, Hp.
    unfold set_match in Hx. simpl in Hx. rewrite orb_false_r in Hx.
    unfold same_ignoring_case. by rewrite Hx.
Qed.

Lemma prefix_by_app R s1 s2 w1 rest :
  prefix_by R s1 w1 = true → length w1 = length s1 → prefix_by R s2 rest = true →
  prefix_by R (s1 ++ s2) (w1 ++ rest) = true.
Proof.
  revert w1. induction s1 as [|a s1 IH]; intros [|b w1] H1 Hlen H2; simpl in *; try done.
  apply andb_true_iff in H1 as [-> H1]. simpl. apply IH; [done | lia | done].
Qed.

Lemma prefix_by_weaken R s w rest :
  prefix_by R s w = true → prefix_by R s (w ++ rest) = true.
Proof.
  revert w. induction s as [|a s IH]; intros [|b w] H; simpl in *; try done.
  apply andb_true_iff in H as [-> H]. simpl. by apply IH.
Qed.

Lemma contains_by_app R sub a rest :
  prefix_by R sub rest = true → contains_by R sub (a ++ rest) = true.
Proof.
  intros H. induction a as [|c a IH]; simpl.
  - destruct rest; simpl; by rewrite H.
  - rewrite IH. apply orb_true_r.
Qed.

(** A match of the pattern of the archived script needs one of the three
    suffixes, in any case of the letters. *)
Lemma archive_pattern_match st' name :
  st' ∈ rmatch true ArchiveComparison._PATTERN (MState [] name []) →
  has_recognized_suffix_ci name = true.
Proof.
  unfold ArchiveComparison._PATTERN. cbn [seqs foldr].
  intros (st0 & H0 & H)%elem_of_rmatch_seq.
  cbn [rmatch] in H0. apply elem_of_guard in H0 as [_ ->].
  apply elem_of_rmatch_seq in H as (st1 & H1 & H).
  apply elem_of_rmatch_seq in H as (st2 & H2 & H).
  apply elem_of_rmatch_seq in H as (st3 & H3 & _).
  apply rmatch_extends in H1 as (key & Hkey & _). cbn [m_suf] in Hkey.
  apply elem_of_rmatch_chars_ci in H2 as (w1 & Hw1 & Hlen1 & Hp1).
  cbn [rmatch] in H3. apply list_elem_of_fmap in H3 as (st3' & _ & H3).
  assert (∃ suffix w2, suffix ∈ [py "from_csv"; py "pymupdf_extraction"; py "tesseract_extraction"]
            ∧ m_suf st2 = w2 ++ m_suf st3'
            ∧ prefix_by same_ignoring_case suffix w2 = true)
    as (suffix & w2 & Hsuffix & Hw2 & Hp2).
  { unfold alts in H3. cbn [foldl rmatch] in H3.
    apply elem_of_app in H3 as [H3|H3]; [apply elem_of_app in H3 as [H3|H3]|];
      apply elem_of_rmatch_chars_ci in H3 as (w2 & Hw2 & _ & Hp2);
      eexists _, w2; (split; [|split; [exact Hw2 | exact Hp2]]).
    - by left.
    - right. by left.
    - right. right. by left. }
  assert (contains_by same_ignoring_case (py "_" ++ suffix) name = true) as Hc.
  { rewrite Hkey, Hw1, Hw2. apply contains_by_app.
    rewrite app_assoc. apply prefix_by_weaken. by apply prefix_by_app. }
  clear -Hc Hsuffix.
  unfold has_recognized_suffix_ci, recognized_suffixes. cbn [existsb].
  repeat (apply elem_of_cons in Hsuffix as [->|Hsuffix]);
    [| | |by apply elem_of_nil in Hsuffix].
  - change (py "_" ++ py "from_csv") with (py "_from_csv") in Hc.
    rewrite Hc. by rewrite !orb_true_r.
  - change (py "_" ++ py "pymupdf_extraction") with (py "_pymupdf_extraction") in Hc.
    rewrite Hc. by rewrite !orb_true_r.
  - change (py "_" ++ py "tesseract_extraction") with (py "_tesseract_extraction") in Hc.
    by rewrite Hc.
Qed.

Lemma archive_no_suffix_no_match name :
  has_recognized_suffix_ci name = false →
  re_match true ArchiveComparison._PATTERN name = None.
Proof.
  intros H. unfold re_match.
  destruct (match_at true ArchiveComparison._PATTERN false [] name) as [m|] eqn:E; [|done].
  unfold match_at in E. apply fmap_Some in E as (st' & Hhead & ->).
  apply head_Some_elem_of, list_elem_of_filter in Hhead as [_ Hin].
  apply archive_pattern_match in Hin. congruence.
Qed.

End ArchiveFilenames.

(** C6: the grouping maps 2019-12-liberal_democrats_tesseract_extraction.txt
    to the document key 2019-12-liberal_democrats with the method
    tesseract_extraction, and 2019-12-liberal_democrats_from_csv.txt to the
    same key with the method from_csv; a filename without a recognized suffix
    yields no entry and is passed over.  Stated for the grouping of
    text_comparison.py and for that of the archived script, which files the
    optical method under the name tesseract. *)
Theorem filenames_grouped_by_key_and_method `{UD : UnicodeData} (ocr csv : str) :
  (TextComparison.extract_group_key (f_name (tesseract_file ocr))
     = Some (py "2019-12-liberal_democrats")
   ∧ TextComparison.method_of_name (f_name (tesseract_file ocr))
     = Some (py "tesseract_extraction")
   ∧ TextComparison.extract_group_key (f_name (from_csv_file csv))
     = Some (py "2019-12-liberal_democrats")
   ∧ TextComparison.method_of_name (f_name (from_csv_file csv)) = Some (py "from_csv")
   ∧ TextComparison.group_files [tesseract_file ocr; from_csv_file csv]
     = [ (py "2019-12-liberal_democrats",
          [ (py "tesseract_extraction", tesseract_file ocr);
            (py "from_csv", from_csv_file csv) ]) ]
   ∧ ∀ grouped f,
       has_recognized_suffix (f_name f) = false →
       TextComparison.extract_group_key (f_name f) = None
       ∧ TextComparison.add_file grouped f = grouped)
  ∧ ((λ m, (group m 1, group m 2))
       <$> re_match true ArchiveComparison._PATTERN (f_name (tesseract_file ocr))
     = Some (py "2019-12-liberal_democrats", py "tesseract_extraction")
     ∧ (λ m, (group m 1, group m 2))
         <$> re_match true ArchiveComparison._PATTERN (f_name (from_csv_file csv))
       = Some (py "2019-12-liberal_democrats", py "from_csv")
     ∧ ArchiveComparison._gather_files [tesseract_file ocr; from_csv_file csv]
       = [ (py "2019-12-liberal_democrats",
            [ (py "tesseract", tesseract_file ocr); (py "from_csv", from_csv_file csv) ]) ]
     ∧ ∀ groups f,
         has_recognized_suffix_ci (f_name f) = false →
         re_match true ArchiveComparison._PATTERN (f_name f) = None
         ∧ ArchiveComparison.gather_file groups f = groups).
Proof.
  split.
  - repeat (split; [vm_compute; reflexivity|]).
    intros grouped f H. apply no_suffix_no_key in H. split; [done|].
    unfold TextComparison.add_file. by rewrite H.
  - repeat (split; [vm_compute; reflexivity|]).
    intros groups f H. apply archive_no_suffix_no_match in H. split; [done|].
    unfold ArchiveComparison.gather_file. by rewrite H.
Qed.

(** A file of notes has no recognized suffix and is passed over by both
    scripts. *)
Lemma filenames_grouped_by_key_and_method_witness :
  (TextComparison.extract_group_key (UD := ascii_only) (py "notes.txt") = None
   ∧ TextComparison.add_file (UD := ascii_only) [] (File (py "notes.txt") []) = [])
  ∧ (re_match (UD := ascii_only) true ArchiveComparison._PATTERN (py "notes.txt") = None
     ∧ ArchiveComparison.gather_file (UD := ascii_only) [] (File (py "notes.txt") []) = []).
Proof.
  pose proof (filenames_grouped_by_key_and_method (UD := ascii_only) [] []) as [H1 H2].
  split.
  - apply (proj2 (proj2 (proj2 (proj2 (proj2 H1)))) [] (File (py "notes.txt") [])).
    vm_compute. reflexivity.
  - apply (proj2 (proj2 (proj2 H2)) [] (File (py "notes.txt") [])).
    vm_compute. reflexivity.
Defined.

(** ** The batch comparison *)

Section Batch.
Context `{UD : UnicodeData}.

(** *** text_comparison.py *)

Lemma add_file_keys grouped f key :
  key ∈ PyDict.keys (TextComparison.add_file grouped f) ↔
  TextComparison.extract_group_key (f_name f) = Some key ∨ key ∈ PyDict.keys grouped.
Proof.
  unfold TextComparison.add_file.
  destruct (TextComparison.extract_group_key (f_name f)) as [k|] eqn:E.
  - destruct (extract_group_key_Some _ _ E) as (Hne & _).
    destruct k as [|c k]; [done|]. rewrite dict_set_keys. split.
    + intros [->|?]; eauto.
    + intros [[= ->]|?]; eauto.
  - split; [eauto | by intros [?|?]].
Qed.

Lemma add_file_NoDup grouped f :
  NoDup (PyDict.keys grouped) → NoDup (PyDict.keys (TextComparison.add_file grouped f)).
Proof.
  intros H. unfold TextComparison.add_file.
  destruct (TextComparison.extract_group_key (f_name f)) as [[|c k]|]; try done.
  by apply dict_set_NoDup.
Qed.

Lemma group_files_keys files : ∀ grouped key,
  key ∈ PyDict.keys (foldl TextComparison.add_file grouped files) ↔
  (∃ f, f ∈ files ∧ TextComparison.extract_group_key (f_name f) = Some key)
  ∨ key ∈ PyDict.keys grouped.
Proof.
  induction files as [|x files IH]; intros grouped key; simpl.
  - split; [by right|]. intros [(f & ?%elem_of_nil & _)|?]; done.
  - rewrite IH, add_file_keys. split.
    + intros [(f & Hf & He)|[He|Hk]].
      * left. exists f. split; [by right | done].
      * left. exists x. split; [by left | done].
      * by right.
    + intros [(f & Hf & He)|Hk].
      * apply elem_of_cons in Hf as [->|Hf]; [right; by left|]. left. eauto.
      * right. by right.
Qed.

Lemma group_files_NoDup files : ∀ grouped,
  NoDup (PyDict.keys grouped) → NoDup (PyDict.keys (foldl TextComparison.add_file grouped files)).
Proof.
  induction files as [|x files IH]; intros grouped H; simpl; [done|].
  by apply IH, add_file_NoDup.
Qed.

Lemma rows_total {R} (process : str → PyDict.dict str file → option R) (name : R → str)
    (grouped : PyDict.dict str (PyDict.dict str file)) :
  (∀ key methods, (key, methods) ∈ grouped →
     ∃ row, process key methods = Some row ∧ name row = key) →
  ∃ rows, mapM (λ gm, process (fst gm) (snd gm)) grouped = Some rows
          ∧ name <$> rows = PyDict.keys grouped.
Proof.
  induction grouped as [|[key methods] grouped IH]; intros H.
  - exists []. done.
  - destruct (H key methods) as (row & Hrow & Hname); [by left|].
    destruct IH as (rows & Hrows & Hnames).
    { intros k ms Hin. apply H. by right. }
    exists (row :: rows). split.
    + cbn. cbn in Hrows. rewrite Hrow. simpl. by rewrite Hrows.
    + unfold PyDict.keys in *. rewrite !fmap_cons, Hname, Hnames. done.
Qed.

(** *** The archived script *)

Lemma dict_set_Forall {K V} `{EqDecision K} (P : V → Prop) (d : PyDict.dict K V) k v :
  Forall (λ kv, P (snd kv)) d → P v → Forall (λ kv, P (snd kv)) (PyDict.set k v d).
Proof.
  intros Hd Hv. induction Hd as [|[a b] d Hab Hd IH]; simpl.
  - by repeat constructor.
  - destruct (decide (k = a)); constructor; done.
Qed.

Lemma gather_file_keys groups f key :
  key ∈ PyDict.keys (ArchiveComparison.gather_file groups f) ↔
  archive_key f = Some key ∨ key ∈ PyDict.keys groups.
Proof.
  unfold ArchiveComparison.gather_file, archive_key.
  destruct (re_match true ArchiveComparison._PATTERN (f_name f)) as [m|]; simpl.
  - rewrite dict_set_keys. split.
    + intros [->|?]; eauto.
    + intros [[= ->]|?]; eauto.
  - split; [eauto | by intros [?|?]].
Qed.

Lemma gather_file_proper groups f :
  NoDup (PyDict.keys groups) ∧ Forall (λ gm, proper_group (snd gm)) groups →
  NoDup (PyDict.keys (ArchiveComparison.gather_file groups f))
  ∧ Forall (λ gm, proper_group (snd gm)) (ArchiveComparison.gather_file groups f).
Proof.
  intros [Hnd Hall]. unfold ArchiveComparison.gather_file.
  destruct (re_match true ArchiveComparison._PATTERN (f_name f)) as [m|]; [|done].
  split; [by apply dict_set_NoDup|].
  apply (dict_set_Forall proper_group); [done|]. split; [apply dict_set_nonempty|].
  apply dict_set_NoDup.
  destruct (PyDict.get (lower (group m 1)) groups) as [methods|] eqn:E; simpl.
  - apply dict_get_Some_elem in E. rewrite Forall_forall in Hall.
    by destruct (Hall _ E).
  - apply NoDup_nil_2.
Qed.

Lemma gather_files_keys files : ∀ groups key,
  key ∈ PyDict.keys (foldl ArchiveComparison.gather_file groups files) ↔
  (∃ f, f ∈ files ∧ archive_key f = Some key) ∨ key ∈ PyDict.keys groups.
Proof.
  induction files as [|x files IH]; intros groups key; simpl.
  - split; [by right|]. intros [(f & ?%elem_of_nil & _)|?]; done.
  - rewrite IH, gather_file_keys. split.
    + intros [(f & Hf & He)|[He|Hk]].
      * left. exists f. split; [by right | done].
      * left. exists x. split; [by left | done].
      * by right.
    + intros [(f & Hf & He)|Hk].
      * apply elem_of_cons in Hf as [->|Hf]; [right; by left|]. left. eauto.
      * right. by right.
Qed.

Lemma gather_files_proper files : ∀ groups,
  NoDup (PyDict.keys groups) ∧ Forall (λ gm, proper_group (snd gm)) groups →
  NoDup (PyDict.keys (foldl ArchiveComparison.gather_file groups files))
  ∧ Forall (λ gm, proper_group (snd gm)) (foldl ArchiveComparison.gather_file groups files).
Proof.
  induction files as [|x files IH]; intros groups H; simpl; [done|].
  by apply IH, gather_file_proper.
Qed.

Lemma insert_item_perm {V} (kv : str * V) l :
  ArchiveComparison.insert_item kv l ≡ₚ kv :: l.
Proof.
  induction l as [|x l IH]; simpl; [done|].
  destruct (ArchiveComparison.str_ltb (fst kv) (fst x)); [done|].
  rewrite IH. apply Permutation_swap.
Qed.

Lemma sorted_items_perm {V} (d : list (str * V)) : ArchiveComparison.sorted_items d ≡ₚ d.
Proof.
  unfold ArchiveComparison.sorted_items. induction d as [|x d IH]; simpl; [done|].
  by rewrite insert_item_perm, IH.
Qed.

Lemma archive_compare_folder_outcome files :
  let groups := ArchiveComparison._gather_files files in
  (groups = [] ∧ ArchiveComparison.compare_folder files = ArchiveComparison.FileNotFoundError)
  ∨ (groups ≠ []
     ∧ ∃ rows, ArchiveComparison.compare_folder files = ArchiveComparison.Written rows
               ∧ ArchiveComparison.r_source_id <$> rows
                 = PyDict.keys (ArchiveComparison.sorted_items groups)).
Proof.
  intros groups. unfold ArchiveComparison.compare_folder. fold groups.
  destruct (gather_files_proper files []) as [_ Hall].
  { split; [apply NoDup_nil_2 | constructor]. }
  fold (ArchiveComparison._gather_files files) in Hall. fold groups in Hall.
  destruct groups as [|gm groups'] eqn:E; [by left|]. right. split; [done|].
  destruct (rows_total ArchiveComparison.process_group ArchiveComparison.r_source_id
              (ArchiveComparison.sorted_items (gm :: groups'))) as (rows & -> & Hnames).
  { intros key methods Hin. rewrite sorted_items_perm in Hin.
    rewrite Forall_forall in Hall. destruct (Hall _ Hin) as [Hne Hnd].
    destruct (process_group_elects key methods Hne Hnd) as (row & _ & _ & _ & Hrow & Hid & _).
    eauto. }
  eauto.
Qed.

End Batch.

(** C8 fails for text_comparison.py: a folder whose only file,
    2019-12-labour_from_csv.txt, matches the pattern but is not valid UTF-8
    stops the batch with a UnicodeDecodeError, although a file matches; the
    archived script, which reads with errors="replace", completes and
    writes the row of the group. *)
Theorem undecodable_file_stops_the_batch :
  TextComparison.extract_group_key (UD := ascii_only) (f_name latin1_file)
  = Some (py "2019-12-labour")
  ∧ TextComparison.compare_folder (UD := ascii_only) [latin1_file]
    = TextComparison.Failed TextComparison.UnicodeDecodeError
  ∧ ∃ row,
      ArchiveComparison.compare_folder (UD := ascii_only) [latin1_file]
      = ArchiveComparison.Written [row]
      ∧ ArchiveComparison.r_source_id row = py "2019-12-labour"
      ∧ ArchiveComparison.r_recommended_file row = py "2019-12-labour_from_csv.txt".
Proof.
  split; [vm_compute; reflexivity|]. split; [vm_compute; reflexivity|].
  eexists. split; [vm_compute; reflexivity|]. split; reflexivity.
Qed.

(** A folder without a matching file: the failure. *)
Example batch_fails_on_unrelated_files :
  TextComparison.compare_folder (UD := ascii_only) [File (py "notes.txt") (py "todo")]
  = TextComparison.FileNotFoundError
  ∧ ArchiveComparison.compare_folder (UD := ascii_only) [File (py "notes.txt") (py "todo")]
    = ArchiveComparison.FileNotFoundError.
Proof. split; vm_compute; reflexivity. Qed.

(** ** Repeated headers and footers *)

Section Repetition.
Context `{UD : UnicodeData}.
Import TextCleaning.

(** The first loop counts, for each normalized form longer than 10
    characters, the lines that have it. *)
Lemma count_lines_spec lines : ∀ (line_counts : gmap str nat) n,
  default 0%nat (foldl count_line line_counts lines !! n)
  = (default 0%nat (line_counts !! n)
     + if (10 <? length n)%nat then occurrences n lines else 0)%nat.
Proof.
  induction lines as [|line lines IH]; intros line_counts n; simpl.
  - unfold occurrences. simpl. destruct (10 <? length n)%nat; lia.
  - rewrite IH. unfold occurrences. simpl. fold (normal_line line).
    unfold count_line. fold (normal_line line).
    destruct (decide (normal_line line = n)) as [<-|Hne].
    + rewrite bool_decide_eq_true_2 by done. simpl.
      destruct (10 <? length (normal_line line))%nat eqn:E.
      * rewrite lookup_insert_eq. simpl. rewrite <- Nat.add_assoc. f_equal.
      * lia.
    + rewrite bool_decide_eq_false_2 by done.
      destruct (10 <? length (normal_line line))%nat eqn:E; [|done].
      by rewrite lookup_insert_ne.
Qed.

(** One round of the second loop: a line is dropped exactly when its
    normalized form is long and counted more than twice; [seen_repetitive]
    only ever holds such forms. *)
Lemma filter_line_step (line_counts : gmap str nat) (filtered_lines : list str)
    (seen_repetitive : gset str) (line : str) :
  let repeated (n : str) := (2 <? default 0 (line_counts !! n))%nat && (10 <? length n)%nat in
  (∀ n, n ∈ seen_repetitive → repeated n = true) →
  ∃ seen',
    filter_line line_counts (filtered_lines, seen_repetitive) line
    = (filtered_lines ++ (if repeated (normal_line line) then [] else [line]), seen')
    ∧ ∀ n, n ∈ seen' → repeated n = true.
Proof.
  intros repeated Hseen. unfold filter_line. fold (normal_line line).
  destruct (bool_decide (normal_line line ∈ seen_repetitive)) eqn:Hin.
  - apply bool_decide_eq_true in Hin. pose proof (Hseen _ Hin) as Hb.
    rewrite Hb. unfold repeated in Hb. apply andb_true_iff in Hb as [-> ->]. simpl.
    exists seen_repetitive. by rewrite app_nil_r.
  - simpl. rewrite andb_true_r. fold (repeated (normal_line line)).
    destruct (repeated (normal_line line)) eqn:Hb.
    + exists ({[normal_line line]} ∪ seen_repetitive). rewrite app_nil_r. split; [done|].
      intros n [->%elem_of_singleton|Hn]%elem_of_union; [done | by apply Hseen].
    + by exists seen_repetitive.
Qed.

Lemma filter_lines_spec (line_counts : gmap str nat) lines :
  ∀ filtered_lines (seen_repetitive : gset str),
  (∀ n, n ∈ seen_repetitive →
     (2 <? default 0 (line_counts !! n))%nat && (10 <? length n)%nat = true) →
  fst (foldl (filter_line line_counts) (filtered_lines, seen_repetitive) lines)
  = filtered_lines
    ++ List.filter (λ line, negb ((2 <? default 0 (line_counts !! normal_line line))%nat
                                  && (10 <? length (normal_line line))%nat)) lines.
Proof.
  induction lines as [|line lines IH]; intros filtered_lines seen Hseen; cbn [foldl List.filter].
  - by rewrite app_nil_r.
  - destruct (filter_line_step line_counts filtered_lines seen line Hseen) as (seen' & -> & Hseen').
    rewrite IH by done. rewrite <- app_assoc. f_equal.
    by destruct ((2 <? default 0 (line_counts !! normal_line line))%nat
                 && (10 <? length (normal_line line))%nat).
Qed.

Lemma remove_header_footer_repetition_spec text :
  remove_header_footer_repetition text
  = join [NL] (List.filter (λ line, negb (is_boilerplate (split_on [NL] text) line))
                           (split_on [NL] text)).
Proof.
  unfold remove_header_footer_repetition.
  pose proof (filter_lines_spec (foldl count_line ∅ (split_on [NL] text))
                (split_on [NL] text) [] ∅) as H.
  destruct (foldl (filter_line _) ([], ∅) (split_on [NL] text)) as [filtered seen].
  simpl in H. rewrite H by (intros n ?; set_solver). f_equal.
  apply List_filter_ext_in. intros line _. f_equal.
  rewrite count_lines_spec, lookup_empty. simpl. unfold is_boilerplate.
  destruct (10 <? length (normal_line line))%nat; simpl; [by rewrite andb_true_r | done].
Qed.

End Repetition.

(** C7: the repeated header and footer removal removes every line whose
    trimmed, lower-cased form is longer than 10 characters and occurs more
    than twice in the document, at each of its occurrences, the first
    included, and keeps the other lines; a line HM Government that appears
    four times is removed four times. *)
Theorem repeated_lines_removed_everywhere `{UD : UnicodeData} :
  (∀ text,
     TextCleaning.remove_header_footer_repetition text
     = join [NL] (List.filter (λ line, negb (is_boilerplate (split_on [NL] text) line))
                              (split_on [NL] text)))
  ∧ TextCleaning.remove_header_footer_repetition government_document
    = join [NL] [py "We will cut tax."; py "We will build homes."; py "Thank you."].
Proof.
  split; [apply remove_header_footer_repetition_spec|].
  vm_compute. reflexivity.
Qed.

(** ** Substitution keeps the characters of the subject *)

Section Substitution.
Context `{UD : UnicodeData}.
Variable P : char → Prop.

Lemma rmatch_state_all ic r st st' :
  st' ∈ rmatch ic r st → state_all P st → state_all P st'.
Proof.
  revert st st'. apply (rmatch_reach (λ st st', state_all P st → state_all P st')).
  - done.
  - intros a b c Hab Hbc Ha. by apply Hbc, Hab.
  - intros st c rest Hs [Hsuf Hg]. split; [|done]. simpl.
    rewrite Hs in Hsuf. by inversion Hsuf.
  - intros i st st' Hst Hs. destruct (Hst Hs) as [Hsuf Hg]. split; [done|].
    simpl. constructor; [|done]. simpl. unfold consumed. apply Forall_take. by destruct Hs.
Qed.

Lemma match_at_all ic r must_advance pre suf m :
  Forall P suf → match_at ic r must_advance pre suf = Some m → match_all P m.
Proof.
  intros Hsuf H. unfold match_at in H. apply fmap_Some in H as (st' & Hhead & ->).
  apply head_Some_elem_of, list_elem_of_filter in Hhead as [_ Hin].
  assert (state_all P (MState pre suf [])) as Hstart by (split; [done | constructor]).
  split; [done|]. by eapply rmatch_state_all.
Qed.

Lemma scan_go_all ic r fuel : ∀ must_advance pre suf gap ms rest,
  Forall P suf → Forall P gap →
  scan_go ic r fuel must_advance pre suf gap = (ms, rest) →
  Forall (λ gm, Forall P (fst gm) ∧ match_all P (snd gm)) ms ∧ Forall P rest.
Proof.
  induction fuel as [|fuel IH]; intros must_advance pre suf gap ms rest Hsuf Hgap H;
    cbn [scan_go] in H.
  - injection H as <- <-. split; [constructor|]. apply Forall_app. split; [by apply Forall_rev | done].
  - destruct (match_at ic r must_advance pre suf) as [m|] eqn:Hm.
    + pose proof (match_at_all _ _ _ _ _ _ Hsuf Hm) as Hall.
      destruct (scan_go ic r fuel (is_empty_match m) (m_pre (mo_end m)) (m_suf (mo_end m)) [])
        as [ms' rest'] eqn:E.
      injection H as <- <-.
      apply IH in E as [Hms Hrest]; [|by destruct Hall as [_ [? _]] | constructor].
      split; [|done]. constructor; [|done]. split; [by apply Forall_rev | done].
    + destruct suf as [|c suf'].
      * injection H as <- <-. split; [constructor | by apply Forall_rev].
      * apply IH in H; [done | by inversion Hsuf | constructor; [by inversion Hsuf | done]].
Qed.

(** The result of [re.sub] consists of characters of the subject and of
    the replacements. *)
Lemma re_sub_all ic r repl s :
  Forall P s → (∀ m, match_all P m → Forall P (repl m)) → Forall P (re_sub ic r repl s).
Proof.
  intros Hs Hrepl. unfold re_sub, scan.
  destruct (scan_go _ _ _ _ _ _ _) as [ms rest] eqn:E.
  apply scan_go_all in E as [Hms Hrest]; [|done | constructor].
  apply Forall_app. split; [|done].
  apply Forall_concat, Forall_fmap. eapply Forall_impl; [exact Hms|].
  intros [gap m] [Hgap Hm]. simpl in *. apply Forall_app. split; [done | by apply Hrepl].
Qed.

Lemma group_all m i : match_all P m → Forall P (group m i).
Proof.
  intros [[Hs _] [_ Hg]]. destruct i as [|i]; simpl.
  - unfold consumed. by apply Forall_take.
  - induction Hg as [|[j g] gs Hj Hgs IH]; cbn [lookup_group]; [constructor|].
    destruct (Nat.eqb (S i) j); [exact Hj | exact IH].
Qed.

Lemma expand_all tpl m :
  Forall (λ p, match p with TLit s => Forall P s | TGroup _ => True end) tpl →
  match_all P m → Forall P (expand tpl m).
Proof.
  intros Htpl Hm. unfold expand. apply Forall_concat, Forall_fmap.
  eapply Forall_impl; [exact Htpl|]. intros [s|i] H; simpl; [done | by apply group_all].
Qed.

Lemma replace_go_all old new s : ∀ skip,
  Forall P s → Forall P new → Forall P (replace_go old new skip s).
Proof.
  induction s as [|c s IH]; intros skip Hs Hnew; simpl; [constructor|].
  inversion Hs; subst. destruct skip; [|by apply IH].
  destruct (prefix_b old (c :: s)).
  - apply Forall_app. split; [done | by apply IH].
  - constructor; [done | by apply IH].
Qed.

Lemma replace_all old new s : Forall P s → Forall P new → Forall P (replace old new s).
Proof. apply replace_go_all. Qed.

End Substitution.

(** Replacing a character by a text without it removes the character. *)
Lemma replace_char_gone a new s :
  a ∉ new → Forall (λ c, c ≠ a) (replace [a] new s).
Proof.
  intros Ha. unfold replace. induction s as [|c s IH]; simpl; [constructor|].
  destruct (N.eqb_spec a c) as [->|Hne]; simpl.
  - apply Forall_app. split; [|done]. apply Forall_forall. intros x Hx ->. done.
  - constructor; [congruence | done].
Qed.

(** ** The character substitution stage *)

Section CharacterStage.
Context `{UD : UnicodeData}.
Import TextCleaning.

Local Ltac literal :=
  repeat (constructor; [split; intros ?; discriminate|]); constructor.

Lemma table_removes_0_and_1 text :
  Forall not_0_or_1
    (foldl (λ text wr, replace (fst wr) (snd wr) text) text ocr_char_replacements).
Proof.
  cbn [foldl ocr_char_replacements fst snd].
  do 8 (apply replace_all; [|literal]).
  apply Forall_and. split.
  - apply (replace_all (λ c, c ≠ chr "0")).
    + apply (replace_char_gone (chr "0") (py "O")). by intros [?|?%elem_of_nil]%elem_of_cons.
    + by repeat constructor.
  - apply (replace_char_gone (chr "1") (py "l")). by intros [?|?%elem_of_nil]%elem_of_cons.
Qed.

Lemma sub_str_not_0_or_1 ic r (repl : string) text :
  Forall not_0_or_1 (py repl) → Forall not_0_or_1 text →
  Forall not_0_or_1 (sub_str ic r repl text).
Proof. intros Hrepl Htext. apply re_sub_all; [done|]. by intros m _. Qed.

Lemma fix_ocr_character_errors_no_0_or_1 text :
  Forall not_0_or_1 (fix_ocr_character_errors text).
Proof.
  unfold fix_ocr_character_errors.
  do 5 (apply sub_str_not_0_or_1; [literal|]).
  apply re_sub_all.
  - do 4 (apply sub_str_not_0_or_1; [literal|]). apply table_removes_0_and_1.
  - intros m Hm. apply expand_all; [|done]. repeat constructor; discriminate.
Qed.

End CharacterStage.

(** C10: the output of the character-level OCR substitution stage contains
    neither the digit 0 nor the digit 1, for every input text: the table
    replaces each 0 by O and each 1 by l, so that 2010 becomes 2OlO. *)
Theorem character_stage_leaves_no_0_or_1 `{UD : UnicodeData} :
  (∀ text, Forall not_0_or_1 (TextCleaning.fix_ocr_character_errors text))
  ∧ (∀ text, ¬ In (chr "0") (TextCleaning.fix_ocr_character_errors text)
             ∧ ¬ In (chr "1") (TextCleaning.fix_ocr_character_errors text))
  ∧ TextCleaning.fix_ocr_character_errors (py "2010") = py "2OlO"
  ∧ TextCleaning.fix_ocr_character_errors (py "In 2010 we had 10 MPs.")
    = py "In 2OlO we had lO MPs.".
Proof.
  split; [apply fix_ocr_character_errors_no_0_or_1|]. split.
  - intros text. pose proof (fix_ocr_character_errors_no_0_or_1 text) as H.
    rewrite Forall_forall in H.
    split; intros Hin%list_elem_of_In; by destruct (H _ Hin).
  - split; vm_compute; reflexivity.
Qed.

(** ** The whole pipeline *)

Lemma drop_while_head p s :
  match drop_while p s with
  | [] => True
  | c :: _ => p c = false
  end.
Proof.
  induction s as [|c s IH]; simpl; [done|]. destruct (p c) eqn:E; [done|]. by rewrite E.
Qed.

Lemma drop_while_fixed p s :
  match s with [] => True | c :: _ => p c = false end → drop_while p s = s.
Proof. destruct s as [|c s]; simpl; [done|]. by intros ->. Qed.

Lemma drop_while_suffix p s : ∃ a, s = a ++ drop_while p s.
Proof.
  induction s as [|c s [a IH]]; simpl; [by exists []|].
  destruct (p c); [|by exists []]. exists (c :: a). simpl. by rewrite <- IH.
Qed.

(** [strip] leaves no whitespace at either end, so a second [strip]
    changes nothing. *)
Lemma strip_idempotent s : strip (strip s) = strip s.
Proof.
  unfold strip.
  set (y := drop_while isspace s).
  set (z := drop_while isspace (rev y)).
  assert (drop_while isspace (rev z) = rev z) as ->.
  { apply drop_while_fixed.
    destruct (drop_while_suffix isspace (rev y)) as [a Ha]. fold z in Ha.
    apply (f_equal (@rev _)) in Ha. rewrite rev_involutive, rev_app_distr in Ha.
    pose proof (drop_while_head isspace s) as Hy. fold y in Hy.
    destruct (rev z) as [|c t]; [done|]. rewrite Ha in Hy. done. }
  rewrite rev_involutive.
  assert (drop_while isspace z = z) as ->; [|done].
  apply drop_while_fixed. apply (drop_while_head isspace (rev y)).
Qed.

Section Pipeline.
Context `{UD : UnicodeData}.
Import TextCleaning.


End Pipeline.



(** Tabs break idempotence as well: the tab becomes a space after the runs
    of spaces were collapsed. *)
Example clean_text_tab_not_idempotent :
  TextCleaning.clean_text (UD := ascii_only) (py "tax" ++ [TextCleaning.TAB] ++ py " cuts")
  = py "tax  cuts"
  ∧ TextCleaning.clean_text (UD := ascii_only) (py "tax  cuts") = py "tax cuts".
Proof. split; vm_compute; reflexivity. Qed.

(** ** Words and characters *)

Lemma sum_list_app l1 l2 :
  TextComparison.sum_list (l1 ++ l2)
  = (TextComparison.sum_list l1 + TextComparison.sum_list l2)%nat.
Proof. induction l1 as [|n l1 IH]; simpl; [done|]. rewrite IH. lia. Qed.

Lemma flush_lengths cur : TextComparison.sum_list (length <$> flush cur) = length cur.
Proof. destruct cur as [|c cur]; simpl; [done|]. rewrite length_app, length_rev. simpl. lia. Qed.

(** The words of [text.split()] hold the characters of the text that are
    not whitespace. *)
Lemma split_go_lengths s : ∀ cur,
  TextComparison.sum_list (length <$> split_go s cur)
  = (length cur + length (List.filter (λ c, negb (isspace c)) s))%nat.
Proof.
  induction s as [|c s IH]; intros cur; simpl.
  - rewrite flush_lengths. lia.
  - destruct (isspace c); simpl.
    + rewrite fmap_app, sum_list_app, flush_lengths, IH. reflexivity.
    + rewrite IH. simpl. by rewrite Nat.add_succ_r.
Qed.

Lemma words_le_lengths (words : list str) :
  Forall (λ w, w ≠ []) words →
  (length words ≤ TextComparison.sum_list (length <$> words))%nat.
Proof.
  induction 1 as [|w words Hw _ IH]; simpl; [done|].
  destruct w; [done|]. simpl. apply le_n_S. etrans; [apply IH|]. apply Nat.le_add_l.
Qed.

(** X1: the lengths of the words of a text add up to the number of its
    characters that are not whitespace.  So the average word length of both
    comparison scripts is that number over the word count (floored at 1),
    the word count is at most that number, which is at most the character
    count, and a text has no words exactly when it is all whitespace. *)
Theorem word_lengths_count_non_whitespace `{UD : UnicodeData} (text : str) :
  let non_whitespace := length (List.filter (λ c, negb (isspace c)) text) in
  TextComparison.average_word_length text
  = Some (Qnat non_whitespace / Qnat (Nat.max (TextComparison.word_count text) 1))%Q
  ∧ (∃ m, ArchiveComparison._compute_metrics text = Some m
        ∧ (ArchiveComparison.avg_word_length m
           == Qnat non_whitespace / Qnat (Nat.max (ArchiveComparison.word_count m) 1))%Q)
  ∧ (TextComparison.word_count text ≤ non_whitespace)%nat
  ∧ (non_whitespace ≤ TextComparison.character_count text)%nat
  ∧ (TextComparison.word_count text = 0%nat ↔ non_whitespace = 0%nat).
Proof.
  intros non_whitespace.
  assert (TextComparison.sum_list (length <$> split text) = non_whitespace) as Hsum.
  { unfold split. by rewrite split_go_lengths. }
  assert (TextComparison.word_count text ≤ non_whitespace)%nat as Hle.
  { rewrite <- Hsum. apply words_le_lengths, Forall_forall. intros w Hw.
    by apply split_words in Hw as [? _]. }
  split; [|split; [|split; [done|split]]].
  - unfold TextComparison.average_word_length. rewrite py_div_floored. by rewrite Hsum.
  - destruct (compute_metrics_total text) as (m & Hm & Hwc & _ & Havg & _).
    exists m. split; [done|]. rewrite Hwc, Havg.
    change (ArchiveComparison.sum_list (length <$> split text))
      with (TextComparison.sum_list (length <$> split text)).
    by rewrite Hsum.
  - apply length_List_filter.
  - split; [|lia]. unfold TextComparison.word_count. intros H0.
    rewrite <- Hsum. destruct (split text); [done | discriminate].
Qed.

(** ** The metrics of text_comparison.py *)

Section LiveMetrics.
Context `{UD : UnicodeData}.

Lemma step_char_nonempty p st :
  step_char p st ≠ [] ↔ ∃ c rest, m_suf st = c :: rest ∧ p c = true.
Proof.
  unfold step_char. destruct (m_suf st) as [|c rest].
  - split; [done|]. by intros (? & ? & ? & _).
  - destruct (p c) eqn:E.
    + split; [eauto | done].
    + split; [done|]. intros (? & ? & [= <- <-] & ?). congruence.
Qed.

(** [re.search(r'[^-]', word)] finds a character that is not a hyphen. *)
Lemma not_hyphen_search w :
  is_Some (re_search false (ncls [ch "-"]) w) ↔ ∃ c, c ∈ w ∧ c ≠ chr "-".
Proof.
  rewrite re_search_is_Some. split.
  - intros (a & b & -> & H). cbn [rmatch ncls] in H.
    apply step_char_nonempty in H as (c & rest & Hs & Hc). simpl in Hs. subst b.
    exists c. split; [set_solver|]. intros ->. done.
  - intros (c & [a [b ->]]%list_elem_of_split & Hc).
    exists a, (c :: b). split; [done|]. cbn [rmatch ncls].
    apply step_char_nonempty. exists c, b. split; [done|].
    unfold set_match. simpl. rewrite orb_false_r.
    by destruct (N.eqb_spec c (chr "-")).
Qed.

Lemma not_hyphen_search_bool w :
  bool_decide (is_Some (re_search false (ncls [ch "-"]) w))
  = negb (forallb (N.eqb (chr "-")) w).
Proof.
  destruct (forallb (N.eqb (chr "-")) w) eqn:E; simpl.
  - apply bool_decide_eq_false_2. rewrite not_hyphen_search. intros (c & Hc & Hne).
    rewrite forallb_forall in E. apply list_elem_of_In, E, N.eqb_eq in Hc. done.
  - apply bool_decide_eq_true_2, not_hyphen_search.
    apply not_true_iff_false in E. rewrite forallb_forall in E.
    destruct (decide (Exists (λ c, c ≠ chr "-") w)) as [Hex|Hno].
    + apply Exists_exists in Hex as (c & Hc & Hne). eauto.
    + exfalso. apply E. intros c Hc%list_elem_of_In. apply N.eqb_eq.
      destruct (decide (c = chr "-")) as [->|Hne]; [done|].
      exfalso. apply Hno, Exists_exists. eauto.
Qed.

Lemma List_filter_all {A} (p : A → bool) (l : list A) :
  (∀ x, x ∈ l → p x = true) → List.filter p l = l.
Proof.
  induction l as [|x l IH]; intros H; simpl; [done|].
  rewrite H by (by left). f_equal. apply IH. intros y Hy. apply H. by right.
Qed.

(** A text without hyphens has no word made of hyphens. *)
Lemma words_without_hyphen text w :
  has_char (chr "-") text = false → w ∈ split text →
  forallb (N.eqb (chr "-")) w = false.
Proof.
  intros Hno Hw.
  assert (∀ cur w x, w ∈ flush cur → x ∈ w → x ∈ cur) as Hflush.
  { clear. intros cur w x Hw Hx. destruct cur as [|y cur]; [by apply elem_of_nil in Hw|].
    apply list_elem_of_singleton in Hw as ->.
    by apply list_elem_of_In, in_rev, list_elem_of_In in Hx. }
  assert (∀ s cur w, w ∈ split_go s cur → ∀ c, c ∈ w → c ∈ cur ∨ c ∈ s) as Hsub.
  { clear -Hflush. induction s as [|c s IH]; intros cur w Hw x Hx; cbn [split_go] in Hw.
    - left. by eapply Hflush.
    - destruct (isspace c).
      + apply elem_of_app in Hw as [Hw|Hw]; [left; by eapply Hflush|].
        destruct (IH _ _ Hw x Hx) as [?%elem_of_nil|?]; [done|]. right. by right.
      + destruct (IH _ _ Hw x Hx) as [[->|?]%elem_of_cons|?]; [right; by left | by left|].
        right. by right. }
  destruct (split_words _ _ Hw) as [Hne _]. destruct w as [|c w]; [done|].
  destruct (Hsub _ _ _ Hw c) as [?%elem_of_nil|Hc]; [by left | done|].
  cbn [forallb]. destruct (N.eqb_spec (chr "-") c) as [<-|]; [|done]. exfalso.
  apply not_true_iff_false in Hno. apply Hno. unfold has_char.
  apply existsb_elem. exists (chr "-"). split; [done|]. apply N.eqb_refl.
Qed.

End LiveMetrics.

(** X2: the ocr_error_rate of text_comparison.py is the fraction of the
    words that are not made of hyphens alone (over a word count floored at
    1): its pattern [[^-]] finds a character in any other word.  For a text
    that has a word and no hyphen the rate is 1. *)
Theorem ocr_error_rate_counts_words_with_a_non_hyphen `{UD : UnicodeData} :
  (∀ text,
     TextComparison.ocr_error_rate text
     = Some (Qnat (length (List.filter (λ w, negb (forallb (N.eqb (chr "-")) w)) (split text)))
             / Qnat (Nat.max (TextComparison.word_count text) 1))%Q)
  ∧ (∀ text,
       has_char (chr "-") text = false → (0 < TextComparison.word_count text)%nat →
       ∃ e, TextComparison.ocr_error_rate text = Some e ∧ (e == 1)%Q).
Proof.
  assert (∀ text,
     TextComparison.ocr_error_rate text
     = Some (Qnat (length (List.filter (λ w, negb (forallb (N.eqb (chr "-")) w)) (split text)))
             / Qnat (Nat.max (TextComparison.word_count text) 1))%Q) as Hrate.
  { intros text. unfold TextComparison.ocr_error_rate, TextComparison.count_if.
    rewrite py_div_floored. do 4 f_equal.
    apply List_filter_ext_in. intros w _. apply not_hyphen_search_bool. }
  split; [done|]. intros text Hno Hpos. eexists. split; [apply Hrate|].
  rewrite List_filter_all.
  - unfold TextComparison.word_count in *. rewrite Nat.max_l by lia.
    apply Qmult_inv_r. intros H. apply (Qnat_pos _) in Hpos. rewrite H in Hpos.
    by apply Qlt_irrefl in Hpos.
  - intros w Hw. by rewrite (words_without_hyphen text w).
Qed.

Lemma ocr_error_rate_counts_words_with_a_non_hyphen_witness :
  ∃ e, TextComparison.ocr_error_rate (UD := ascii_only) (py "We will build homes.") = Some e
     ∧ (e == 1)%Q.
Proof.
  apply (proj2 (ocr_error_rate_counts_words_with_a_non_hyphen (UD := ascii_only))).
  - reflexivity.
  - vm_compute. lia.
Defined.

(** ** Counting with [re.findall] *)

Section Findall.
Context `{UD : UnicodeData}.

(** A pattern that is one character class finds the characters of the
    class, each on its own. *)
Lemma scan_go_class ic neg items fuel : ∀ must_advance pre suf gap,
  (length suf < fuel)%nat →
  length (fst (scan_go ic (RSet neg items) fuel must_advance pre suf gap))
  = length (List.filter (set_match ic neg items) suf).
Proof.
  induction fuel as [|fuel IH]; intros must_advance pre suf gap Hfuel; [lia|].
  cbn [scan_go]. unfold match_at. cbn [rmatch]. unfold step_char. cbn [m_suf m_pre m_groups].
  destruct suf as [|c suf]; [done|].
  simpl in Hfuel. cbn [List.filter].
  destruct (set_match ic neg items c) eqn:Hc.
  - rewrite filter_cons_True.
    2:{ right. unfold advanced. simpl. apply Nat.ltb_lt. lia. }
    cbn [head fmap option_fmap option_map mo_end m_pre m_suf].
    specialize (IH (is_empty_match (MatchObj (MState pre (c :: suf) [])
                                             (MState (c :: pre) suf []))) (c :: pre) suf []).
    destruct (scan_go _ _ _ _ _ _ _) as [ms rest]. simpl in *. f_equal. apply IH. lia.
  - cbn [filter list_filter head fmap option_fmap option_map]. apply IH. lia.
Qed.

Lemma findall_class ic neg items s :
  length (re_findall ic (RSet neg items) s) = length (List.filter (set_match ic neg items) s).
Proof.
  unfold re_findall, scan. rewrite length_fmap. apply scan_go_class. lia.
Qed.

End Findall.

(** X3: the sentence count of text_comparison.py is the number of the
    characters of the text that are a full stop, an exclamation mark or a
    question mark, each counted on its own; it is at most the character
    count and at most the count of punctuation_frequency. *)
Theorem sentence_count_counts_terminal_marks `{UD : UnicodeData} (text : str) :
  TextComparison.sentence_count text
  = length (List.filter (λ c, has_char c (py ".!?")) text)
  ∧ (TextComparison.sentence_count text ≤ TextComparison.character_count text)%nat
  ∧ TextComparison.sentence_count (text ++ py "...") = (TextComparison.sentence_count text + 3)%nat
  ∧ ∃ p, TextComparison.punctuation_frequency text = Some p
       ∧ (Qnat (TextComparison.sentence_count text)
          / Qnat (Nat.max (TextComparison.character_count text) 1) <= p)%Q.
Proof.
  assert (∀ t, TextComparison.sentence_count t
               = length (List.filter (λ c, has_char c (py ".!?")) t)) as Hcount.
  { intros t. unfold TextComparison.sentence_count. apply findall_class. }
  split; [apply Hcount|]. split; [|split].
  - rewrite Hcount. apply length_List_filter.
  - rewrite !Hcount, List.filter_app, length_app. reflexivity.
  - unfold TextComparison.punctuation_frequency, TextComparison.count_if,
      TextComparison.character_count.
    rewrite py_div_floored. eexists. split; [done|].
    rewrite Hcount. unfold Qdiv. apply Qmult_le_compat_r.
    + apply Qnat_le. clear. induction text as [|c text IH]; [done|].
      cbn [List.filter].
      destruct (has_char c (py ".!?")) eqn:E.
      * assert (has_char c (py ".,;:!?") = true) as ->.
        { unfold has_char in *.
          change (py ".!?") with [46; 33; 63]%N in E.
          change (py ".,;:!?") with [46; 44; 59; 58; 33; 63]%N.
          cbn [existsb] in *.
          by destruct (c =? 46)%N, (c =? 33)%N, (c =? 63)%N, (c =? 44)%N, (c =? 59)%N,
                      (c =? 58)%N. }
        simpl. by apply le_n_S.
      * destruct (has_char c (py ".,;:!?")); simpl; [by apply le_S | done].
    + apply Qinv_le_0_compat, Qnat_nonneg.
Qed.

(** ** The rows of text_comparison.py *)

Section LiveRows.
Context `{UD : UnicodeData}.
Import TextComparison.

Lemma measure_total text : ∃ ms, measure text = Some ms.
Proof.
  unfold measure, ocr_error_rate, average_word_length, punctuation_frequency.
  rewrite !py_div_floored. simpl. eauto.
Qed.

Lemma read_utf8 f : utf8 f = true → read f = inr (f_text f).
Proof. unfold utf8, read, read_strict, f_text. by destruct (f_contents f). Qed.

Lemma read_malformed f : utf8 f = false → read f = inl UnicodeDecodeError.
Proof. unfold utf8, read, read_strict. by destruct (f_contents f). Qed.

(** One round of the loop over [method_order]. *)
Lemma measure_method_cases (methods : PyDict.dict str file) m :
  (∃ f ms, PyDict.get m methods = Some f ∧ utf8 f = true
           ∧ measure_method methods m = inr (Some ms))
  ∨ (∃ f, PyDict.get m methods = Some f ∧ utf8 f = false
          ∧ measure_method methods m = inl UnicodeDecodeError)
  ∨ (PyDict.get m methods = None ∧ measure_method methods m = inr None).
Proof.
  unfold measure_method. destruct (PyDict.get m methods) as [f|]; [|by right; right].
  destruct (utf8 f) eqn:E.
  - left. destruct (measure_total (f_text f)) as [ms Hms]. exists f, ms.
    rewrite (read_utf8 f E). cbn. rewrite Hms. done.
  - right. left. exists f. by rewrite (read_malformed f E).
Qed.

(** The loop over [method_order] has an entry for each method, a value for
    the methods with a file and [None] for the others, unless a file is not
    valid UTF-8. *)
Lemma measures_spec (methods : PyDict.dict str file) :
  (∃ ms, mapM (measure_method methods) method_order = inr ms
       ∧ length ms = 3%nat
       ∧ (∀ i m, method_order !! i = Some m →
            ∃ v, ms !! i = Some v ∧ (is_Some v ↔ is_Some (PyDict.get m methods)))
       ∧ ∀ m f, m ∈ method_order → PyDict.get m methods = Some f → utf8 f = true)
  ∨ (mapM (measure_method methods) method_order = inl UnicodeDecodeError
     ∧ ∃ m f, m ∈ method_order ∧ PyDict.get m methods = Some f ∧ utf8 f = false).
Proof.
  assert (∀ m, m ∈ method_order →
            (∃ v, measure_method methods m = inr v
                  ∧ (is_Some v ↔ is_Some (PyDict.get m methods))
                  ∧ ∀ f, PyDict.get m methods = Some f → utf8 f = true)
            ∨ (measure_method methods m = inl UnicodeDecodeError
               ∧ ∃ f, PyDict.get m methods = Some f ∧ utf8 f = false)) as H.
  { intros m _.
    destruct (measure_method_cases methods m)
      as [(f & ms & Hf & Hu & ->)|[(f & Hf & Hu & ->)|[Hf ->]]].
    - left. eexists. split; [done|]. rewrite Hf. split; [split; eauto|].
      by intros ? [= <-].
    - right. eauto.
    - left. eexists. split; [done|]. rewrite Hf. split; [|done].
      split; intros [? [=]]. }
  unfold method_order in *. cbn [mapM].
  destruct (H FROM_CSV) as [(a & -> & Ha & Ua)|[-> (f & Hf & Hu)]]; [set_solver| |];
    [|right; split; [done|]; exists FROM_CSV, f; set_solver].
  destruct (H PYMUPDF_EXTRACTION) as [(b & -> & Hb & Ub)|[-> (f & Hf & Hu)]]; [set_solver| |];
    [|right; split; [done|]; exists PYMUPDF_EXTRACTION, f; set_solver].
  destruct (H TESSERACT_EXTRACTION) as [(c & -> & Hc & Uc)|[-> (f & Hf & Hu)]]; [set_solver| |];
    [|right; split; [done|]; exists TESSERACT_EXTRACTION, f; set_solver].
  left. exists [a; b; c]. split; [done|]. split; [done|]. split.
  - intros [|[|[|i]]] m [= <-]; simpl; eauto.
  - intros m f Hm Hf.
    repeat (apply elem_of_cons in Hm as [->|Hm]); [eauto | eauto | eauto |].
    by apply elem_of_nil in Hm.
Qed.

(** A method with all five metrics has a score; a method with none has
    no score. *)
Lemma method_score_all_or_none md i (wc cc er al pf : option num) :
  word_counts md !! i = Some wc → char_counts md !! i = Some cc →
  ocr_error_rates md !! i = Some er → avg_word_lengths md !! i = Some al →
  punctuation_freqs md !! i = Some pf →
  (is_Some wc ∧ is_Some cc ∧ is_Some er ∧ is_Some al ∧ is_Some pf →
   ∃ q, method_score md i = Some (Some q))
  ∧ (wc = None ∧ cc = None ∧ er = None ∧ al = None ∧ pf = None →
     method_score md i = Some None).
Proof.
  intros H1 H2 H3 H4 H5. unfold method_score. rewrite H1, H2, H3, H4, H5.
  cbn [mbind option_bind]. split.
  - intros ([x1 ->] & [x2 ->] & [x3 ->] & [x4 ->] & [x5 ->]).
    cbn [add_punct add_avg_len add_ocr add_char add_word fst snd]. eauto.
  - intros (-> & -> & -> & -> & ->). done.
Qed.

(** What the processing of a group gives: a row with a recommendation that
    names a method with a file, unless a file of the group is not valid
    UTF-8. *)
Lemma process_group_outcome key (methods : PyDict.dict str file) :
  (∃ row, process_group key methods = inr row
        ∧ r_group row = key
        ∧ (∀ m f, m ∈ method_order → PyDict.get m methods = Some f → utf8 f = true)
        ∧ ((∃ m, m ∈ method_order ∧ is_Some (PyDict.get m methods)) →
           ∃ m, m ∈ method_order ∧ is_Some (PyDict.get m methods)
                ∧ r_recommendation row = label_of m))
  ∨ (process_group key methods = inl UnicodeDecodeError
     ∧ ∃ m f, m ∈ method_order ∧ PyDict.get m methods = Some f ∧ utf8 f = false).
Proof.
  unfold process_group.
  destruct (measures_spec methods) as [(ms & -> & Hlen & Hms & Hutf)|[-> Hbad]];
    [|by right].
  left. cbn [mbind error_bind].
  set (md := MetricsDict (column m_word_count ms) (column m_char_count ms)
               (column m_ocr_error_rate ms) (column m_avg_word_length ms)
               (column m_punctuation_freq ms)).
  assert (complete_for 3 md) as Hcomplete.
  { unfold complete_for, md, column. cbn. by rewrite !length_fmap. }
  assert (∀ i m, method_order !! i = Some m →
            (is_Some (PyDict.get m methods) → ∃ q, method_score md i = Some (Some q))
            ∧ (¬ is_Some (PyDict.get m methods) → method_score md i = Some None)) as Hscore.
  { intros i m Hi. destruct (Hms i m Hi) as (v & Hv & Ev).
    destruct (method_score_all_or_none md i (m_word_count <$> v) (m_char_count <$> v)
                (m_ocr_error_rate <$> v) (m_avg_word_length <$> v)
                (m_punctuation_freq <$> v)) as [Hall Hnone];
      try (unfold md, column; cbn; by rewrite list_lookup_fmap, Hv).
    split.
    - intros Hf. apply Hall. apply Ev in Hf as [x ->]. repeat split; by eexists.
    - intros Hf. apply Hnone. destruct v as [x|]; [|done]. exfalso. apply Hf, Ev. eauto. }
  rewrite calculate_recommendation_available by done. cbn [try mbind error_bind mret error_ret].
  eexists. split; [done|]. split; [done|]. split; [done|].
  intros (m0 & Hm0 & Hf0). cbn [r_recommendation].
  destruct (recommendation_first_maximum md Hcomplete) as (w & m & qw & Hw' & Hsw & Hrec & _).
  { apply list_elem_of_lookup_1 in Hm0 as [i Hi].
    destruct (Hscore i m0 Hi) as [Hyes _]. destruct (Hyes Hf0) as [q Hq]. eauto. }
  rewrite calculate_recommendation_available in Hrec by done. injection Hrec as Hrec.
  exists m. split; [by eapply list_elem_of_lookup_2|]. split; [|done].
  destruct (decide (is_Some (PyDict.get m methods))) as [|Hno]; [done|].
  destruct (Hscore w m Hw') as [_ Hnone]. rewrite (Hnone Hno) in Hsw. done.
Qed.

(** The loop over the groups stops at the first group that fails. *)
Lemma rows_outcome (grouped : grouped_dict) :
  (∃ rows, mapM (λ gm, process_group (fst gm) (snd gm)) grouped = inr rows
         ∧ Forall2 (λ gm row, process_group (fst gm) (snd gm) = inr row) grouped rows)
  ∨ (∃ gm e, gm ∈ grouped ∧ process_group (fst gm) (snd gm) = inl e
           ∧ mapM (λ gm, process_group (fst gm) (snd gm)) grouped = inl e).
Proof.
  induction grouped as [|gm grouped IH].
  - left. exists []. split; [done | constructor].
  - cbn [mapM]. destruct (process_group (fst gm) (snd gm)) as [e|row] eqn:E.
    + right. exists gm, e. split; [by left | done].
    + destruct IH as [(rows & -> & Hrows)|(gm' & e & Hin & Hgm' & ->)].
      * left. exists (row :: rows). split; [done | by constructor].
      * right. exists gm', e. split; [by right | done].
Qed.

Lemma slot_of_method f key m :
  slot_of f = Some (key, m) → m ∈ method_order.
Proof.
  unfold slot_of, method_of_name, method_order.
  destruct (extract_group_key (f_name f)) as [[|c k]|]; try done.
  repeat (case_match; try done); intros [= <- <-]; set_solver.
Qed.

(** Every group that the grouping loop builds holds a file, and its files
    are files of the folder. *)
Lemma group_files_groups files key (methods : PyDict.dict str file) :
  (key, methods) ∈ group_files files →
  PyDict.get key (group_files files) = Some methods
  ∧ (∃ m, m ∈ method_order ∧ is_Some (PyDict.get m methods))
  ∧ ∀ m f, PyDict.get m methods = Some f → f ∈ files ∧ slot_of f = Some (key, m).
Proof.
  intros Hin.
  assert (PyDict.get key (group_files files) = Some methods) as Hget.
  { apply dict_get_NoDup; [|done]. apply group_files_NoDup, NoDup_nil_2. }
  split; [done|]. split.
  - assert (key ∈ PyDict.keys (group_files files)) as Hkey.
    { apply list_elem_of_fmap. by exists (key, methods). }
    apply group_files_keys in Hkey as [(f & Hf & Hk)|?%elem_of_nil]; [|done].
    destruct (extract_group_key_Some _ _ Hk) as (Hne & _ & [m Hm]).
    assert (slot_of f = Some (key, m)) as Hslot.
    { unfold slot_of. rewrite Hk, Hm. by destruct key. }
    destruct (lookup2_foldl_present files [] key m) as (f' & Hl & _); [by eauto|].
    fold (group_files files) in Hl. unfold lookup2 in Hl. rewrite Hget in Hl. simpl in Hl.
    exists m. split; [by eapply slot_of_method | by rewrite Hl].
  - intros m f Hm.
    destruct (lookup2_foldl_elem files [] key m f) as [?|Hnil]; [|done|done].
    fold (group_files files). unfold lookup2. by rewrite Hget.
Qed.

End LiveRows.

(** X4: every row that compare_folder of text_comparison.py writes
    recommends a method that has a file in the group of the row, a file of
    the folder filed under that group key; so the recommendation is one of
    from_csv, PyMuPDF and Tesseract and never "No data available". *)
Theorem recommendation_names_a_method_with_a_file `{UD : UnicodeData}
    (files : list file) (rows : list TextComparison.row) :
  TextComparison.compare_folder files = TextComparison.Written rows →
  Forall (λ row,
    ∃ m f, m ∈ TextComparison.method_order
         ∧ lookup2 (TextComparison.group_files files) (TextComparison.r_group row) m = Some f
         ∧ f ∈ files
         ∧ TextComparison.r_recommendation row = TextComparison.label_of m
         ∧ TextComparison.r_recommendation row ∈ [py "from_csv"; py "PyMuPDF"; py "Tesseract"])
    rows.
Proof.
  unfold TextComparison.compare_folder.
  destruct (TextComparison.group_files files) as [|gm grouped] eqn:E; [done|].
  rewrite <- E.
  destruct (rows_outcome (TextComparison.group_files files))
    as [(rows' & Hmap & Hrows)|(gm' & e & _ & _ & Hmap)]; rewrite Hmap; [|done].
  intros [= <-].
  apply Forall_forall. intros row Hin.
  apply list_elem_of_lookup_1 in Hin as [i Hi].
  destruct (Forall2_lookup_r _ _ _ _ _ Hrows Hi) as ([key methods] & Hgm & Hrow).
  apply list_elem_of_lookup_2 in Hgm as Hin.
  destruct (group_files_groups files key methods Hin) as (Hget & Hsome & Hfiles).
  simpl in Hrow.
  destruct (process_group_outcome key methods)
    as [(row' & Hrow' & Hkey & _ & Hnames)|[Hbad _]]; [|congruence].
  rewrite Hrow' in Hrow. injection Hrow as ->.
  destruct (Hnames Hsome) as (m & Hm & [f Hf] & Hrec). rewrite Hkey.
  exists m, f. split; [done|]. split; [unfold lookup2; by rewrite Hget|].
  split; [by apply (Hfiles m f)|]. split; [done|]. rewrite Hrec.
  unfold TextComparison.method_order in Hm.
  repeat (apply elem_of_cons in Hm as [->|Hm]); [| | |by apply elem_of_nil in Hm];
    vm_compute; set_solver.
Qed.

(** A folder with an optical and a native rendering of one document. *)
Lemma recommendation_names_a_method_with_a_file_witness :
  Forall (λ row,
    ∃ m f, m ∈ TextComparison.method_order
         ∧ lookup2 (TextComparison.group_files (UD := ascii_only)
                      [ File (py "2019-12-labour_tesseract_extraction.txt") (py "We w1ll bu1ld");
                        File (py "2019-12-labour_pymupdf_extraction.txt")
                             (py "We will build homes.") ])
                   (TextComparison.r_group row) m = Some f
         ∧ f ∈ [ File (py "2019-12-labour_tesseract_extraction.txt") (py "We w1ll bu1ld");
                 File (py "2019-12-labour_pymupdf_extraction.txt")
                      (py "We will build homes.") ]
         ∧ TextComparison.r_recommendation row = TextComparison.label_of m
         ∧ TextComparison.r_recommendation row ∈ [py "from_csv"; py "PyMuPDF"; py "Tesseract"])
    (match TextComparison.compare_folder (UD := ascii_only)
             [ File (py "2019-12-labour_tesseract_extraction.txt") (py "We w1ll bu1ld");
               File (py "2019-12-labour_pymupdf_extraction.txt")
                    (py "We will build homes.") ] with
     | TextComparison.Written rows => rows
     | _ => []
     end).
Proof.
  apply (recommendation_names_a_method_with_a_file (UD := ascii_only)).
  vm_compute. reflexivity.
Defined.

(** ** The selection stage and the labels of the comparison *)



(** ** The rows of the archived comparison *)

Section ArchiveRows.
Context `{UD : UnicodeData}.
Import ArchiveComparison.

Lemma str_ltb_trans a : ∀ b c, str_ltb a b = true → str_ltb b c = true → str_ltb a c = true.
Proof.
  induction a as [|x a IH]; intros [|y b] [|z c] Hab Hbc; simpl in *; try done.
  apply orb_true_iff in Hab as [Hxy|[Hxy Hab]%andb_true_iff];
    apply orb_true_iff in Hbc as [Hyz|[Hyz Hbc]%andb_true_iff];
    apply orb_true_iff.
  - left. apply N.ltb_lt in Hxy, Hyz. apply N.ltb_lt. lia.
  - left. apply N.eqb_eq in Hyz as <-. done.
  - left. apply N.eqb_eq in Hxy as ->. done.
  - right. apply N.eqb_eq in Hxy as ->. rewrite Hyz. simpl. by eapply IH.
Qed.

Lemma str_ltb_total a : ∀ b, a ≠ b → str_ltb a b = false → str_ltb b a = true.
Proof.
  induction a as [|x a IH]; intros [|y b] Hne Hab; simpl in *; try done.
  apply orb_false_iff in Hab as [Hxy Hab]. apply N.ltb_ge in Hxy.
  apply orb_true_iff.
  destruct (N.eqb_spec y x) as [->|Hyx].
  - right. rewrite N.eqb_refl in Hab. simpl in *.
    apply IH; [congruence | done].
  - left. apply N.ltb_lt. lia.
Qed.

Lemma insert_item_keys {V} (kv : str * V) l :
  PyDict.keys (insert_item kv l) ≡ₚ fst kv :: PyDict.keys l.
Proof. unfold PyDict.keys. by rewrite insert_item_perm. Qed.

Lemma insert_item_ascending {V} (kv : str * V) l :
  fst kv ∉ PyDict.keys l → ascending (PyDict.keys l) →
  ascending (PyDict.keys (insert_item kv l)).
Proof.
  induction l as [|kv' l IH]; intros Hfresh Hasc; simpl.
  - by split.
  - destruct (str_ltb (fst kv) (fst kv')) eqn:E; simpl.
    + destruct Hasc as [Hall Hasc]. split; [|done]. constructor; [done|].
      eapply Forall_impl; [exact Hall|]. intros k Hk. simpl in Hk. by eapply str_ltb_trans.
    + destruct Hasc as [Hall Hasc].
      assert (str_ltb (fst kv') (fst kv) = true) as Hlt.
      { apply str_ltb_total; [|done]. intros Heq. apply Hfresh. rewrite Heq. by left. }
      split.
      * fold (@PyDict.keys str V (insert_item kv l)).
        rewrite insert_item_keys. by constructor.
      * apply IH; [|done]. intros Hin. apply Hfresh. by right.
Qed.

(** [sorted] puts distinct keys in strictly ascending order. *)
Lemma sorted_items_ascending {V} (d : list (str * V)) :
  NoDup (PyDict.keys d) → ascending (PyDict.keys (sorted_items d)).
Proof.
  induction d as [|kv d IH]; intros Hnd; [done|].
  apply NoDup_cons in Hnd as [Hfresh Hnd]. cbn [sorted_items foldr].
  apply insert_item_ascending; [|by apply IH].
  fold (sorted_items d). unfold PyDict.keys in *. by rewrite sorted_items_perm.
Qed.

Lemma str_ltb_irrefl a : str_ltb a a = false.
Proof. induction a as [|x a IH]; simpl; [done|]. by rewrite N.ltb_irrefl, N.eqb_refl. Qed.

Lemma ascending_NoDup keys : ascending keys → NoDup keys.
Proof.
  induction keys as [|k keys IH]; intros Hasc; [constructor|].
  destruct Hasc as [Hall Hasc]. constructor; [|by apply IH].
  intros Hin. rewrite Forall_forall in Hall. specialize (Hall _ Hin).
  by rewrite str_ltb_irrefl in Hall.
Qed.

(** Two ascending lists with the same elements are equal. *)
Lemma ascending_unique l1 : ∀ l2,
  ascending l1 → ascending l2 → (∀ x, x ∈ l1 ↔ x ∈ l2) → l1 = l2.
Proof.
  induction l1 as [|k1 l1 IH]; intros [|k2 l2] H1 H2 Hsame.
  - done.
  - exfalso. eapply elem_of_nil, Hsame. by left.
  - exfalso. eapply elem_of_nil, Hsame. by left.
  - destruct H1 as [Hall1 H1], H2 as [Hall2 H2].
    rewrite Forall_forall in Hall1, Hall2.
    assert (k1 = k2) as <-.
    { assert (k1 ∈ k2 :: l2) as [?|Hin2]%elem_of_cons by (apply Hsame; by left); [done|].
      assert (k2 ∈ k1 :: l1) as [?|Hin1]%elem_of_cons by (apply Hsame; by left); [done|].
      pose proof (str_ltb_trans _ _ _ (Hall1 _ Hin1) (Hall2 _ Hin2)) as Hbad.
      by rewrite str_ltb_irrefl in Hbad. }
    f_equal. apply IH; [done | done|]. intros x. split; intros Hx.
    + assert (x ∈ k1 :: l2) as [->|?]%elem_of_cons by (apply Hsame; by right); [|done].
      specialize (Hall1 _ Hx). by rewrite str_ltb_irrefl in Hall1.
    + assert (x ∈ k1 :: l1) as [->|?]%elem_of_cons by (apply Hsame; by right); [|done].
      specialize (Hall2 _ Hx). by rewrite str_ltb_irrefl in Hall2.
Qed.

(** The source ids of the rows: ascending, and those of the files that
    match the pattern. *)
Lemma archive_rows_ids files rows :
  compare_folder files = Written rows →
  ascending (r_source_id <$> rows)
  ∧ ∀ key, key ∈ r_source_id <$> rows ↔ ∃ f, f ∈ files ∧ archive_key f = Some key.
Proof.
  intros Hrows.
  destruct (archive_compare_folder_outcome files) as [[_ Hc]|[_ (rows' & Hc & Hids)]];
    rewrite Hc in Hrows; [done|]. injection Hrows as <-. rewrite Hids.
  destruct (gather_files_proper files []) as [Hnd _].
  { split; [apply NoDup_nil_2 | constructor]. }
  split; [by apply sorted_items_ascending|].
  intros key. unfold PyDict.keys. rewrite sorted_items_perm.
  fold (PyDict.keys (_gather_files files)). unfold _gather_files.
  rewrite gather_files_keys. split; [|by left]. by intros [?|?%elem_of_nil].
Qed.

End ArchiveRows.

(** X6: the archived comparison writes its rows in strictly ascending
    order of source_id (the order of Python on strings, by code points), so
    that the order of the rows does not depend on the order in which the
    folder lists its files, and no source_id has two rows. *)
Theorem archive_rows_ascending `{UD : UnicodeData}
    (files : list file) (rows : list ArchiveComparison.row) :
  ArchiveComparison.compare_folder files = ArchiveComparison.Written rows →
  ascending (ArchiveComparison.r_source_id <$> rows)
  ∧ NoDup (ArchiveComparison.r_source_id <$> rows)
  ∧ ∀ files' rows',
      files ≡ₚ files' →
      ArchiveComparison.compare_folder files' = ArchiveComparison.Written rows' →
      ArchiveComparison.r_source_id <$> rows' = ArchiveComparison.r_source_id <$> rows.
Proof.
  intros Hrows. destruct (archive_rows_ids files rows Hrows) as [Hasc Hkeys].
  split; [done|]. split; [by apply ascending_NoDup|].
  intros files' rows' Hperm Hrows'.
  destruct (archive_rows_ids files' rows' Hrows') as [Hasc' Hkeys'].
  apply ascending_unique; [done | done|]. intros key. rewrite Hkeys, Hkeys'.
  split; intros (f & Hf & Hk); exists f; (split; [|done]); by rewrite ?Hperm in *.
Qed.

(** Two files listed in descending order of their names. *)
Lemma archive_rows_ascending_witness :
  ascending [py "2017-06-labour"; py "2019-12-labour"]
  ∧ NoDup [py "2017-06-labour"; py "2019-12-labour"].
Proof.
  pose proof (archive_rows_ascending (UD := ascii_only)
    [ File (py "2019-12-labour_from_csv.txt") (py "We will build homes.");
      File (py "2017-06-labour_from_csv.txt") (py "We will cut tax.") ]
    (match ArchiveComparison.compare_folder (UD := ascii_only)
       [ File (py "2019-12-labour_from_csv.txt") (py "We will build homes.");
         File (py "2017-06-labour_from_csv.txt") (py "We will cut tax.") ] with
     | ArchiveComparison.Written rows => rows
     | _ => []
     end)) as H.
  destruct H as (H1 & H2 & _); [vm_compute; reflexivity|].
  split; [exact H1 | exact H2].
Defined.

(** ** The recommended file of the archived comparison *)

Section ArchiveGroups.
Context `{UD : UnicodeData}.
Import ArchiveComparison.

Lemma dict_set_Forall_items {K V} `{EqDecision K} (R : K * V → Prop)
    (d : PyDict.dict K V) k v :
  Forall R d → R (k, v) → Forall R (PyDict.set k v d).
Proof.
  intros Hd Hv. induction Hd as [|[a b] d Hab Hd IH]; simpl.
  - by repeat constructor.
  - destruct (decide (k = a)) as [->|]; constructor; done.
Qed.

Lemma normalise_method_in_order raw : normalise_method raw ∈ _METHOD_ORDER.
Proof.
  unfold normalise_method, _METHOD_ORDER. repeat case_match; set_solver.
Qed.

Lemma gather_file_from files groups f :
  f ∈ files → Forall (gathered_from files) groups →
  Forall (gathered_from files) (gather_file groups f).
Proof.
  intros Hf Hall. unfold gather_file.
  destruct (re_match true _PATTERN (f_name f)) as [m|] eqn:Hm; [|done].
  apply dict_set_Forall_items; [done|]. unfold gathered_from. cbn [fst snd].
  apply dict_set_Forall_items.
  - destruct (PyDict.get (lower (group m 1)) groups) as [old|] eqn:Hold; [|constructor].
    apply dict_get_Some_elem in Hold. rewrite Forall_forall in Hall.
    apply (Hall _ Hold).
  - cbn [fst snd]. split; [apply normalise_method_in_order|]. split; [done|].
    unfold archive_key. by rewrite Hm.
Qed.

Lemma gather_files_from files : ∀ all groups,
  (∀ f, f ∈ files → f ∈ all) → Forall (gathered_from all) groups →
  Forall (gathered_from all) (foldl gather_file groups files).
Proof.
  induction files as [|f files IH]; intros all groups Hsub Hall; simpl; [done|].
  apply IH; [intros g Hg; apply Hsub; by right|].
  apply gather_file_from; [apply Hsub; by left | done].
Qed.

End ArchiveGroups.

(** X7: in every row that the archived comparison writes, the recommended
    file is a file of the folder whose name matches the pattern and gives
    the source_id of the row, filed under one of the three methods: a row
    never recommends a file of another document. *)
Theorem archive_recommended_file_is_of_its_group `{UD : UnicodeData}
    (files : list file) (rows : list ArchiveComparison.row) :
  ArchiveComparison.compare_folder files = ArchiveComparison.Written rows →
  Forall (λ row,
    ∃ m f, m ∈ ArchiveComparison._METHOD_ORDER
         ∧ f ∈ files
         ∧ archive_key f = Some (ArchiveComparison.r_source_id row)
         ∧ PyDict.get (ArchiveComparison.r_source_id row) (ArchiveComparison._gather_files files)
           ≫= PyDict.get m = Some f
         ∧ ArchiveComparison.r_recommended_file row = f_name f) rows.
Proof.
  unfold ArchiveComparison.compare_folder.
  destruct (ArchiveComparison._gather_files files) as [|gm groups] eqn:E; [done|].
  rewrite <- E.
  destruct (mapM _ _) as [rows'|] eqn:Hrows; [|done]. intros [= <-].
  apply mapM_Some in Hrows.
  apply Forall_forall. intros row Hin.
  apply list_elem_of_lookup_1 in Hin as [i Hi].
  destruct (Forall2_lookup_r _ _ _ _ _ Hrows Hi) as ([key methods] & Hgm & Hrow).
  apply list_elem_of_lookup_2 in Hgm as Hin. rewrite sorted_items_perm in Hin.
  destruct (gather_files_proper files []) as [Hnd Hproper].
  { split; [apply NoDup_nil_2 | constructor]. }
  fold (ArchiveComparison._gather_files files) in Hnd, Hproper.
  pose proof (gather_files_from files files [] (λ f Hf, Hf) (Forall_nil_2 _)) as Hfrom.
  fold (ArchiveComparison._gather_files files) in Hfrom.
  rewrite Forall_forall in Hproper, Hfrom.
  destruct (Hproper _ Hin) as [Hne Hnd'].
  destruct (process_group_elects key methods Hne Hnd')
    as (row' & best & f & ms & Hrow' & Hid & Hbest & _ & Hrec & _).
  simpl in Hrow. rewrite Hrow' in Hrow. injection Hrow as <-.
  specialize (Hfrom _ Hin). unfold gathered_from in Hfrom. rewrite Forall_forall in Hfrom.
  destruct (Hfrom _ Hbest) as (Hm & Hf & Hkey). simpl in *.
  exists best, f. rewrite Hid. split; [done|]. split; [done|]. split; [done|].
  split; [|done].
  rewrite (dict_get_NoDup _ _ _ Hnd Hin). simpl. by apply dict_get_NoDup.
Qed.

(** A folder with the files of two documents. *)
Lemma archive_recommended_file_is_of_its_group_witness :
  Forall (λ row,
    ∃ m f, m ∈ ArchiveComparison._METHOD_ORDER
         ∧ f ∈ [ File (py "2019-12-labour_from_csv.txt") (py "We will build homes.");
                 File (py "2017-06-labour_tesseract_extraction.txt") (py "We w1ll cut tax.") ]
         ∧ archive_key (UD := ascii_only) f = Some (ArchiveComparison.r_source_id row)
         ∧ PyDict.get (ArchiveComparison.r_source_id row)
             (ArchiveComparison._gather_files (UD := ascii_only)
                [ File (py "2019-12-labour_from_csv.txt") (py "We will build homes.");
                  File (py "2017-06-labour_tesseract_extraction.txt") (py "We w1ll cut tax.") ])
           ≫= PyDict.get m = Some f
         ∧ ArchiveComparison.r_recommended_file row = f_name f)
    (match ArchiveComparison.compare_folder (UD := ascii_only)
             [ File (py "2019-12-labour_from_csv.txt") (py "We will build homes.");
               File (py "2017-06-labour_tesseract_extraction.txt") (py "We w1ll cut tax.") ] with
     | ArchiveComparison.Written rows => rows
     | _ => []
     end).
Proof.
  apply (archive_recommended_file_is_of_its_group (UD := ascii_only)).
  vm_compute. reflexivity.
Defined.

(** ** Lines: [split('\n')] and ['\n'.join] *)

Lemma split_on_go_char a c s cur :
  split_on_go [a] 0 (c :: s) cur
  = if (a =? c)%N then rev cur :: split_on_go [a] 0 s [] else split_on_go [a] 0 s (c :: cur).
Proof. cbn [split_on_go prefix_b]. rewrite andb_true_r. done. Qed.

(** The pieces hold no separator. *)
Lemma split_on_go_pieces a s : ∀ cur,
  a ∉ cur → Forall (λ piece, a ∉ piece) (split_on_go [a] 0 s cur).
Proof.
  induction s as [|c s IH]; intros cur Hcur.
  - constructor; [|constructor]. by intros ?%list_elem_of_In%in_rev%list_elem_of_In.
  - rewrite split_on_go_char. destruct (N.eqb_spec a c) as [->|Hne].
    + constructor; [by intros ?%list_elem_of_In%in_rev%list_elem_of_In|].
      apply IH. by intros ?%elem_of_nil.
    + apply IH. by intros [?|?]%elem_of_cons.
Qed.

Lemma split_on_pieces a s : Forall (λ piece, a ∉ piece) (split_on [a] s).
Proof. apply split_on_go_pieces. by intros ?%elem_of_nil. Qed.

Lemma split_on_go_piece a l : ∀ cur rest,
  a ∉ l → split_on_go [a] 0 (l ++ rest) cur = split_on_go [a] 0 rest (rev l ++ cur).
Proof.
  induction l as [|c l IH]; intros cur rest Hl; [done|].
  cbn [app]. rewrite split_on_go_char.
  destruct (N.eqb_spec a c) as [->|Hne]; [exfalso; apply Hl; by left|].
  rewrite IH by (intros ?; apply Hl; by right).
  simpl. by rewrite <- app_assoc.
Qed.

(** Splitting what was joined gives the pieces back. *)
Lemma split_on_join a l ls :
  Forall (λ piece, a ∉ piece) (l :: ls) → split_on [a] (join [a] (l :: ls)) = l :: ls.
Proof.
  assert (∀ ls l cur, Forall (λ piece, a ∉ piece) (l :: ls) →
            split_on_go [a] 0 (join [a] (l :: ls)) cur = (rev cur ++ l) :: ls) as H.
  { clear. induction ls as [|l' ls IH]; intros l cur Hall.
    - cbn [join]. rewrite <- (app_nil_r l) at 1.
      rewrite split_on_go_piece by (by inversion Hall). simpl.
      by rewrite rev_app_distr, rev_involutive.
    - change (join [a] (l :: l' :: ls)) with (l ++ a :: join [a] (l' :: ls)).
      inversion Hall as [|? ? Hl Hall']; subst.
      rewrite split_on_go_piece by done. rewrite split_on_go_char, N.eqb_refl.
      rewrite rev_app_distr, rev_involutive. f_equal.
      rewrite (IH l' [] Hall'). done. }
  intros Hall. unfold split_on. by rewrite H.
Qed.

Lemma split_on_go_nonempty a s : ∀ cur, split_on_go [a] 0 s cur ≠ [].
Proof.
  induction s as [|c s IH]; intros cur; [done|].
  rewrite split_on_go_char. destruct (a =? c)%N; [done | apply IH].
Qed.

Lemma join_cons sep p ps : ps ≠ [] → join sep (p :: ps) = p ++ sep ++ join sep ps.
Proof. by destruct ps. Qed.

(** Joining what was split gives the text back. *)
Lemma join_split_on_go a s : ∀ cur, join [a] (split_on_go [a] 0 s cur) = rev cur ++ s.
Proof.
  induction s as [|c s IH]; intros cur.
  - simpl. by rewrite app_nil_r.
  - rewrite split_on_go_char. destruct (N.eqb_spec a c) as [->|Hne].
    + rewrite join_cons by apply split_on_go_nonempty. by rewrite IH.
    + rewrite IH. simpl. by rewrite <- app_assoc.
Qed.

Lemma join_split_on a s : join [a] (split_on [a] s) = s.
Proof. apply join_split_on_go. Qed.

Lemma elem_of_drop_while p s x : x ∈ drop_while p s → x ∈ s.
Proof.
  induction s as [|c s IH]; simpl; [done|]. destruct (p c); [|done].
  intros H. right. by apply IH.
Qed.

Lemma elem_of_strip s x : x ∈ strip s → x ∈ s.
Proof.
  unfold strip. intros H%list_elem_of_In%in_rev%list_elem_of_In.
  apply elem_of_drop_while in H. apply list_elem_of_In, in_rev, list_elem_of_In in H.
  by apply elem_of_drop_while in H.
Qed.

Lemma List_filter_idempotent {A} (p : A → bool) (l : list A) :
  List.filter p (List.filter p l) = List.filter p l.
Proof.
  induction l as [|x l IH]; simpl; [done|]. destruct (p x) eqn:E; simpl; [|done].
  by rewrite E, IH.
Qed.

(** A stage that maps the lines of a text, keeps some of them and joins
    them again does nothing more when applied twice. *)
Lemma line_filter_twice (keep : str → bool) (g : str → str) (stage : str → str) text :
  (∀ t, stage t = join [NL] (List.filter keep (g <$> split_on [NL] t))) →
  (∀ l, g (g l) = g l) → (∀ l, NL ∉ l → NL ∉ g l) → keep (g []) = false →
  stage (stage text) = stage text.
Proof.
  intros Hstage Hgg Hnl Hempty. rewrite (Hstage text).
  assert (Forall (λ l, (NL ∉ l) ∧ g l = l) (List.filter keep (g <$> split_on [NL] text))) as Hall.
  { apply Forall_forall. intros l [Hin _]%list_elem_of_In%filter_In.
    apply list_elem_of_In, list_elem_of_fmap in Hin as (l0 & -> & Hl0). split; [|done].
    apply Hnl. pose proof (split_on_pieces NL text) as Hp. rewrite Forall_forall in Hp. eauto. }
  destruct (List.filter keep (g <$> split_on [NL] text)) as [|l ls] eqn:E.
  - rewrite Hstage. simpl. by rewrite Hempty.
  - rewrite Hstage, split_on_join.
    2:{ eapply Forall_impl; [exact Hall|]. by intros ? [? _]. }
    assert (fmap g (l :: ls) = l :: ls) as ->.
    { clear -Hall. induction Hall as [|x xs [_ Hx] _ IH]; [done|]. cbn. by rewrite Hx, IH. }
    by rewrite <- E, List_filter_idempotent.
Qed.

(** ** Stages that filter lines *)

Section LineStages.
Context `{UD : UnicodeData}.
Import TextCleaning.

Lemma remove_excessive_whitespace_lines_twice text :
  remove_excessive_whitespace_lines (remove_excessive_whitespace_lines text)
  = remove_excessive_whitespace_lines text.
Proof.
  apply (line_filter_twice keep_nonblank id); [|done | done|].
  - intros t. by rewrite list_fmap_id.
  - vm_compute. reflexivity.
Qed.

Lemma remove_isolated_characters_twice text :
  remove_isolated_characters (remove_isolated_characters text)
  = remove_isolated_characters text.
Proof.
  apply (line_filter_twice keep_isolated strip); [done| | |].
  - apply strip_idempotent.
  - intros l Hl Hin. by apply Hl, elem_of_strip.
  - vm_compute. reflexivity.
Qed.

Lemma occurrences_filter n (p : str → bool) lines :
  (occurrences n (List.filter p lines) ≤ occurrences n lines)%nat.
Proof.
  unfold occurrences. induction lines as [|l lines IH]; simpl; [done|].
  destruct (p l); simpl; destruct (bool_decide (normal_line l = n)); simpl;
    auto using le_n_S, le_S.
Qed.

Lemma remove_header_footer_repetition_twice text :
  remove_header_footer_repetition (remove_header_footer_repetition text)
  = remove_header_footer_repetition text.
Proof.
  rewrite (remove_header_footer_repetition_spec (remove_header_footer_repetition text)).
  rewrite (remove_header_footer_repetition_spec text).
  set (lines := split_on [NL] text).
  set (kept := List.filter (λ line, negb (is_boilerplate lines line)) lines).
  assert (Forall (λ l, (NL ∉ l) ∧ is_boilerplate lines l = false) kept) as Hall.
  { apply Forall_forall. intros l [Hin Hk]%list_elem_of_In%filter_In. split.
    - pose proof (split_on_pieces NL text) as Hp. rewrite Forall_forall in Hp.
      by apply Hp, list_elem_of_In.
    - by apply negb_true_iff. }
  destruct kept as [|l ls] eqn:E.
  - vm_compute. reflexivity.
  - rewrite split_on_join by (eapply Forall_impl; [exact Hall|]; by intros ? [? _]).
    f_equal. rewrite <- E. apply List_filter_all. intros line Hline.
    rewrite E in Hline. rewrite Forall_forall in Hall. destruct (Hall _ Hline) as [_ Hb].
    apply negb_true_iff. unfold is_boilerplate in *.
    apply andb_false_iff in Hb as [Hb|Hb]; [by rewrite Hb|].
    rewrite andb_false_iff. right. apply Nat.ltb_ge. apply Nat.ltb_ge in Hb.
    etrans; [|exact Hb]. subst kept. apply occurrences_filter.
Qed.

End LineStages.

(** X8: the repeated header and footer removal is idempotent: what it
    returns holds no line that it would remove, so a second application
    changes nothing. *)
Theorem header_footer_removal_idempotent `{UD : UnicodeData} (text : str) :
  TextCleaning.remove_header_footer_repetition
    (TextCleaning.remove_header_footer_repetition text)
  = TextCleaning.remove_header_footer_repetition text.
Proof. apply remove_header_footer_repetition_twice. Qed.

(** X9: the removal of isolated characters is idempotent: its output is
    made of trimmed lines that it keeps. *)
Theorem isolated_character_removal_idempotent `{UD : UnicodeData} (text : str) :
  TextCleaning.remove_isolated_characters (TextCleaning.remove_isolated_characters text)
  = TextCleaning.remove_isolated_characters text.
Proof. apply remove_isolated_characters_twice. Qed.

(** X10: the removal of blank and repetitive-character lines is
    idempotent. *)
Theorem blank_line_removal_idempotent `{UD : UnicodeData} (text : str) :
  TextCleaning.remove_excessive_whitespace_lines
    (TextCleaning.remove_excessive_whitespace_lines text)
  = TextCleaning.remove_excessive_whitespace_lines text.
Proof. apply remove_excessive_whitespace_lines_twice. Qed.

(** ** Characters that the stages keep out *)

Section StageCharacters.
Context `{UD : UnicodeData}.
Variable P : char → Prop.
Import TextCleaning.

Lemma strip_all s : Forall P s → Forall P (strip s).
Proof.
  rewrite !Forall_forall. intros H x Hx. by apply H, elem_of_strip.
Qed.

Lemma split_on_go_all sep s : ∀ skip cur,
  Forall P s → Forall P cur → Forall (Forall P) (split_on_go sep skip s cur).
Proof.
  induction s as [|c s IH]; intros skip cur Hs Hcur; cbn [split_on_go].
  - constructor; [by apply Forall_rev | constructor].
  - inversion Hs; subst. destruct skip; [|by apply IH].
    destruct (prefix_b sep (c :: s)).
    + constructor; [by apply Forall_rev|]. by apply IH.
    + apply IH; [done | by constructor].
Qed.

Lemma split_on_all sep s : Forall P s → Forall (Forall P) (split_on sep s).
Proof. intros Hs. by apply split_on_go_all. Qed.

Lemma join_all sep pieces :
  Forall P sep → Forall (Forall P) pieces → Forall P (join sep pieces).
Proof.
  intros Hsep. induction 1 as [|p ps Hp Hps IH]; [constructor|].
  destruct ps as [|q ps]; [done|]. cbn [join].
  apply Forall_app. split; [done|]. apply Forall_app. by split.
Qed.

Lemma List_filter_all_of {A} (Q : A → Prop) (p : A → bool) l :
  Forall Q l → Forall Q (List.filter p l).
Proof.
  induction 1 as [|x l Hx Hl IH]; simpl; [constructor|].
  destruct (p x); [by constructor | done].
Qed.

Hypothesis P_later : ∀ c, later_literal c = true → P c.

Lemma later_literals (s : string) : forallb later_literal (py s) = true → Forall P (py s).
Proof.
  intros H. apply Forall_forall. intros c Hc. apply P_later.
  rewrite forallb_forall in H. by apply H, list_elem_of_In.
Qed.

Lemma sub_str_later ic r (repl : string) text :
  forallb later_literal (py repl) = true → Forall P text → Forall P (sub_str ic r repl text).
Proof.
  intros Hrepl Htext. apply re_sub_all; [done|]. intros m _. by apply later_literals.
Qed.

Lemma sub_tpl_later ic r tpl text :
  Forall (λ p, match p with
               | TLit s => forallb later_literal s = true
               | TGroup _ => True
               end) tpl →
  Forall P text → Forall P (sub_tpl ic r tpl text).
Proof.
  intros Htpl Htext. apply re_sub_all; [done|]. intros m Hm. apply expand_all; [|done].
  eapply Forall_impl; [exact Htpl|]. intros [s|i] H; [|done].
  apply Forall_forall. intros c Hc. apply P_later.
  rewrite forallb_forall in H. by apply H, list_elem_of_In.
Qed.

Lemma remove_noise_patterns_all text : Forall P text → Forall P (remove_noise_patterns text).
Proof.
  unfold remove_noise_patterns. generalize noise_patterns. intros patterns. revert text.
  induction patterns as [|r patterns IH]; intros text Htext; simpl; [done|].
  apply IH, re_sub_all; [done|]. intros; constructor.
Qed.

Lemma fix_fragmented_text_all text : Forall P text → Forall P (fix_fragmented_text text).
Proof.
  intros Htext. unfold fix_fragmented_text.
  do 3 (apply sub_tpl_later; [by repeat constructor|]).
  assert (Forall (λ ff, forallb later_literal (py (snd ff)) = true) term_fixes) as Hfix.
  { by repeat constructor. }
  revert text Htext. induction Hfix as [|ff fixes Hff _ IH]; intros text Htext; simpl; [done|].
  by apply IH, sub_str_later.
Qed.

Lemma fix_punctuation_spacing_all text :
  Forall P text → Forall P (fix_punctuation_spacing text).
Proof.
  intros Htext. unfold fix_punctuation_spacing.
  do 4 (apply re_sub_all; [|intros; repeat constructor; by apply P_later]).
  do 3 (apply sub_tpl_later; [by repeat constructor|]). done.
Qed.

Lemma remove_isolated_characters_all text :
  Forall P text → Forall P (remove_isolated_characters text).
Proof.
  intros Htext. unfold remove_isolated_characters.
  apply join_all; [repeat constructor; by apply P_later|].
  apply List_filter_all_of, Forall_fmap.
  eapply Forall_impl; [by apply split_on_all|]. intros l Hl. by apply strip_all.
Qed.

Lemma fix_word_breaks_all text : Forall P text → Forall P (fix_word_breaks text).
Proof.
  intros Htext. unfold fix_word_breaks. apply re_sub_all.
  - by apply sub_tpl_later; [repeat constructor|].
  - intros m Hm. case_match; [by apply group_all|].
    apply Forall_app. split; by apply group_all.
Qed.

Lemma remove_excessive_whitespace_lines_all text :
  Forall P text → Forall P (remove_excessive_whitespace_lines text).
Proof.
  intros Htext. unfold remove_excessive_whitespace_lines.
  apply join_all; [repeat constructor; by apply P_later|].
  by apply List_filter_all_of, split_on_all.
Qed.

Lemma remove_header_footer_repetition_all text :
  Forall P text → Forall P (remove_header_footer_repetition text).
Proof.
  intros Htext. rewrite remove_header_footer_repetition_spec.
  apply join_all; [repeat constructor; by apply P_later|].
  by apply List_filter_all_of, split_on_all.
Qed.

Lemma add_line_all acc raw :
  Forall (Forall P) (fst acc) ∧ Forall P (snd acc) → Forall P raw →
  Forall (Forall P) (fst (add_line acc raw)) ∧ Forall P (snd (add_line acc raw)).
Proof.
  destruct acc as [fixed_lines current_sentence]. intros [Hf Hc] Hraw.
  pose proof (strip_all raw Hraw) as Hline. unfold add_line.
  destruct (strip raw) as [|c line] eqn:E; [done|].
  destruct (last_char current_sentence) as [e|]; [|done].
  case_match; simpl.
  - split; [done|]. apply Forall_app. split; [done|]. constructor; [by apply P_later | done].
  - split; [|done]. apply Forall_app. split; [done|]. by repeat constructor.
Qed.

Lemma fix_paragraph_all paragraph :
  Forall P paragraph → Forall (Forall P) (fix_paragraph paragraph).
Proof.
  intros Hp. unfold fix_paragraph. destruct (strip paragraph); [constructor|].
  assert (∀ (lines : list str) (acc : list str * str),
            Forall (Forall P) lines →
            Forall (Forall P) (fst acc) ∧ Forall P (snd acc) →
            Forall (Forall P) (fst (foldl add_line acc lines))
            ∧ Forall P (snd (foldl add_line acc lines))) as Hfold.
  { induction lines as [|l lines IH]; intros acc Hl Hacc; simpl; [done|].
    inversion Hl; subst. apply IH; [done|]. by apply add_line_all. }
  destruct (Hfold (split_on [NL] paragraph) ([], [])) as [Hf Hc];
    [by apply split_on_all | by split; constructor|].
  destruct (foldl add_line ([], []) (split_on [NL] paragraph)) as [fixed_lines current].
  simpl in *.
  assert (∀ lines : list str, Forall (Forall P) lines →
            Forall (Forall P) (match lines with [] => [] | _ => [join [NL] lines] end)) as Hj.
  { intros lines Hl. destruct lines; [constructor|]. constructor; [|constructor].
    apply join_all; [|done]. repeat constructor; by apply P_later. }
  destruct current as [|c cur]; [by apply Hj|].
  apply (Hj (fixed_lines ++ [c :: cur])).
  apply Forall_app. split; [done|]. constructor; [done | constructor].
Qed.

Lemma fix_broken_sentences_all text : Forall P text → Forall P (fix_broken_sentences text).
Proof.
  intros Htext. unfold fix_broken_sentences.
  apply join_all; [repeat constructor; by apply P_later|].
  pose proof (split_on_all [NL; NL] text Htext) as Hpars.
  induction Hpars as [|p ps Hp _ IH]; [constructor|].
  cbn. apply Forall_app. split; [by apply fix_paragraph_all | done].
Qed.

Lemma join_marks_all lines : Forall (Forall P) lines → Forall (Forall P) (join_marks lines).
Proof.
  induction 1 as [|raw rest Hraw Hrest IH]; cbn [join_marks]; [constructor|].
  constructor; [|done]. pose proof (strip_all raw Hraw) as Hline.
  destruct (strip raw) as [|c line] eqn:E; [constructor|].
  destruct rest as [|next rest']; [done|].
  destruct (last_char (c :: line)); [|done]. case_match; [|done].
  apply Forall_app. split; [done|]. repeat constructor. by apply P_later.
Qed.

(** [normalize_spacing] besides leaves no tab. *)
Lemma normalize_spacing_all text :
  Forall P text → Forall (λ c, P c ∧ c ≠ TAB) (normalize_spacing text).
Proof.
  intros Htext. unfold normalize_spacing. apply Forall_and. split.
  - apply join_all; [repeat constructor; by apply P_later|].
    apply join_marks_all, split_on_all, re_sub_all.
    + apply replace_all; [|repeat constructor; by apply P_later].
      by apply sub_str_later.
    + intros; repeat constructor; by apply P_later.
  - assert (∀ s, Forall (λ c, c ≠ TAB) s → Forall (λ c, c ≠ TAB) (strip s)) as Hstrip.
    { intros s. rewrite !Forall_forall. intros H x Hx. by apply H, elem_of_strip. }
    assert (∀ lines, Forall (Forall (λ c, c ≠ TAB)) lines →
                     Forall (Forall (λ c, c ≠ TAB)) (join_marks lines)) as Hmarks.
    { induction 1 as [|raw rest Hraw Hrest IH]; cbn [join_marks]; [constructor|].
      constructor; [|done]. pose proof (Hstrip raw Hraw) as Hline.
      destruct (strip raw) as [|c line] eqn:E; [constructor|].
      destruct rest as [|next rest']; [done|].
      destruct (last_char (c :: line)); [|done]. case_match; [|done].
      apply Forall_app. split; [done|]. by repeat constructor. }
    assert (∀ sep s, Forall (λ c, c ≠ TAB) s →
                     Forall (Forall (λ c, c ≠ TAB)) (split_on sep s)) as Hsplit.
    { intros sep s Hs. unfold split_on.
      assert (∀ skip cur, Forall (λ c, c ≠ TAB) s → Forall (λ c, c ≠ TAB) cur →
                Forall (Forall (λ c, c ≠ TAB)) (split_on_go sep skip s cur)) as Hgo.
      { clear. induction s as [|c s IH]; intros skip cur Hs Hcur; cbn [split_on_go].
        - constructor; [by apply Forall_rev | constructor].
        - inversion Hs; subst. destruct skip; [|by apply IH].
          destruct (prefix_b sep (c :: s)).
          + constructor; [by apply Forall_rev|]. by apply IH.
          + apply IH; [done | by constructor]. }
      by apply Hgo. }
    assert (∀ pieces, Forall (Forall (λ c, c ≠ TAB)) pieces →
                      Forall (λ c, c ≠ TAB) (join [NL] pieces)) as Hjoin.
    { induction 1 as [|p ps Hp Hps IH]; [constructor|].
      destruct ps as [|q ps]; [done|]. cbn [join].
      apply Forall_app. split; [done|]. by constructor. }
    apply Hjoin, Hmarks, Hsplit, re_sub_all.
    + apply (replace_char_gone TAB [SPACE]). by intros [?|?%elem_of_nil]%elem_of_cons.
    + intros; by repeat constructor.
Qed.

(** The stages after the character substitution keep out what they find
    kept out. *)
Lemma later_stages_all text :
  Forall P text →
  Forall (λ c, P c ∧ c ≠ TAB)
    (strip (re_sub false PARAGRAPH_BREAKS (λ _, [NL; NL])
       (normalize_spacing (fix_broken_sentences (remove_header_footer_repetition
          (remove_excessive_whitespace_lines (fix_word_breaks (remove_isolated_characters
             (fix_punctuation_spacing (fix_fragmented_text
                (remove_noise_patterns text))))))))))).
Proof.
  intros Htext.
  assert (∀ s, Forall (λ c, P c ∧ c ≠ TAB) s → Forall (λ c, P c ∧ c ≠ TAB) (strip s)) as Hstrip.
  { intros s. rewrite !Forall_forall. intros H x Hx. by apply H, elem_of_strip. }
  apply Hstrip, re_sub_all.
  - apply normalize_spacing_all, fix_broken_sentences_all, remove_header_footer_repetition_all,
      remove_excessive_whitespace_lines_all, fix_word_breaks_all,
      remove_isolated_characters_all, fix_punctuation_spacing_all, fix_fragmented_text_all,
      remove_noise_patterns_all, Htext.
  - intros. repeat constructor; try done; by apply P_later.
Qed.

End StageCharacters.

Section Pipeline2.
Context `{UD : UnicodeData}.
Import TextCleaning.

Lemma in_range_spec lo hi c : in_range lo hi c = true ↔ (lo ≤ c ∧ c ≤ hi)%N.
Proof. unfold in_range. rewrite andb_true_iff, !N.leb_le. done. Qed.

Lemma has_char_elem c s : has_char c s = true ↔ c ∈ s.
Proof.
  unfold has_char. rewrite existsb_elem. split.
  - by intros (x & Hx & ->%N.eqb_eq).
  - intros Hc. exists c. split; [done | apply N.eqb_refl].
Qed.

Lemma ascii_letter_printable c : ascii_letter c = true → in_range 32 126 c = true.
Proof.
  unfold ascii_letter, ascii_upper, ascii_lower.
  rewrite orb_true_iff, !in_range_spec. lia.
Qed.

Lemma later_literal_printable c :
  later_literal c = true → c = NL ∨ in_range 32 126 c = true.
Proof.
  unfold later_literal. intros [H|H]%orb_true_iff.
  - right. by apply ascii_letter_printable.
  - apply has_char_elem in H.
    repeat (apply elem_of_cons in H as [->|H]); [right | left | right | right | right|];
      try done. by apply elem_of_nil in H.
Qed.

Lemma substitution_literal_printable c :
  substitution_literal c = true → in_range 32 126 c = true.
Proof.
  unfold substitution_literal. intros [H|H]%orb_true_iff.
  - by apply ascii_letter_printable.
  - apply has_char_elem in H. change (py "!?,.-") with [33; 63; 44; 46; 45]%N in H.
    repeat (apply elem_of_cons in H as [->|H]); try done. by apply elem_of_nil in H.
Qed.

(** The character substitution keeps out what it finds kept out, when the
    characters that it writes are. *)
Lemma fix_ocr_character_errors_all (P : char → Prop) text :
  (∀ c, substitution_literal c = true → P c) →
  Forall P text → Forall P (fix_ocr_character_errors text).
Proof.
  intros HP Htext.
  assert (∀ s : string, forallb substitution_literal (py s) = true → Forall P (py s)) as Hlit.
  { intros s H. apply Forall_forall. intros c Hc. apply HP.
    rewrite forallb_forall in H. by apply H, list_elem_of_In. }
  unfold fix_ocr_character_errors.
  do 5 (apply re_sub_all; [|intros; by apply Hlit]).
  apply re_sub_all.
  - do 4 (apply re_sub_all; [|intros; by apply Hlit]).
    assert (Forall (λ wr : str * str, forallb substitution_literal (snd wr) = true)
                   ocr_char_replacements) as Htable by (by repeat constructor).
    revert text Htext. induction Htable as [|wr table Hwr _ IH]; intros text Htext; [done|].
    cbn [foldl]. apply IH, replace_all; [done|].
    apply Forall_forall. intros c Hc. apply HP.
    rewrite forallb_forall in Hwr. by apply Hwr, list_elem_of_In.
  - intros m Hm. apply expand_all; [|done].
    constructor; [done|]. constructor; [|constructor]. by apply (Hlit "I"%string).
Qed.

(** After the replacement table none of the replaced characters is left. *)
Lemma table_removes_replaced text k :
  k ∈ replaced_characters →
  Forall (λ c, c ≠ k)
    (foldl (λ text wr, replace (fst wr) (snd wr) text) text ocr_char_replacements).
Proof.
  intros Hk. cbn [foldl ocr_char_replacements fst snd].
  unfold replaced_characters in Hk.
  repeat (apply elem_of_cons in Hk as [->|Hk]); [..|by apply elem_of_nil in Hk];
    repeat first
      [ by (apply (replace_char_gone _ _); intros [?|?%elem_of_nil]%elem_of_cons)
      | apply replace_all; [|by repeat constructor] ].
Qed.

Lemma fix_ocr_character_errors_replaced text :
  Forall (λ c, c ∉ replaced_characters) (fix_ocr_character_errors text).
Proof.
  assert (∀ k, k ∈ replaced_characters →
               Forall (λ c, c ≠ k) (fix_ocr_character_errors text)) as H.
  { intros k Hk. unfold fix_ocr_character_errors.
    assert (∀ s : string, forallb later_literal (py s) = true → Forall (λ c, c ≠ k) (py s))
      as Hlit.
    { intros s Hs. apply Forall_forall. intros c Hc ->.
      rewrite forallb_forall in Hs. apply list_elem_of_In, Hs in Hc.
      unfold replaced_characters in Hk.
      repeat (apply elem_of_cons in Hk as [->|Hk]); try done. by apply elem_of_nil in Hk. }
    do 5 (apply re_sub_all; [|intros; by apply Hlit]).
    apply re_sub_all.
    - do 4 (apply re_sub_all; [|intros; by apply Hlit]). by apply table_removes_replaced.
    - intros m Hm. apply expand_all; [|done].
      constructor; [done|]. constructor; [|constructor]. by apply (Hlit "I"%string). }
  apply Forall_forall. intros c Hc Hin. specialize (H c Hin).
  rewrite Forall_forall in H. by apply (H c Hc).
Qed.

(** After the first stage no zero-width character is left. *)
Lemma normalize_unicode_visible text :
  Forall (λ c, (has_char c [NL; TAB] = true ∨ category_C c = false) ∧ c ∉ invisible_chars)
         (normalize_unicode text).
Proof.
  unfold normalize_unicode. apply Forall_and. split.
  - apply Forall_forall. intros c [_ Hc]%list_elem_of_In%filter_In.
    apply orb_true_iff in Hc as [?|?%negb_true_iff]; eauto.
  - apply List_filter_all_of.
    assert (∀ k, k ∈ invisible_chars →
              Forall (λ c, c ≠ k)
                (foldl (λ text char, replace [char] [] text) (nfkc text) invisible_chars)) as H.
    { intros k Hk. cbn [foldl invisible_chars]. unfold invisible_chars in Hk.
      repeat (apply elem_of_cons in Hk as [->|Hk]); [..|by apply elem_of_nil in Hk];
        repeat first
          [ by (apply (replace_char_gone _ _); intros ?%elem_of_nil)
          | apply replace_all; [|by constructor] ]. }
    apply Forall_forall. intros c Hc Hin. specialize (H c Hin).
    rewrite Forall_forall in H. by apply (H c Hc).
Qed.

Lemma printable_visible c :
  in_range 32 126 c = true →
  category_C c = false ∧ (c ∉ invisible_chars) ∧ c ≠ TAB.
Proof.
  intros H%in_range_spec. split; [|split].
  - unfold category_C, is_ascii.
    assert ((c <? 128)%N = true) as -> by (apply N.ltb_lt; lia).
    apply orb_false_iff. split; [apply N.ltb_ge; lia | apply N.eqb_neq; lia].
  - unfold invisible_chars. intros Hin.
    repeat (apply elem_of_cons in Hin as [->|Hin]); try lia. by apply elem_of_nil in Hin.
  - intros ->. unfold TAB in H. lia.
Qed.

End Pipeline2.

(** X11: the cleaned text holds none of the characters that the
    replacement table of the character substitution replaces by another
    character (the pipe, the digits 0 and 1, the full-width marks, the en
    and em dashes): no later stage writes one of them, so that a digit 0
    or 1 of the input never reaches the cleaned text. *)
Theorem clean_text_has_no_replaced_character `{UD : UnicodeData} (text : str) :
  Forall (λ c, c ∉ replaced_characters) (TextCleaning.clean_text text).
Proof.
  unfold TextCleaning.clean_text.
  eapply Forall_impl;
    [apply (later_stages_all (λ c, c ∉ replaced_characters))|by intros c [? _]].
  - intros c Hc Hin. unfold replaced_characters in Hin.
    repeat (apply elem_of_cons in Hin as [->|Hin]); try done. by apply elem_of_nil in Hin.
  - apply fix_ocr_character_errors_replaced.
Qed.

(** X12: the cleaned text holds no tab, no zero-width character and no
    control or format character (Unicode category C) other than the line
    feed. *)
Theorem clean_text_has_no_control_character `{UD : UnicodeData} (text : str) :
  Forall (λ c, c ≠ TextCleaning.TAB
               ∧ (c ∉ TextCleaning.invisible_chars)
               ∧ (c = NL ∨ category_C c = false)) (TextCleaning.clean_text text).
Proof.
  unfold TextCleaning.clean_text.
  eapply Forall_impl;
    [apply (later_stages_all
              (λ c, (has_char c [NL; TextCleaning.TAB] = true ∨ category_C c = false)
                    ∧ c ∉ TextCleaning.invisible_chars))|].
  - intros c [->|Hc]%later_literal_printable.
    + split; [by left|]. unfold TextCleaning.invisible_chars. intros Hin.
      repeat (apply elem_of_cons in Hin as [?|Hin]); try done. by apply elem_of_nil in Hin.
    + destruct (printable_visible c Hc) as (? & ? & ?). split; [by right | done].
  - apply fix_ocr_character_errors_all; [|apply normalize_unicode_visible].
    intros c Hc%substitution_literal_printable.
    destruct (printable_visible c Hc) as (? & ? & ?). split; [by right | done].
  - intros c [[[Hc|Hc] Hv] Ht]; (split; [done|]); (split; [done|]); [|by right].
    apply has_char_elem in Hc.
    repeat (apply elem_of_cons in Hc as [->|Hc]); [by left | done | by apply elem_of_nil in Hc].
Qed.

(** ** From a key to a file name and back *)

Section RoundTrip.
Context `{UD : UnicodeData}.

(** A lazy repetition of a one-character pattern offers the positions
    after it from left to right. *)
Lemma lazy_walk (body : mstate → list mstate) k : ∀ fuel pre rest g,
  (∀ p c s, c ∈ k → body (MState p (c :: s) g) = [MState (c :: p) s g]) →
  length (k ++ rest) < fuel →
  ∃ l1 l2,
    rep_loop body false 0 None fuel (MState pre (k ++ rest) g)
    = l1 ++ MState (rev k ++ pre) rest g :: l2
    ∧ ∀ st, st ∈ l1 →
        ∃ a b, k = a ++ b ∧ b ≠ [] ∧ st = MState (rev a ++ pre) (b ++ rest) g.
Proof.
  induction k as [|c k IH]; intros fuel pre rest g Hbody Hfuel.
  - destruct fuel as [|fuel]; [simpl in Hfuel; lia|]. cbn [rep_loop].
    eexists [], _. split; [done|]. by intros st ?%elem_of_nil.
  - destruct fuel as [|fuel]; [simpl in Hfuel; lia|]. cbn [rep_loop app].
    rewrite Hbody by (by left). cbn [mbind list_bind].
    unfold advanced. cbn [m_suf].
    assert ((length (k ++ rest) <? length (c :: k ++ rest)) = true) as ->
      by (apply Nat.ltb_lt; simpl; lia).
    destruct (IH fuel (c :: pre) rest g) as (l1 & l2 & Heq & Hl1).
    { intros p c' s Hc'. apply Hbody. by right. }
    { simpl in Hfuel. lia. }
    cbn [Nat.pred pred_opt fmap option_fmap option_map]. rewrite Heq.
    exists (MState pre (c :: k ++ rest) g :: l1), (l2 ++ []). split.
    + cbn [rev]. rewrite <- (app_assoc (rev k) [c] pre). simpl. by rewrite <- app_assoc.
    + intros st [->|Hst]%elem_of_cons.
      * by exists [], (c :: k).
      * destruct (Hl1 st Hst) as (a & b & -> & Hb & ->). exists (c :: a), b.
        split; [done|]. split; [done|]. cbn [rev]. by rewrite <- (app_assoc (rev a) [c] pre).
Qed.

(** [.+?] at the start of a line. *)
Lemma lazy_plus_any_walk c k rest g :
  NL ∉ c :: k →
  ∃ l1 l2,
    rmatch false (lazy_plus RAny) (MState [] (c :: k ++ rest) g)
    = l1 ++ MState (rev k ++ [c]) rest g :: l2
    ∧ ∀ st, st ∈ l1 →
        ∃ a b, k = a ++ b ∧ b ≠ [] ∧ st = MState (rev a ++ [c]) (b ++ rest) g.
Proof.
  intros Hnl.
  assert (∀ p x s, x ∈ c :: k →
            rmatch false RAny (MState p (x :: s) g) = [MState (x :: p) s g]) as Hbody.
  { intros p x s Hx. cbn [rmatch]. unfold step_char. cbn [m_suf m_pre m_groups].
    assert (x ≠ NL) as Hne by (by intros ->). apply N.eqb_neq in Hne. by rewrite Hne. }
  change (rmatch false (lazy_plus RAny) (MState [] (c :: k ++ rest) g))
    with (rep_loop (rmatch false RAny) false 1 None (S (length (c :: k ++ rest)))
            (MState [] (c :: k ++ rest) g)).
  generalize dependent (rmatch false RAny). intros body Hbody.
  cbn [rep_loop]. rewrite Hbody by (by left). cbn [mbind list_bind].
  unfold advanced. cbn [m_suf].
  assert ((length (k ++ rest) <? length (c :: k ++ rest)) = true) as ->
    by (apply Nat.ltb_lt; simpl; lia).
  cbn [Nat.pred pred_opt fmap option_fmap option_map].
  destruct (lazy_walk body k (length (c :: k ++ rest)) [c] rest g) as (l1 & l2 & -> & Hl1).
  { intros p x s Hx. apply Hbody. by right. }
  { simpl. lia. }
  exists l1, (l2 ++ []). split; [by rewrite <- app_assoc | done].
Qed.

Lemma elem_of_rmatch_opt ic r st x :
  x ∈ rmatch ic (opt r) st → x = st ∨ x ∈ rmatch ic r st.
Proof.
  unfold opt. cbn [rmatch rep_loop]. intros [H|H]%elem_of_app.
  - right. apply list_elem_of_bind in H as (st' & H & Hst').
    destruct (advanced st st'); [|by apply elem_of_nil in H].
    destruct (length (m_suf st)); cbn [rep_loop pred_opt fmap option_fmap option_map Nat.pred] in H;
      [by apply elem_of_nil in H|].
    simpl in H. by apply list_elem_of_singleton in H as ->.
  - left. by apply list_elem_of_singleton in H.
Qed.

(** What a match of the rest of the pattern consumes. *)
Lemma group_key_tail_match st x :
  x ∈ rmatch false GROUP_KEY_TAIL st →
  ∃ suffix cleaned,
    suffix ∈ [py "tesseract_extraction"; py "pymupdf_extraction"; py "from_csv"]
    ∧ cleaned ∈ [[]; py "_cleaned"]
    ∧ m_suf st = py "_" ++ suffix ++ cleaned ++ py ".txt" ++ m_suf x.
Proof.
  unfold GROUP_KEY_TAIL. cbn [seqs foldr].
  intros (st2 & H2 & H)%elem_of_rmatch_seq.
  apply elem_of_rmatch_seq in H as (st3 & H3 & H).
  apply elem_of_rmatch_seq in H as (st4 & H4 & H).
  apply elem_of_rmatch_seq in H as (st5 & H5 & H).
  cbn [rmatch] in H. apply list_elem_of_singleton in H as ->.
  apply elem_of_rmatch_lit in H2 as (Hs2 & _ & _).
  cbn [rmatch] in H3. apply list_elem_of_fmap in H3 as (st3' & -> & H3).
  assert (∃ suffix, suffix ∈ [py "tesseract_extraction"; py "pymupdf_extraction"; py "from_csv"]
            ∧ m_suf st2 = suffix ++ m_suf st3') as (suffix & Hsuffix & Hs3).
  { unfold alts in H3. cbn [foldl rmatch] in H3.
    apply elem_of_app in H3 as [H3|H3]; [apply elem_of_app in H3 as [H3|H3]|];
      apply elem_of_rmatch_lit in H3 as (Hs & _ & _); eexists; (split; [|exact Hs]).
    - by left.
    - right. by left.
    - right. right. by left. }
  assert (∃ cleaned, cleaned ∈ [[]; py "_cleaned"] ∧ m_suf st3' = cleaned ++ m_suf st4)
    as (cleaned & Hcleaned & Hs4).
  { apply elem_of_rmatch_opt in H4 as [->|H4].
    - exists []. split; [by left | done].
    - apply elem_of_rmatch_lit in H4 as (Hs & _ & _). exists (py "_cleaned").
      split; [right; by left | exact Hs]. }
  apply elem_of_rmatch_lit in H5 as (Hs5 & _ & _).
  exists suffix, cleaned. split; [done|]. split; [done|].
  cbn [m_suf set_group] in *. by rewrite Hs2, Hs3, Hs4, Hs5.
Qed.

(** A text that starts after the beginning of one literal cannot continue
    with another, when no proper end of the one starts the other. *)
Lemma no_overlap (W W' u z : str) (dot : char) :
  forallb (λ i, negb (prefix_b (drop i W') W)) (seq 1 (length W' - 1)) = true →
  dot ∈ W' → dot ∉ u → u ≠ [] → u ++ W = W' ++ z → False.
Proof.
  intros Hcheck Hdot Hu Hne Heq.
  destruct (decide (length u < length W')) as [Hlt|Hge].
  - rewrite forallb_forall in Hcheck.
    assert (negb (prefix_b (drop (length u) W') W) = true) as Hi.
    { apply Hcheck, in_seq. destruct u; [done|]. simpl in *. lia. }
    apply negb_true_iff in Hi.
    apply (f_equal (drop (length u))) in Heq.
    rewrite drop_app_length, drop_app_le in Heq by lia.
    rewrite Heq, prefix_b_app in Hi. done.
  - apply (f_equal (take (length W'))) in Heq.
    rewrite take_app_le, take_app_length in Heq by lia.
    apply Hu. rewrite <- (take_drop (length W') u). apply elem_of_app. left. by rewrite Heq.
Qed.

Lemma head_bind_skip {A B} (f : A → list B) l1 x l2 z zs :
  (∀ y, y ∈ l1 → f y = []) → f x = z :: zs → head ((l1 ++ x :: l2) ≫= f) = Some z.
Proof.
  intros Hl1 Hx. induction l1 as [|y l1 IH]; cbn.
  - by rewrite Hx.
  - rewrite (Hl1 y) by (by left). simpl. apply IH. intros y' Hy'. apply Hl1. by right.
Qed.

Lemma filter_unconditional {A} (P : A → Prop) `{∀ x, Decision (P x)} (l : list A) :
  (∀ x, P x) → filter P l = l.
Proof.
  intros HP. induction l as [|x l IH]; [done|]. by rewrite filter_cons_True, IH.
Qed.

Lemma group_key_of_name (key suffix cleaned : str) :
  key ≠ [] → chr "." ∉ key → NL ∉ key →
  suffix ∈ [py "tesseract_extraction"; py "pymupdf_extraction"; py "from_csv"] →
  cleaned ∈ [[]; py "_cleaned"] →
  TextComparison.extract_group_key (key ++ py "_" ++ suffix ++ cleaned ++ py ".txt")
  = Some key.
Proof.
  intros Hne Hdot Hnl Hsuffix Hcleaned.
  set (W := py "_" ++ suffix ++ cleaned ++ py ".txt").
  destruct key as [|c k]; [done|].
  unfold TextComparison.extract_group_key, re_match, match_at.
  rewrite filter_unconditional by (intros; by left).
  pose (st0 := MState [] ((c :: k) ++ W) []).
  change (rmatch false TextComparison.GROUP_KEY_RE (MState [] ((c :: k) ++ W) []))
    with ((set_group 1 st0 <$> rmatch false (lazy_plus RAny) (MState [] (c :: k ++ W) []))
            ≫= rmatch false GROUP_KEY_TAIL).
  destruct (lazy_plus_any_walk c k W [] Hnl) as (l1 & l2 & Hwalk & Hl1).
  rewrite Hwalk.
  rewrite fmap_app, fmap_cons.
  assert (set_group 1 st0 (MState (rev k ++ [c]) W [])
          = MState (rev k ++ [c]) W [(1%nat, c :: k)]) as Htarget.
  { unfold set_group. cbn [m_pre m_suf m_groups]. do 3 f_equal.
    by apply extends_consumed. }
  rewrite Htarget.
  assert (∃ z zs, rmatch false GROUP_KEY_TAIL (MState (rev k ++ [c]) W [(1%nat, c :: k)])
                  = z :: zs ∧ lookup_group 1 (m_groups z) = c :: k) as (z & zs & Hz & Hg).
  { subst W. generalize (rev k ++ [c]) as pre. generalize (c :: k) as key. intros key pre. clear -Hsuffix Hcleaned.
    repeat (apply elem_of_cons in Hsuffix as [->|Hsuffix]); [| | |by apply elem_of_nil in Hsuffix];
      (repeat (apply elem_of_cons in Hcleaned as [->|Hcleaned]);
         [| |by apply elem_of_nil in Hcleaned]);
      vm_compute; eauto. }
  erewrite head_bind_skip; [|..|exact Hz].
  - simpl. unfold group. simpl. by rewrite Hg.
  - intros y (st & -> & Hst)%list_elem_of_fmap.
    destruct (Hl1 st Hst) as (a & b & Hk & Hb & ->).
    destruct (rmatch false GROUP_KEY_TAIL
                (set_group 1 st0 (MState (rev a ++ [c]) (b ++ W) []))) as [|x xs] eqn:E;
      [done|]. exfalso.
    assert (x ∈ rmatch false GROUP_KEY_TAIL
                  (set_group 1 st0 (MState (rev a ++ [c]) (b ++ W) []))) as Hx
      by (rewrite E; by left).
    apply group_key_tail_match in Hx as (suffix' & cleaned' & Hs' & Hc' & Heq).
    cbn [set_group m_suf] in Heq.
    assert (chr "." ∉ b) as Hdotb.
    { intros Hin. apply Hdot. right. rewrite Hk. apply elem_of_app. by right. }
    subst W.
    assert (b ++ (py "_" ++ suffix ++ cleaned ++ py ".txt")
            = (py "_" ++ suffix' ++ cleaned' ++ py ".txt") ++ m_suf x) as Heq'.
    { rewrite Heq. by rewrite <- !app_assoc. }
    apply (no_overlap _ _ b (m_suf x) (chr ".") ) in Heq'; [done| | |done|done];
      clear -Hsuffix Hcleaned Hs' Hc';
      (repeat (apply elem_of_cons in Hsuffix as [->|Hsuffix]);
         [| | |by apply elem_of_nil in Hsuffix]);
      (repeat (apply elem_of_cons in Hcleaned as [->|Hcleaned]);
         [| |by apply elem_of_nil in Hcleaned]);
      (repeat (apply elem_of_cons in Hs' as [->|Hs']); [| | |by apply elem_of_nil in Hs']);
      (repeat (apply elem_of_cons in Hc' as [->|Hc']); [| |by apply elem_of_nil in Hc']);
      first [ vm_compute; reflexivity
            | apply list_elem_of_In; vm_compute; tauto ].
Qed.

End RoundTrip.

(** X13: the file name built from a key, one of the three method suffixes
    and an optional _cleaned gives the key back: for every non-empty key
    without a full stop and without a line feed,
    extract_group_key(key + "_" + suffix [+ "_cleaned"] + ".txt") is the
    key, whatever underscores or suffix-like parts the key holds. *)
Theorem group_key_round_trip `{UD : UnicodeData} (key suffix cleaned : str) :
  key ≠ [] → chr "." ∉ key → NL ∉ key →
  suffix ∈ [py "tesseract_extraction"; py "pymupdf_extraction"; py "from_csv"] →
  cleaned ∈ [[]; py "_cleaned"] →
  TextComparison.extract_group_key (key ++ py "_" ++ suffix ++ cleaned ++ py ".txt")
  = Some key.
Proof. apply group_key_of_name. Qed.

(** A cleaned native extraction whose key holds spaces and a hyphen. *)
Lemma group_key_round_trip_witness :
  TextComparison.extract_group_key (UD := ascii_only)
    (py "Vote Leave - Why Vote Leave_pymupdf_extraction_cleaned.txt")
  = Some (py "Vote Leave - Why Vote Leave").
Proof.
  apply (group_key_round_trip (UD := ascii_only) (py "Vote Leave - Why Vote Leave")
           (py "pymupdf_extraction") (py "_cleaned")).
  - discriminate.
  - intros H%has_char_elem. vm_compute in H. discriminate H.
  - intros H%has_char_elem. vm_compute in H. discriminate H.
  - right. by left.
  - right. by left.
Defined.

(** ** The first stage on plain text *)

Section PlainText.
Context `{UD : UnicodeData}.
Import TextCleaning.

Lemma replace_absent a new s : a ∉ s → replace [a] new s = s.
Proof.
  unfold replace. induction s as [|c s IH]; intros Ha; simpl; [done|].
  destruct (N.eqb_spec a c) as [->|Hne]; [exfalso; apply Ha; by left|].
  simpl. f_equal. apply IH. intros ?. apply Ha. by right.
Qed.

Lemma normalize_unicode_plain text :
  Forall (λ c, in_range 32 126 c = true ∨ c = NL ∨ c = TAB) text →
  normalize_unicode text = text.
Proof.
  intros Hplain. unfold normalize_unicode.
  assert (nfkc text = text) as ->.
  { unfold nfkc. rewrite (proj2 (forallb_forall _ _)); [done|].
    intros c Hc%list_elem_of_In. rewrite Forall_forall in Hplain.
    unfold is_ascii. apply N.ltb_lt.
    destruct (Hplain c Hc) as [H%in_range_spec|[->| ->]]; [lia | done | done]. }
  assert (∀ k, k ∈ invisible_chars → k ∉ text) as Hinv.
  { intros k Hk Hin. rewrite Forall_forall in Hplain. unfold invisible_chars in Hk.
    destruct (Hplain k Hin) as [H%in_range_spec|[->| ->]];
      repeat (apply elem_of_cons in Hk as [Hk|Hk]); try (by apply elem_of_nil in Hk);
      try done; lia. }
  cbn [foldl invisible_chars].
  do 5 (rewrite (replace_absent _ [] text)
          by (apply Hinv; unfold invisible_chars; set_solver)).
  apply List_filter_all. intros c Hc. rewrite Forall_forall in Hplain.
  destruct (Hplain c Hc) as [H|[->| ->]]; [|done | done].
  destruct (printable_visible c H) as (-> & _). apply orb_true_r.
Qed.

End PlainText.

(** X14: the first stage leaves plain text alone: a text of printable
    ASCII characters, line feeds and tabs comes out of normalize_unicode
    unchanged. *)
Theorem unicode_normalization_keeps_plain_text `{UD : UnicodeData} (text : str) :
  Forall (λ c, in_range 32 126 c = true ∨ c = NL ∨ c = TextCleaning.TAB) text →
  TextCleaning.normalize_unicode text = text.
Proof. apply normalize_unicode_plain. Qed.

Lemma unicode_normalization_keeps_plain_text_witness :
  TextCleaning.normalize_unicode (UD := ascii_only)
    (py "We will build" ++ [TextCleaning.TAB] ++ py "homes." ++ [NL])
  = py "We will build" ++ [TextCleaning.TAB] ++ py "homes." ++ [NL].
Proof.
  apply (unicode_normalization_keeps_plain_text (UD := ascii_only)).
  repeat constructor; vm_compute; tauto.
Defined.

(** ** The lines that the removal of isolated characters keeps *)

Section KeptLines.
Context `{UD : UnicodeData}.
Import TextCleaning.

(** The lines of the output of a stage that maps and filters lines. *)
Lemma line_filter_lines (keep : str → bool) (g : str → str) (stage : str → str) text line :
  (∀ t, stage t = join [NL] (List.filter keep (g <$> split_on [NL] t))) →
  (∀ l, NL ∉ l → NL ∉ g l) →
  line ∈ split_on [NL] (stage text) →
  line = [] ∨ (keep line = true ∧ ∃ l0, l0 ∈ split_on [NL] text ∧ line = g l0).
Proof.
  intros Hstage Hnl. rewrite Hstage.
  assert (Forall (λ l, (NL ∉ l) ∧ keep l = true ∧ ∃ l0, l0 ∈ split_on [NL] text ∧ l = g l0)
                 (List.filter keep (g <$> split_on [NL] text))) as Hall.
  { apply Forall_forall. intros l [Hin Hk]%list_elem_of_In%filter_In.
    apply list_elem_of_In, list_elem_of_fmap in Hin as (l0 & -> & Hl0).
    split; [|by eauto].
    apply Hnl. pose proof (split_on_pieces NL text) as Hp. rewrite Forall_forall in Hp. eauto. }
  destruct (List.filter keep (g <$> split_on [NL] text)) as [|l ls] eqn:E.
  - intros Hin. left. simpl in Hin. by apply list_elem_of_singleton in Hin.
  - rewrite split_on_join by (eapply Forall_impl; [exact Hall|]; by intros ? [? _]).
    intros Hin. right. rewrite Forall_forall in Hall. by destruct (Hall _ Hin) as (_ & ? & ?).
Qed.

(** A line of one to three digits is taken for a page number. *)
Lemma page_numbers_dropped line :
  (1 ≤ length line ≤ 3)%nat → forallb ascii_digit line = true → keep_isolated line = false.
Proof.
  intros Hlen Hdigits.
  pose (ds := N.of_nat <$> seq 48 10).
  assert (∀ a, ascii_digit a = true → a ∈ ds) as Hds.
  { intros a Ha%in_range_spec. apply list_elem_of_fmap. exists (N.to_nat a).
    split; [by rewrite N2Nat.id|]. apply list_elem_of_In, in_seq. lia. }
  assert (forallb (λ l, negb (keep_isolated l))
            (((λ a, [a]) <$> ds)
             ++ (ds ≫= λ a, (λ b, [a; b]) <$> ds)
             ++ (ds ≫= λ a, ds ≫= λ b, (λ c, [a; b; c]) <$> ds)) = true) as Hall.
  { vm_compute. reflexivity. }
  rewrite forallb_forall in Hall. apply negb_true_iff, Hall, list_elem_of_In.
  destruct line as [|a [|b [|c [|d line]]]]; simpl in Hlen; try lia;
    cbn [forallb] in Hdigits; repeat (apply andb_true_iff in Hdigits as [? Hdigits]).
  - apply elem_of_app. left. apply list_elem_of_fmap. exists a. split; [done | by apply Hds].
  - apply elem_of_app. right. apply elem_of_app. left.
    apply list_elem_of_bind. exists a. split; [|by apply Hds].
    apply list_elem_of_fmap. exists b. split; [done | by apply Hds].
  - apply elem_of_app. right. apply elem_of_app. right.
    apply list_elem_of_bind. exists a. split; [|by apply Hds].
    apply list_elem_of_bind. exists b. split; [|by apply Hds].
    apply list_elem_of_fmap. exists c. split; [done | by apply Hds].
Qed.

Lemma kept_isolated_short line :
  keep_isolated line = true → (length line ≤ 2)%nat →
  line ∈ short_keep ∨ isdigit line = true.
Proof.
  unfold keep_isolated. intros Hkeep Hlen.
  apply Nat.leb_le in Hlen. rewrite Hlen in Hkeep. cbn [andb] in Hkeep.
  destruct (isdigit line); [by right|]. cbn [negb andb] in Hkeep.
  destruct (decide (line ∈ short_keep)) as [|Hno]; [by left|].
  rewrite (bool_decide_eq_false_2 _ Hno) in Hkeep. done.
Qed.

End KeptLines.

(** X15: every line of the output of the removal of isolated characters is
    trimmed, is not a number of one to three digits (such a line is taken
    for a page number), and, when it has at most two characters, is one of
    the abbreviations UK, EU, US, UN, MP, PM or a digit string outside
    ASCII (or the empty line of an empty output). *)
Theorem isolated_character_removal_lines `{UD : UnicodeData} (text line : str) :
  line ∈ split_on [NL] (TextCleaning.remove_isolated_characters text) →
  strip line = line
  ∧ ¬ ((1 ≤ length line ≤ 3)%nat ∧ forallb ascii_digit line = true)
  ∧ ((length line ≤ 2)%nat →
     line = [] ∨ line ∈ TextCleaning.short_keep ∨ isdigit line = true).
Proof.
  intros Hin.
  apply (line_filter_lines TextCleaning.keep_isolated strip) in Hin as [->|[Hkeep Hl0]];
    [|..|done|].
  - split; [done|]. split; [|by left]. simpl. lia.
  - destruct Hl0 as (l0 & _ & ->). split; [apply strip_idempotent|]. split.
    + intros [Hlen Hdigits]. by rewrite page_numbers_dropped in Hkeep.
    + intros Hlen. right. by apply kept_isolated_short.
  - intros l Hl ?. by apply Hl, elem_of_strip.
Qed.

(** A page with a number, an abbreviation and a stray letter. *)
Lemma isolated_character_removal_lines_witness :
  strip (py "UK") = py "UK"
  ∧ ¬ ((1 ≤ length (py "UK") ≤ 3)%nat ∧ forallb ascii_digit (py "UK") = true)
  ∧ ((length (py "UK") ≤ 2)%nat →
     py "UK" = [] ∨ py "UK" ∈ TextCleaning.short_keep
     ∨ isdigit (UD := ascii_only) (py "UK") = true).
Proof.
  apply (isolated_character_removal_lines (UD := ascii_only)
           (join [NL] [py "We will build homes."; py "12"; py "UK"; py "x"]) (py "UK")).
  vm_compute. right. left.
Defined.

(** ** The lines of [normalize_spacing] *)

Section SpacingLines.
Context `{UD : UnicodeData}.
Import TextCleaning.

Lemma join_marks_lines lines :
  Forall2 (λ l out, out = strip l ∨ out = strip l ++ [SPACE]) lines (join_marks lines).
Proof.
  induction lines as [|raw rest IH]; cbn [join_marks]; [constructor|].
  constructor; [|done].
  destruct (strip raw) as [|c line]; [by left|].
  destruct rest as [|next rest']; [by left|].
  destruct (last_char (c :: line)); [|by left]. case_match; [by right | by left].
Qed.

Lemma normalize_spacing_lines text :
  split_on [NL] (normalize_spacing text) = join_marks (split_on [NL] (spaced text)).
Proof.
  unfold normalize_spacing. fold (spaced text).
  pose proof (join_marks_lines (split_on [NL] (spaced text))) as Hlines.
  pose proof (split_on_pieces NL (spaced text)) as Hpieces.
  assert (Forall (λ out, NL ∉ out) (join_marks (split_on [NL] (spaced text)))) as Hout.
  { apply Forall_forall. intros out Hin. apply list_elem_of_lookup_1 in Hin as [i Hi].
    destruct (Forall2_lookup_r _ _ _ _ _ Hlines Hi) as (l & Hl & Hout).
    apply list_elem_of_lookup_2 in Hl. rewrite Forall_forall in Hpieces.
    specialize (Hpieces l Hl). destruct Hout as [->| ->].
    - intros ?. by apply Hpieces, elem_of_strip.
    - intros [?%elem_of_strip|Hs]%elem_of_app; [done|].
      by apply list_elem_of_singleton in Hs. }
  destruct (join_marks (split_on [NL] (spaced text))) as [|out outs] eqn:E.
  - apply Forall2_nil_inv_r in Hlines. by apply split_on_go_nonempty in Hlines.
  - by apply split_on_join.
Qed.

End SpacingLines.

(** X16: normalize_spacing never joins two lines: its output has exactly
    the lines of the text with its spaces, tabs and blank lines normalised,
    each one trimmed and, where the stage marks a line as continued,
    followed by a single space; the line feed after it stays. *)
Theorem spacing_keeps_the_lines `{UD : UnicodeData} (text : str) :
  length (split_on [NL] (TextCleaning.normalize_spacing text))
  = length (split_on [NL] (spaced text))
  ∧ Forall2 (λ l out, out = strip l ∨ out = strip l ++ [TextCleaning.SPACE])
            (split_on [NL] (spaced text))
            (split_on [NL] (TextCleaning.normalize_spacing text))
  ∧ TextCleaning.normalize_spacing (join [NL] [py "We will build"; py "more homes."])
    = join [NL] [py "We will build "; py "more homes."].
Proof.
  rewrite normalize_spacing_lines. split; [|split].
  - symmetry. eapply Forall2_length, join_marks_lines.
  - apply join_marks_lines.
  - vm_compute. reflexivity.
Qed.

(** ** The comparison of two cleaned extractions *)



(** ** Sentences broken over lines *)

Section BrokenSentences.
Context `{UD : UnicodeData}.
Import TextCleaning.

Lemma strip_ends s c t :
  strip s = c :: t → isspace c = false ∧ ∃ e, last (c :: t) = Some e ∧ isspace e = false.
Proof.
  unfold strip. intros Hs.
  set (y := drop_while isspace s) in *.
  set (z := drop_while isspace (rev y)) in *.
  pose proof (drop_while_head isspace (rev y)) as Hz. fold z in Hz.
  destruct (drop_while_suffix isspace (rev y)) as [a Ha]. fold z in Ha.
  pose proof (drop_while_head isspace s) as Hy. fold y in Hy.
  apply (f_equal (@rev _)) in Ha. rewrite rev_involutive, rev_app_distr, Hs in Ha.
  rewrite Ha in Hy. simpl in Hy. split; [done|].
  destruct z as [|e z']; [done|]. exists e. split; [|done].
  simpl in Hs. rewrite <- Hs. by rewrite last_snoc.
Qed.

Lemma strip_fixed s c e :
  head s = Some c → isspace c = false → last s = Some e → isspace e = false → strip s = s.
Proof.
  intros Hhead Hc Hlast He. unfold strip.
  rewrite (drop_while_fixed isspace s) by (destruct s; simplify_eq/=; done).
  transitivity (rev (rev s)); [|apply rev_involutive]. f_equal.
  apply drop_while_fixed.
  destruct s as [|x s _] using rev_ind; [done|].
  rewrite rev_app_distr. simpl. rewrite last_snoc in Hlast. by simplify_eq.
Qed.

Lemma sentence_line_strip raw : NL ∉ raw → strip raw ≠ [] → sentence_line (strip raw).
Proof.
  intros Hnl Hne. split; [done|]. split; [apply strip_idempotent|].
  intros ?. by apply Hnl, elem_of_strip.
Qed.

Lemma sentence_line_join cur line :
  sentence_line cur → sentence_line line → sentence_line (cur ++ [SPACE] ++ line).
Proof.
  intros (Hc & Hsc & Hnc) (Hl & Hsl & Hnl). split; [by destruct cur|]. split.
  - destruct cur as [|c cur]; [done|]. destruct line as [|d line]; [done|].
    destruct (strip_ends _ _ _ Hsc) as [Hc0 _].
    destruct (strip_ends _ _ _ Hsl) as (_ & e & He & Hse).
    apply (strip_fixed _ c e); [done | done | | done].
    rewrite !last_app. unfold char in *. by rewrite He.
  - intros [?|[Hs|?]%elem_of_app]%elem_of_app; [done | | done].
    by apply list_elem_of_singleton in Hs.
Qed.

Lemma well_broken_snoc lines x y :
  well_broken (lines ++ [x]) → (starts_lower y → ends_sentence x) →
  well_broken (lines ++ [x; y]).
Proof.
  induction lines as [|l lines IH]; intros Hwb Hxy; [by split|].
  destruct lines as [|l' lines]; simpl in *; [by destruct Hwb|].
  destruct Hwb as [H Hwb]. split; [done|]. by apply IH.
Qed.

Lemma well_broken_last lines x x' :
  well_broken (lines ++ [x]) → x ≠ [] → well_broken (lines ++ [x ++ x']).
Proof.
  induction lines as [|l lines IH]; intros Hwb Hx; [done|].
  destruct lines as [|l' lines]; simpl in *.
  - destruct Hwb as [H _]. split; [|done]. intros (c & Hc & Hlow). apply H.
    exists c. split; [|done]. by destruct x.
  - destruct Hwb as [H Hwb]. split; [done|]. by apply IH.
Qed.


Lemma add_line_sentences acc raw :
  NL ∉ raw → sentences_so_far acc → sentences_so_far (add_line acc raw).
Proof.
  destruct acc as [fixed cur]. intros Hnl Hinv. unfold add_line.
  destruct (strip raw) as [|c line] eqn:E; [done|].
  assert (sentence_line (c :: line)) as Hline.
  { rewrite <- E. apply sentence_line_strip; [done|]. by rewrite E. }
  unfold last_char. destruct cur as [|x cur'].
  - unfold sentences_so_far in *. cbn [fst snd] in *. subst fixed. cbn [app].
    split; [by apply Forall_singleton | done].
  - destruct (last (x :: cur')) as [e|] eqn:Hlast; [|by apply last_None in Hlast].
    unfold sentences_so_far in Hinv. cbn [fst snd] in Hinv. destruct Hinv as [Hall Hwb].
    apply Forall_app in Hall as [Hfixed Hcur]. apply Forall_inv in Hcur.
    destruct (negb (has_char e (py ".!?:")) && islower1 c) eqn:Hcond.
    + unfold sentences_so_far. cbn [fst snd].
      change (Forall sentence_line (fixed ++ [(x :: cur') ++ [SPACE] ++ c :: line])
              ∧ well_broken (fixed ++ [(x :: cur') ++ [SPACE] ++ c :: line])).
      split.
      * apply Forall_app. split; [done|]. apply Forall_singleton.
        by apply (sentence_line_join (x :: cur') (c :: line)).
      * by apply (well_broken_last fixed (x :: cur') ([SPACE] ++ c :: line)).
    + unfold sentences_so_far. cbn [fst snd]. split.
      * apply Forall_app. split; [|by apply Forall_singleton].
        apply Forall_app. split; [done | by apply Forall_singleton].
      * rewrite <- app_assoc. apply well_broken_snoc; [done|].
        intros (c' & [= <-] & Hlow). exists e. split; [done|].
        rewrite Hlow, andb_true_r in Hcond. by apply negb_false_iff in Hcond.
Qed.

Lemma fold_add_line_sentences (lines : list str) : ∀ acc : list str * str,
  Forall (λ l, NL ∉ l) lines → sentences_so_far acc →
  sentences_so_far (foldl add_line acc lines).
Proof.
  induction lines as [|l lines IH]; intros acc Hl Hacc; [done|].
  apply Forall_cons in Hl as [Hnl Hl]. simpl. apply IH; [done|]. by apply add_line_sentences.
Qed.

(** The closing steps of [fix_paragraph]. *)
Lemma close_paragraph (acc : list str * str) :
  sentences_so_far acc →
  let fixed_lines := match snd acc with [] => fst acc | _ => fst acc ++ [snd acc] end in
  match fixed_lines with [] => [] | _ => [join [NL] fixed_lines] end = []
  ∨ ∃ lines, match fixed_lines with [] => [] | _ => [join [NL] fixed_lines] end
             = [join [NL] lines]
           ∧ lines ≠ [] ∧ Forall sentence_line lines ∧ well_broken lines.
Proof.
  destruct acc as [fixed cur]. unfold sentences_so_far. cbn [fst snd].
  destruct cur as [|x cur']; [intros ->; by left|].
  intros [Hall Hwb]. right. exists (fixed ++ [x :: cur']).
  split; [by destruct fixed|]. split; [by destruct fixed | done].
Qed.

Lemma fix_paragraph_sentences paragraph :
  fix_paragraph paragraph = []
  ∨ ∃ lines, fix_paragraph paragraph = [join [NL] lines]
           ∧ lines ≠ [] ∧ Forall sentence_line lines ∧ well_broken lines.
Proof.
  unfold fix_paragraph. destruct (strip paragraph); [by left|].
  pose proof (fold_add_line_sentences (split_on [NL] paragraph) ([], [])
                (split_on_pieces NL paragraph) eq_refl) as Hinv.
  pose proof (close_paragraph _ Hinv) as Hclose. cbn zeta in Hclose.
  destruct (foldl add_line ([], []) (split_on [NL] paragraph)) as [fixed cur].
  exact Hclose.
Qed.

Lemma fix_broken_sentences_paragraphs text :
  ∃ pars : list (list str),
    fix_broken_sentences text = join [NL; NL] (join [NL] <$> pars)
    ∧ Forall (λ par, par ≠ [] ∧ Forall sentence_line par ∧ well_broken par) pars.
Proof.
  unfold fix_broken_sentences. generalize (split_on [NL; NL] text). intros ps.
  assert (∃ pars : list (list str),
            ps ≫= fix_paragraph = join [NL] <$> pars
            ∧ Forall (λ par, par ≠ [] ∧ Forall sentence_line par ∧ well_broken par) pars)
    as (pars & -> & Hpars); [|by eauto].
  induction ps as [|p ps (pars & IH & Hpars)]; [by exists []|].
  cbn [mbind list_bind]. change (mbind fix_paragraph ps) with (ps ≫= fix_paragraph).
  rewrite IH.
  destruct (fix_paragraph_sentences p) as [->|(lines & -> & Hne & Hall & Hwb)].
  - by exists pars.
  - exists (lines :: pars). split; [done|]. by constructor.
Qed.

End BrokenSentences.

(** X18: what fix_broken_sentences returns is made of paragraphs separated
    by one blank line; a paragraph is a non-empty sequence of lines, each
    not empty, trimmed and without a line feed, in which a line that starts
    with a lower-case letter always follows a line that ends in one of
    . ! ? : (otherwise the stage has joined the two). *)
Theorem broken_sentences_are_joined `{UD : UnicodeData} (text : str) :
  ∃ paragraphs : list (list str),
    TextCleaning.fix_broken_sentences text = join [NL; NL] (join [NL] <$> paragraphs)
    ∧ Forall (λ lines, lines ≠ [] ∧ Forall sentence_line lines ∧ well_broken lines)
             paragraphs.
Proof. apply fix_broken_sentences_paragraphs. Qed.

(** ** The outcome of the batch comparison *)

Section LiveOutcome.
Context `{UD : UnicodeData}.
Import TextComparison.




End LiveOutcome.



(** X20: for every text the ocr_error_rate of the archived script is the
    fraction of the whitespace-separated words that are suspicious (over the
    number of words floored at 1), a word being suspicious
    exactly when it contains the Unicode replacement character, contains
    both a letter and a digit (in either order), or contains a non-ASCII
    character.  [letter] and [digit] may classify the characters outside
    ASCII in any way. *)
Theorem archived_ocr_error_rate_is_suspicious_fraction `{UD : UnicodeData}
    (letter digit : char → bool) (text : str) :
  (∀ c, is_ascii c = true → letter c = ascii_letter c) →
  (∀ c, is_ascii c = true → digit c = ascii_digit c) →
  ∃ m, ArchiveComparison._compute_metrics text = Some m
     ∧ ArchiveComparison.ocr_error_rate m = spec_ocr_error_rate letter digit text.
Proof.
  intros Hl Hd.
  destruct (compute_metrics_total text) as (m & Hm & _ & _ & _ & _ & _ & Ho).
  exists m. split; [done|]. rewrite Ho. unfold spec_ocr_error_rate.
  do 3 f_equal. apply List_filter_ext_in. intros w Hw.
  apply is_suspicious_spec; [done | done | by eapply split_word_no_newline].
Qed.

(** The words "l0ve", "café" and "ok": two of three are suspicious. *)
Lemma archived_ocr_error_rate_is_suspicious_fraction_witness :
  ∃ m, ArchiveComparison._compute_metrics (UD := ascii_only)
         (py "l0ve caf" ++ [233%N] ++ py " ok") = Some m
     ∧ ArchiveComparison.ocr_error_rate m
       = spec_ocr_error_rate ascii_letter ascii_digit (py "l0ve caf" ++ [233%N] ++ py " ok").
Proof.
  apply (archived_ocr_error_rate_is_suspicious_fraction (UD := ascii_only) ascii_letter ascii_digit);
    intros c _; reflexivity.
Defined.
